(** * Client-side audio/text orchestration of the interview page

    A shallow embedding of the browser-side pipeline of interview-prep-v2:

    - [frontend/app/(dashboard)/interview/[id]/page.tsx]: the word-batching
      text buffer ([countWords], [extractFirstNWords], [processTextBuffer]),
      the socket handlers, the transcript-send effect, [startCall], [stopCall];
    - [components/TextToSpeech] ([useTextToSpeech], [textToAudioBuffer]);
    - [frontend/components/useAudioQueue.tsx] ([useAudioQueue]);
    - [components/SpeechToText] ([useSpeechToText], [stopTranscription]).

    Conventions of the embedding:

    - a JavaScript string is its sequence of UTF-16 code units;
    - refs and React state are fields of explicit state records, one record
      per hook, with one setter per field that the code assigns;
    - an [async] function is split at its [await]: the part that runs
      synchronously, and the continuation that runs when the awaited promise
      settles; the calls that are suspended are part of the state;
    - what the browser, the devices and the network decide (replies,
      failures, when a node reports [ended]) is an argument of the step that
      consumes it;
    - a handler or an event runs to its end, together with the React effects
      it triggers, before the next one starts. *)

From Stdlib Require Import String Ascii List Bool Arith NArith Lia.
Import ListNotations.

(* ================================================================== *)
(** * Part I: the program *)
(* ================================================================== *)

(** ** JavaScript strings *)

Module JsString.

(** A string is its sequence of UTF-16 code units. *)
Definition code_unit := N.
Definition jsstring := list code_unit.

(** The code units that [String.prototype.trim] strips and that the regular
    expression class [\s] matches (ECMAScript WhiteSpace and LineTerminator):
    TAB, LF, VT, FF, CR, SP, NBSP, U+1680, U+2000..U+200A, U+2028, U+2029,
    U+202F, U+205F, U+3000, U+FEFF. *)
Definition white_space_units : list code_unit :=
  [9; 10; 11; 12; 13; 32; 160; 5760;
   8192; 8193; 8194; 8195; 8196; 8197; 8198; 8199; 8200; 8201; 8202;
   8232; 8233; 8239; 8287; 12288; 65279]%N.

Definition is_ws (c : code_unit) : bool := existsb (N.eqb c) white_space_units.

Definition SP : code_unit := 32%N.

(** A literal of the source, read as code units. *)
Definition lit (s : string) : jsstring := map N_of_ascii (list_ascii_of_string s).

(** [!s] on a string: the empty string is the only falsy one. *)
Definition is_empty (s : jsstring) : bool :=
  match s with [] => true | _ :: _ => false end.

(** [Boolean(s)], the predicate of [.filter(Boolean)]. *)
Definition truthy (s : jsstring) : bool := negb (is_empty s).

Fixpoint trimStart (s : jsstring) : jsstring :=
  match s with
  | [] => []
  | c :: s' => if is_ws c then trimStart s' else s
  end.

(** Removing the trailing white space: a code unit is kept unless it is white
    space and nothing is kept after it. *)
Fixpoint trimEnd (s : jsstring) : jsstring :=
  match s with
  | [] => []
  | c :: s' =>
      match trimEnd s' with
      | [] => if is_ws c then [] else [c]
      | t => c :: t
      end
  end.

(** [s.trim()] *)
Definition trim (s : jsstring) : jsstring := trimEnd (trimStart s).

(** [s.split(/\s+/)]: the string is cut at every maximal run of white space.
    The pieces before a leading run and after a trailing run are empty strings
    and are part of the result; the empty string splits into one empty piece.
    [in_ws] records that the previous code unit belonged to a separator; the
    head of the result is the piece under construction. *)
Fixpoint split_from (in_ws : bool) (s : jsstring) : list jsstring :=
  match s with
  | [] => [[]]
  | c :: s' =>
      if is_ws c then
        if in_ws then split_from true s' else [] :: split_from true s'
      else
        match split_from false s' with
        | w :: ws => (c :: w) :: ws
        | [] => [[c]]
        end
  end.

Definition split_ws (s : jsstring) : list jsstring := split_from false s.

(** [a.join(' ')] *)
Fixpoint join_sp (a : list jsstring) : jsstring :=
  match a with
  | [] => []
  | [w] => w
  | w :: a' => w ++ SP :: join_sp a'
  end.

(** The specification's notion of a word: the maximal runs of code units that
    are not white space, in order ("whitespace-delimited non-empty tokens").
    This definition follows the specification, not the source; the source's
    [countWords] and [extractFirstNWords] are compared with it below. *)
Definition starts_word (s : jsstring) : bool :=
  match s with
  | [] => false
  | d :: _ => negb (is_ws d)
  end.

Fixpoint words (s : jsstring) : list jsstring :=
  match s with
  | [] => []
  | c :: s' =>
      if is_ws c then words s'
      else if starts_word s' then
        match words s' with
        | w :: ws => (c :: w) :: ws
        | [] => [[c]]
        end
      else [c] :: words s'
  end.

End JsString.

Import JsString.

(** ** The text buffer of the interview page: word counting and batching *)

Module TextHelpers.

(** [countWords]: [text.trim().split(/\s+/).filter(Boolean).length] *)
Definition countWords (text : jsstring) : nat :=
  length (filter truthy (split_ws (trim text))).

(** [extractFirstNWords]: [words.slice(0, n)] and [words.slice(n)] of
    [text.trim().split(/\s+/)], each joined with one space. *)
Definition extractFirstNWords (text : jsstring) (n : nat) : jsstring * jsstring :=
  let words := split_ws (trim text) in
  (join_sp (firstn n words), join_sp (skipn n words)).

End TextHelpers.

Import TextHelpers.

(** ** useTextToSpeech *)

Module TextToSpeech.

(** A decoded [AudioBuffer] is opaque to the page; it is named by a token. *)
Definition AudioBuffer := nat.

(** The ways [textToAudioBuffer] rejects. *)
Inductive TtsError : Type :=
| NoTextProvided            (* throw new Error('No text provided for TTS') *)
| FetchRejected             (* fetch itself rejects *)
| TtsFailed (status : nat)  (* throw new Error(`Deepgram TTS failed: ...`) *)
| DecodeRejected.           (* decodeAudioData rejects *)

(** What the service and the decoder answer to one request. *)
Inductive TtsReply : Type :=
| NoResponse
| ResponseNotOk (status : nat)
| Undecodable
| Decoded (a : AudioBuffer).

(** [textToAudioBuffer(text)]: the text is checked before anything is sent;
    [reply] is what the request meets afterwards. *)
Definition textToAudioBuffer (text : jsstring) (reply : TtsReply)
  : TtsError + AudioBuffer :=
  if is_empty (trim text) then inl NoTextProvided
  else match reply with
       | NoResponse => inl FetchRejected
       | ResponseNotOk status => inl (TtsFailed status)
       | Undecodable => inl DecodeRejected
       | Decoded a => inr a
       end.

End TextToSpeech.

Import TextToSpeech.

(** ** processTextBuffer and the socket handlers that drive it *)

Module TextChunkBuffer.

(** The writes and calls of [processTextBuffer] and of the [text_chunk]
    handler, in the order in which they are executed. *)
Inductive Act : Type :=
| SetProcessing (b : bool)         (* isProcessingRef.current = b *)
| SetPendingFlush (b : bool)       (* pendingFlushRef.current = b *)
| SetBuffer (s : jsstring)         (* textBufferRef.current = s *)
| AppendBuffer (chunk : jsstring)  (* textBufferRef.current += chunk *)
| CallTts (text : jsstring)        (* textToAudioBuffer(text) *)
| Enqueue (a : AudioBuffer) (text : jsstring).  (* enqueue(a, text) *)

(** A call of [processTextBuffer] suspended at [await textToAudioBuffer(..)].
    [convText] is its [textToConvert]. When the call was made from the
    [finally] block of an enclosing call whose own [try] block had failed,
    [convOuter] is the exception that enclosing call re-throws once its
    [finally] block is done. *)
Record Conversion : Type := {
  convText : jsstring;
  convOuter : option TtsError
}.

Record Buf : Type := {
  textBuffer : jsstring;                  (* textBufferRef *)
  isProcessing : bool;                    (* isProcessingRef *)
  pendingFlush : bool;                    (* pendingFlushRef *)
  inflight : list Conversion;             (* synthesis calls not yet settled *)
  enqueued : list (AudioBuffer * jsstring); (* calls of enqueue, oldest first *)
  rejected : list TtsError;               (* handler promises that rejected *)
  console : list jsstring;                (* console output of these functions *)
  trace : list Act                        (* everything done so far, in order *)
}.

Definition init : Buf :=
  {| textBuffer := []; isProcessing := false; pendingFlush := false;
     inflight := []; enqueued := []; rejected := []; console := [];
     trace := [] |}.

Definition setProcessing (b : bool) (st : Buf) : Buf :=
  {| textBuffer := textBuffer st; isProcessing := b;
     pendingFlush := pendingFlush st; inflight := inflight st;
     enqueued := enqueued st; rejected := rejected st; console := console st;
     trace := trace st ++ [SetProcessing b] |}.

Definition setPendingFlush (b : bool) (st : Buf) : Buf :=
  {| textBuffer := textBuffer st; isProcessing := isProcessing st;
     pendingFlush := b; inflight := inflight st;
     enqueued := enqueued st; rejected := rejected st; console := console st;
     trace := trace st ++ [SetPendingFlush b] |}.

Definition setBuffer (s : jsstring) (st : Buf) : Buf :=
  {| textBuffer := s; isProcessing := isProcessing st;
     pendingFlush := pendingFlush st; inflight := inflight st;
     enqueued := enqueued st; rejected := rejected st; console := console st;
     trace := trace st ++ [SetBuffer s] |}.

Definition appendBuffer (chunk : jsstring) (st : Buf) : Buf :=
  {| textBuffer := textBuffer st ++ chunk; isProcessing := isProcessing st;
     pendingFlush := pendingFlush st; inflight := inflight st;
     enqueued := enqueued st; rejected := rejected st; console := console st;
     trace := trace st ++ [AppendBuffer chunk] |}.

(** The call [textToAudioBuffer(text)] followed by [await]: the caller is
    suspended until the call settles. *)
Definition callTts (text : jsstring) (outer : option TtsError) (st : Buf) : Buf :=
  {| textBuffer := textBuffer st; isProcessing := isProcessing st;
     pendingFlush := pendingFlush st;
     inflight := inflight st ++ [{| convText := text; convOuter := outer |}];
     enqueued := enqueued st; rejected := rejected st; console := console st;
     trace := trace st ++ [CallTts text] |}.

Definition enqueue (a : AudioBuffer) (text : jsstring) (st : Buf) : Buf :=
  {| textBuffer := textBuffer st; isProcessing := isProcessing st;
     pendingFlush := pendingFlush st; inflight := inflight st;
     enqueued := enqueued st ++ [(a, text)];
     rejected := rejected st; console := console st;
     trace := trace st ++ [Enqueue a text] |}.

(** The promise of a socket handler rejects with [e]; nothing catches it. *)
Definition reject (e : TtsError) (st : Buf) : Buf :=
  {| textBuffer := textBuffer st; isProcessing := isProcessing st;
     pendingFlush := pendingFlush st; inflight := inflight st;
     enqueued := enqueued st; rejected := rejected st ++ [e];
     console := console st; trace := trace st |}.

Definition dropInflight (i : nat) (st : Buf) : Buf :=
  {| textBuffer := textBuffer st; isProcessing := isProcessing st;
     pendingFlush := pendingFlush st;
     inflight := firstn i (inflight st) ++ skipn (S i) (inflight st);
     enqueued := enqueued st; rejected := rejected st; console := console st;
     trace := trace st |}.

(** How a call of [processTextBuffer] hands control back: it returned, or it
    is suspended at its [await]. *)
Inductive Outcome : Type := Returned | Awaiting.

(** [processTextBuffer(forceFlush)] up to its [await]. *)
Definition processTextBuffer (forceFlush : bool) (outer : option TtsError)
  (st : Buf) : Buf * Outcome :=
  if isProcessing st then
    ((if forceFlush then setPendingFlush true st else st), Returned)
  else
    let currentBuffer := textBuffer st in
    let wordCount := countWords currentBuffer in
    if (20 <=? wordCount) || (forceFlush && (0 <? wordCount)) then
      let st1 := setProcessing true st in
      let extracted :=
        if negb forceFlush && (20 <=? wordCount)
        then extractFirstNWords currentBuffer 20
        else (currentBuffer, []) in
      let textToConvert := fst extracted in
      let remainder := snd extracted in
      let st2 := setBuffer remainder st1 in
      (callTts textToConvert outer st2, Awaiting)
    else (st, Returned).

(** The end of a chain of calls: the exception still pending, if any, leaves
    through the promise of the socket handler that started the chain. *)
Definition finish (pending : option TtsError) (st : Buf) : Buf :=
  match pending with
  | Some e => reject e st
  | None => st
  end.

(** [await processTextBuffer(..)] inside the [finally] block. *)
Definition awaitNested (pending : option TtsError) (r : Buf * Outcome) : Buf :=
  match r with
  | (st, Awaiting) => st
  | (st, Returned) => finish pending st
  end.

(** The rest of [processTextBuffer] once [textToAudioBuffer] has settled with
    [res]: the [enqueue] of the [try] block when it resolved, then the
    [finally] block. There is no [catch]: a rejection stays pending and
    replaces the one an enclosing call was holding. *)
Definition resume (c : Conversion) (res : TtsError + AudioBuffer) (st : Buf)
  : Buf :=
  let st1 := match res with
             | inr audioBuffer => enqueue audioBuffer (convText c) st
             | inl _ => st
             end in
  let pending := match res with
                 | inl e => Some e
                 | inr _ => convOuter c
                 end in
  let st2 := setProcessing false st1 in
  if pendingFlush st2 then
    let st3 := setPendingFlush false st2 in
    awaitNested pending (processTextBuffer true pending st3)
  else
    let newWordCount := countWords (textBuffer st2) in
    if 20 <=? newWordCount
    then awaitNested pending (processTextBuffer false pending st2)
    else finish pending st2.

(** What happens to the buffer, one event at a time. The handlers are the
    bodies that run while the page is mounted. *)
Inductive Event : Type :=
| TextChunk (chunk : jsstring)         (* socket.on('text_chunk') *)
| TextComplete                         (* socket.on('text_complete') *)
| TtsSettled (i : nat) (reply : TtsReply). (* the i-th pending call settles *)

Definition on_text_chunk (chunk : jsstring) (st : Buf) : Buf :=
  fst (processTextBuffer false None (appendBuffer chunk st)).

Definition on_text_complete (st : Buf) : Buf :=
  fst (processTextBuffer true None st).

Definition on_tts_settled (i : nat) (reply : TtsReply) (st : Buf) : Buf :=
  match nth_error (inflight st) i with
  | Some c => resume c (textToAudioBuffer (convText c) reply) (dropInflight i st)
  | None => st
  end.

Definition step (e : Event) (st : Buf) : Buf :=
  match e with
  | TextChunk chunk => on_text_chunk chunk st
  | TextComplete => on_text_complete st
  | TtsSettled i reply => on_tts_settled i reply st
  end.

Definition run (evs : list Event) (st : Buf) : Buf :=
  fold_left (fun s e => step e s) evs st.

Definition reachable (st : Buf) : Prop := exists evs, st = run evs init.

End TextChunkBuffer.

(** ** useAudioQueue *)

Module AudioQueue.

Record AudioQueueItem : Type := {
  id : jsstring;              (* `audio_${Date.now()}_${Math.random()}` *)
  audioBuffer : AudioBuffer;
  text : jsstring
}.

(** An [AudioBufferSourceNode] is named by its creation number. *)
Definition SourceNode := nat.

(** Where the [try] block of one call of [playNext] throws, if it does. *)
Inductive Fault : Type :=
| NoFault
| ThrowsBeforeAssign   (* createBufferSource, the buffer setter or connect *)
| StartThrows          (* source.start(0) *)
| CallbackThrows.      (* onFirstAudioPlay() *)

Record State : Type := {
  queue : list AudioQueueItem;          (* useState: queue *)
  isPlaying : bool;                     (* useState: isPlaying *)
  currentPlayingText : jsstring;        (* useState: currentPlayingText *)
  isUserSpeaking : bool;                (* the hook's first argument *)
  hasCallback : bool;                   (* onFirstAudioPlay is supplied *)
  audioContext : bool;                  (* audioContextRef.current is set *)
  currentSource : option SourceNode;    (* currentSourceRef.current *)
  hasPlayedFirstAudio : bool;           (* hasPlayedFirstAudioRef.current *)
  nextSource : SourceNode;              (* nodes created so far *)
  sounding : list SourceNode;           (* started, neither ended nor stopped *)
  started : list (SourceNode * AudioQueueItem); (* every source.start(0) *)
  notified : nat;                       (* calls of onFirstAudioPlay *)
  errors : nat                          (* calls of console.error *)
}.

(** The hook after its mount effect has created the audio context. *)
Definition mounted (callback : bool) : State :=
  {| queue := []; isPlaying := false; currentPlayingText := [];
     isUserSpeaking := false; hasCallback := callback; audioContext := true;
     currentSource := None; hasPlayedFirstAudio := false; nextSource := 0;
     sounding := []; started := []; notified := 0; errors := 0 |}.

Definition setQueue (q : list AudioQueueItem) (st : State) : State :=
  {| queue := q; isPlaying := isPlaying st;
     currentPlayingText := currentPlayingText st;
     isUserSpeaking := isUserSpeaking st; hasCallback := hasCallback st;
     audioContext := audioContext st; currentSource := currentSource st;
     hasPlayedFirstAudio := hasPlayedFirstAudio st;
     nextSource := nextSource st; sounding := sounding st;
     started := started st; notified := notified st; errors := errors st |}.

Definition setIsPlaying (b : bool) (st : State) : State :=
  {| queue := queue st; isPlaying := b;
     currentPlayingText := currentPlayingText st;
     isUserSpeaking := isUserSpeaking st; hasCallback := hasCallback st;
     audioContext := audioContext st; currentSource := currentSource st;
     hasPlayedFirstAudio := hasPlayedFirstAudio st;
     nextSource := nextSource st; sounding := sounding st;
     started := started st; notified := notified st; errors := errors st |}.

Definition setCurrentPlayingText (t : jsstring) (st : State) : State :=
  {| queue := queue st; isPlaying := isPlaying st;
     currentPlayingText := t;
     isUserSpeaking := isUserSpeaking st; hasCallback := hasCallback st;
     audioContext := audioContext st; currentSource := currentSource st;
     hasPlayedFirstAudio := hasPlayedFirstAudio st;
     nextSource := nextSource st; sounding := sounding st;
     started := started st; notified := notified st; errors := errors st |}.

Definition setIsUserSpeaking (b : bool) (st : State) : State :=
  {| queue := queue st; isPlaying := isPlaying st;
     currentPlayingText := currentPlayingText st;
     isUserSpeaking := b; hasCallback := hasCallback st;
     audioContext := audioContext st; currentSource := currentSource st;
     hasPlayedFirstAudio := hasPlayedFirstAudio st;
     nextSource := nextSource st; sounding := sounding st;
     started := started st; notified := notified st; errors := errors st |}.

Definition setCurrentSource (s : option SourceNode) (st : State) : State :=
  {| queue := queue st; isPlaying := isPlaying st;
     currentPlayingText := currentPlayingText st;
     isUserSpeaking := isUserSpeaking st; hasCallback := hasCallback st;
     audioContext := audioContext st; currentSource := s;
     hasPlayedFirstAudio := hasPlayedFirstAudio st;
     nextSource := nextSource st; sounding := sounding st;
     started := started st; notified := notified st; errors := errors st |}.

(** [audioContext.createBufferSource()]: a fresh node. *)
Definition createBufferSource (st : State) : State :=
  {| queue := queue st; isPlaying := isPlaying st;
     currentPlayingText := currentPlayingText st;
     isUserSpeaking := isUserSpeaking st; hasCallback := hasCallback st;
     audioContext := audioContext st; currentSource := currentSource st;
     hasPlayedFirstAudio := hasPlayedFirstAudio st;
     nextSource := S (nextSource st); sounding := sounding st;
     started := started st; notified := notified st; errors := errors st |}.

(** [source.start(0)]: the node begins to sound. *)
Definition startSource (s : SourceNode) (item : AudioQueueItem) (st : State)
  : State :=
  {| queue := queue st; isPlaying := isPlaying st;
     currentPlayingText := currentPlayingText st;
     isUserSpeaking := isUserSpeaking st; hasCallback := hasCallback st;
     audioContext := audioContext st; currentSource := currentSource st;
     hasPlayedFirstAudio := hasPlayedFirstAudio st;
     nextSource := nextSource st; sounding := sounding st ++ [s];
     started := started st ++ [(s, item)];
     notified := notified st; errors := errors st |}.

(** [try { source.stop() } catch {}]: the node is silent afterwards, whether
    it was sounding or not. *)
Definition stopSource (s : SourceNode) (st : State) : State :=
  {| queue := queue st; isPlaying := isPlaying st;
     currentPlayingText := currentPlayingText st;
     isUserSpeaking := isUserSpeaking st; hasCallback := hasCallback st;
     audioContext := audioContext st; currentSource := currentSource st;
     hasPlayedFirstAudio := hasPlayedFirstAudio st;
     nextSource := nextSource st;
     sounding := List.remove Nat.eq_dec s (sounding st);
     started := started st; notified := notified st; errors := errors st |}.

Definition setHasPlayedFirstAudio (b : bool) (st : State) : State :=
  {| queue := queue st; isPlaying := isPlaying st;
     currentPlayingText := currentPlayingText st;
     isUserSpeaking := isUserSpeaking st; hasCallback := hasCallback st;
     audioContext := audioContext st; currentSource := currentSource st;
     hasPlayedFirstAudio := b;
     nextSource := nextSource st; sounding := sounding st;
     started := started st; notified := notified st; errors := errors st |}.

Definition callOnFirstAudioPlay (st : State) : State :=
  {| queue := queue st; isPlaying := isPlaying st;
     currentPlayingText := currentPlayingText st;
     isUserSpeaking := isUserSpeaking st; hasCallback := hasCallback st;
     audioContext := audioContext st; currentSource := currentSource st;
     hasPlayedFirstAudio := hasPlayedFirstAudio st;
     nextSource := nextSource st; sounding := sounding st;
     started := started st; notified := S (notified st); errors := errors st |}.

Definition consoleError (st : State) : State :=
  {| queue := queue st; isPlaying := isPlaying st;
     currentPlayingText := currentPlayingText st;
     isUserSpeaking := isUserSpeaking st; hasCallback := hasCallback st;
     audioContext := audioContext st; currentSource := currentSource st;
     hasPlayedFirstAudio := hasPlayedFirstAudio st;
     nextSource := nextSource st; sounding := sounding st;
     started := started st; notified := notified st; errors := S (errors st) |}.

(** [enqueue(audioBuffer, text)] *)
Definition enqueue (ident : jsstring) (a : AudioBuffer) (t : jsstring)
  (st : State) : State :=
  setQueue (queue st ++ [{| id := ident; audioBuffer := a; text := t |}]) st.

Definition resetFirstAudioFlag (st : State) : State :=
  setHasPlayedFirstAudio false st.

(** The [catch] block of [playNext]. *)
Definition playNextCatch (st : State) : State :=
  setCurrentPlayingText [] (setIsPlaying false (consoleError st)).

(** [playNext()]. The function has no [await]: it runs to its end in one go.
    [fault] is what the browser (or the callback) does to this call. *)
Definition playNext (fault : Fault) (st : State) : State :=
  if isUserSpeaking st then st
  else if (length (queue st) =? 0) || isPlaying st then st
  else
    match queue st with
    | [] => st
    | nextItem :: rest =>
        let st1 :=
          setCurrentPlayingText (text nextItem)
            (setIsPlaying true (setQueue rest st)) in
        if negb (audioContext st1) then st1
        else
          let st2 := match currentSource st1 with
                     | Some old => stopSource old st1
                     | None => st1
                     end in
          match fault with
          | ThrowsBeforeAssign => playNextCatch st2
          | _ =>
              let source := nextSource st2 in
              let st3 := setCurrentSource (Some source) (createBufferSource st2) in
              match fault with
              | StartThrows => playNextCatch st3
              | _ =>
                  let st4 := startSource source nextItem st3 in
                  if negb (hasPlayedFirstAudio st4) && hasCallback st4 then
                    let st5 :=
                      callOnFirstAudioPlay (setHasPlayedFirstAudio true st4) in
                    match fault with
                    | CallbackThrows => playNextCatch st5
                    | _ => st5
                    end
                  else st4
              end
          end
    end.

(** The condition of the auto-play effect. *)
Definition wantsToPlay (st : State) : bool :=
  (0 <? length (queue st)) && negb (isPlaying st) && negb (isUserSpeaking st).

(** The condition of the effect that stops playback when the user speaks. *)
Definition wantsToInterrupt (st : State) : bool :=
  isUserSpeaking st && isPlaying st.

Definition interruptEffect (st : State) : State :=
  if wantsToInterrupt st then
    let st1 := match currentSource st with
               | Some s => setCurrentSource None (stopSource s st)
               | None => st
               end in
    setCurrentPlayingText [] (setIsPlaying false st1)
  else st.

(** React runs the two effects after every commit in which one of their
    dependencies changed, and commits again after the state updates they
    make. Both conditions read nothing but dependencies, and [playNext]
    always replaces [queue] when the auto-play condition holds, so this is
    the loop: run the effect whose condition holds until neither does.
    [faults] are the faults of the successive calls of [playNext]. *)
Fixpoint settle (fuel : nat) (faults : list Fault) (st : State) : State :=
  match fuel with
  | 0 => st
  | S fuel' =>
      if wantsToPlay st then
        settle fuel' (tl faults) (playNext (hd NoFault faults) st)
      else if wantsToInterrupt st then
        settle fuel' faults (interruptEffect st)
      else st
  end.

Definition commit (faults : list Fault) (st : State) : State :=
  settle (2 + length (queue st)) faults st.

(** The handler installed by [source.onended = ...]. *)
Definition onended (st : State) : State :=
  setCurrentSource None (setCurrentPlayingText [] (setIsPlaying false st)).

(** [clearQueue()] *)
Definition clearQueue (st : State) : State :=
  let st1 := match currentSource st with
             | Some s => setCurrentSource None (stopSource s st)
             | None => st
             end in
  setCurrentPlayingText [] (setIsPlaying false (setQueue [] st1)).

(** What happens to the queue. [Ended s]: node [s] reports [ended], and the
    handler that [playNext] installed on it runs. Every node carries the same
    handler, and when a node reports is the browser's business, so the event
    is admitted for every node that exists, sounding or stopped. *)
Inductive Event : Type :=
| Enqueued (ident : jsstring) (a : AudioBuffer) (t : jsstring)
| Speaking (b : bool)
| Ended (s : SourceNode)
| ClearQueue
| ResetFirstAudioFlag.

(** A node that has reported [ended] makes no sound. *)
Definition fallSilent (s : SourceNode) (st : State) : State := stopSource s st.

Definition handle (e : Event) (st : State) : State :=
  match e with
  | Enqueued ident a t => enqueue ident a t st
  | Speaking b => setIsUserSpeaking b st
  | Ended s =>
      if s <? nextSource st
      then onended (fallSilent s st)
      else st
  | ClearQueue => clearQueue st
  | ResetFirstAudioFlag => resetFirstAudioFlag st
  end.

(** One event: its handler, then the effects. *)
Definition step (ef : Event * list Fault) (st : State) : State :=
  commit (snd ef) (handle (fst ef) st).

Definition run (evs : list (Event * list Fault)) (st : State) : State :=
  fold_left (fun s e => step e s) evs st.

Definition reachable (st : State) : Prop :=
  exists callback evs, st = run evs (mounted callback).

End AudioQueue.

(** ** Statements that may throw *)

Module Exc.

(** A statement over a state [S]: it ends normally with a value, or throws;
    either way the state may have changed. *)
Definition Cmd (S E A : Type) : Type := S -> (E + A) * S.

Definition ret {S E A : Type} (a : A) : Cmd S E A := fun s => (inr a, s).

Definition throw {S E A : Type} (e : E) : Cmd S E A := fun s => (inl e, s).

Definition bind {S E A B : Type} (c : Cmd S E A) (k : A -> Cmd S E B)
  : Cmd S E B :=
  fun s => match c s with
           | (inr a, s') => k a s'
           | (inl e, s') => (inl e, s')
           end.

(** [try { c } catch {}] *)
Definition tryIgnore {S E : Type} (c : Cmd S E unit) : Cmd S E unit :=
  fun s => match c s with
           | (_, s') => (inr tt, s')
           end.

(** A plain assignment or setter call. *)
Definition modify {S E : Type} (f : S -> S) : Cmd S E unit :=
  fun s => (inr tt, f s).

End Exc.

Notation "c1 ;; c2" := (Exc.bind c1 (fun _ => c2))
  (at level 61, right associativity).

(** ** useSpeechToText *)

Module SpeechToText.

Inductive Resource : Type := Recorder | Tracks | DeepgramSocket.

(** Which of the release calls of [stopTranscription] throw. *)
Record ReleaseFaults : Type := {
  recorderStopThrows : bool;
  trackStopThrows : bool;
  socketCloseThrows : bool
}.

Inductive SttError : Type := ReleaseFailed (r : Resource) | StartFailed.

Record State : Type := {
  currentTranscript : jsstring;            (* useState *)
  finalizedTranscripts : list jsstring;    (* useState *)
  isTranscribing : bool;                   (* useState *)
  isSpeaking : bool;                       (* useState *)
  isSpeakingRef : bool;
  mediaRecorderRef : bool;                 (* the ref holds an object *)
  streamRef : bool;
  socketRef : bool;
  speechFinalReceivedRef : bool;
  released : list Resource                 (* release calls that went through *)
}.

Definition initial : State :=
  {| currentTranscript := []; finalizedTranscripts := [];
     isTranscribing := false; isSpeaking := false; isSpeakingRef := false;
     mediaRecorderRef := false; streamRef := false; socketRef := false;
     speechFinalReceivedRef := false; released := [] |}.

Definition setCurrentTranscript (t : jsstring) (st : State) : State :=
  {| currentTranscript := t; finalizedTranscripts := finalizedTranscripts st;
     isTranscribing := isTranscribing st; isSpeaking := isSpeaking st;
     isSpeakingRef := isSpeakingRef st; mediaRecorderRef := mediaRecorderRef st;
     streamRef := streamRef st; socketRef := socketRef st;
     speechFinalReceivedRef := speechFinalReceivedRef st;
     released := released st |}.

Definition setFinalizedTranscripts (l : list jsstring) (st : State) : State :=
  {| currentTranscript := currentTranscript st; finalizedTranscripts := l;
     isTranscribing := isTranscribing st; isSpeaking := isSpeaking st;
     isSpeakingRef := isSpeakingRef st; mediaRecorderRef := mediaRecorderRef st;
     streamRef := streamRef st; socketRef := socketRef st;
     speechFinalReceivedRef := speechFinalReceivedRef st;
     released := released st |}.

Definition setIsTranscribing (b : bool) (st : State) : State :=
  {| currentTranscript := currentTranscript st;
     finalizedTranscripts := finalizedTranscripts st;
     isTranscribing := b; isSpeaking := isSpeaking st;
     isSpeakingRef := isSpeakingRef st; mediaRecorderRef := mediaRecorderRef st;
     streamRef := streamRef st; socketRef := socketRef st;
     speechFinalReceivedRef := speechFinalReceivedRef st;
     released := released st |}.

(** [setSpeaking(v)]: the ref and the state together. *)
Definition setSpeaking (v : bool) (st : State) : State :=
  {| currentTranscript := currentTranscript st;
     finalizedTranscripts := finalizedTranscripts st;
     isTranscribing := isTranscribing st; isSpeaking := v;
     isSpeakingRef := v; mediaRecorderRef := mediaRecorderRef st;
     streamRef := streamRef st; socketRef := socketRef st;
     speechFinalReceivedRef := speechFinalReceivedRef st;
     released := released st |}.

Definition setSpeechFinalReceived (b : bool) (st : State) : State :=
  {| currentTranscript := currentTranscript st;
     finalizedTranscripts := finalizedTranscripts st;
     isTranscribing := isTranscribing st; isSpeaking := isSpeaking st;
     isSpeakingRef := isSpeakingRef st; mediaRecorderRef := mediaRecorderRef st;
     streamRef := streamRef st; socketRef := socketRef st;
     speechFinalReceivedRef := b; released := released st |}.

Definition setRefs (recorder stream socket : bool) (st : State) : State :=
  {| currentTranscript := currentTranscript st;
     finalizedTranscripts := finalizedTranscripts st;
     isTranscribing := isTranscribing st; isSpeaking := isSpeaking st;
     isSpeakingRef := isSpeakingRef st; mediaRecorderRef := recorder;
     streamRef := stream; socketRef := socket;
     speechFinalReceivedRef := speechFinalReceivedRef st;
     released := released st |}.

Definition noteReleased (r : Resource) (st : State) : State :=
  {| currentTranscript := currentTranscript st;
     finalizedTranscripts := finalizedTranscripts st;
     isTranscribing := isTranscribing st; isSpeaking := isSpeaking st;
     isSpeakingRef := isSpeakingRef st; mediaRecorderRef := mediaRecorderRef st;
     streamRef := streamRef st; socketRef := socketRef st;
     speechFinalReceivedRef := speechFinalReceivedRef st;
     released := released st ++ [r] |}.

(** [ref.current?.release()]: nothing is called on an empty ref; the call
    throws when [throws] says so. *)
Definition release (r : Resource) (held throws : bool)
  : Exc.Cmd State SttError unit :=
  if held then
    if throws then Exc.throw (ReleaseFailed r)
    else Exc.modify (noteReleased r)
  else Exc.ret tt.

(** [stopTranscription()] *)
Definition stopTranscription (f : ReleaseFaults) : Exc.Cmd State SttError unit :=
  fun st =>
   (Exc.tryIgnore (release Recorder (mediaRecorderRef st) (recorderStopThrows f)) ;;
    Exc.tryIgnore (release Tracks (streamRef st) (trackStopThrows f)) ;;
    Exc.tryIgnore (release DeepgramSocket (socketRef st) (socketCloseThrows f)) ;;
    Exc.modify (setRefs false false false) ;;
    Exc.modify (setSpeaking false) ;;
    Exc.modify (setSpeechFinalReceived false) ;;
    Exc.modify (setIsTranscribing false) ;;
    Exc.modify (setCurrentTranscript [])) st.

(** How far [startTranscription] gets: [getUserMedia] rejects, or
    [new MediaRecorder] throws, or [new WebSocket] throws, or none does. *)
Inductive StartOutcome : Type :=
| MicrophoneRefused
| RecorderFails
| SocketFails
| Started.

Definition setStreamRef (st : State) : State :=
  setRefs (mediaRecorderRef st) true (socketRef st) st.

Definition setMediaRecorderRef (st : State) : State :=
  setRefs true (streamRef st) (socketRef st) st.

Definition setSocketRef (st : State) : State :=
  setRefs (mediaRecorderRef st) (streamRef st) true st.

(** [startTranscription()]: the refs are assigned as the objects are made;
    the [catch] block logs and throws again. *)
Definition startTranscription (o : StartOutcome) : Exc.Cmd State SttError unit :=
  match o with
  | MicrophoneRefused => Exc.throw StartFailed
  | RecorderFails => Exc.modify setStreamRef ;; Exc.throw StartFailed
  | SocketFails =>
      Exc.modify setStreamRef ;; Exc.modify setMediaRecorderRef ;;
      Exc.throw StartFailed
  | Started =>
      Exc.modify setStreamRef ;; Exc.modify setMediaRecorderRef ;;
      Exc.modify setSocketRef ;; Exc.modify (setIsTranscribing true)
  end.

(** [toggleTranscription()] *)
Definition toggleTranscription (o : StartOutcome) (f : ReleaseFaults)
  : Exc.Cmd State SttError unit :=
  fun st =>
    if isTranscribing st then stopTranscription f st
    else startTranscription o st.

(** A message of the transcription service, as [socket.onmessage] reads it. *)
Inductive Message : Type :=
| Unparseable
| UtteranceEnd
| Results (transcript : jsstring) (isFinal speechFinal : bool).

(** [socket.onmessage] *)
Definition onmessage (m : Message) (st : State) : State :=
  match m with
  | Unparseable => st
  | UtteranceEnd =>
      let st1 := if negb (speechFinalReceivedRef st)
                 then setSpeaking false st else st in
      setSpeechFinalReceived false st1
  | Results result isFinal speechFinal =>
      if is_empty result then st
      else
        let st1 := if negb (isSpeakingRef st) then setSpeaking true st else st in
        if isFinal then
          let st2 :=
            setFinalizedTranscripts (finalizedTranscripts st1 ++ [result]) st1 in
          if speechFinal then
            setCurrentTranscript []
              (setSpeaking false (setSpeechFinalReceived true st2))
          else st2
        else setCurrentTranscript result st1
  end.

End SpeechToText.

(** ** The interview page: handlers, effect and controls *)

Module InterviewPage.

Import TextChunkBuffer.

(** Events the page emits on its socket. *)
Inductive ClientEvent : Type :=
| JoinInterview
| StartInterview
| UserResponse (text : jsstring).

(** What a pending [setTimeout] will do. *)
Inductive TimerTask : Type := PushDashboard.

Record Page : Type := {
  buf : Buf;                        (* textBufferRef, isProcessingRef, pendingFlushRef *)
  lastTranscriptRef : jsstring;
  socketConnected : bool;           (* socketRef.current?.connected *)
  emitted : list ClientEvent;       (* socket.emit, oldest first *)
  callActive : bool;
  pageMounted : bool;               (* the [mounted] variable of the socket effect *)
  stt : SpeechToText.State;
  aq : AudioQueue.State;
  timers : list (nat * TimerTask);  (* pending setTimeout: delay in ms, task *)
  pushed : list jsstring            (* router.push *)
}.

Definition withBuf (f : Buf -> Buf) (p : Page) : Page :=
  {| buf := f (buf p); lastTranscriptRef := lastTranscriptRef p;
     socketConnected := socketConnected p; emitted := emitted p;
     callActive := callActive p; pageMounted := pageMounted p;
     stt := stt p; aq := aq p; timers := timers p; pushed := pushed p |}.

Definition withStt (f : SpeechToText.State -> SpeechToText.State) (p : Page)
  : Page :=
  {| buf := buf p; lastTranscriptRef := lastTranscriptRef p;
     socketConnected := socketConnected p; emitted := emitted p;
     callActive := callActive p; pageMounted := pageMounted p;
     stt := f (stt p); aq := aq p; timers := timers p; pushed := pushed p |}.

Definition withAq (f : AudioQueue.State -> AudioQueue.State) (p : Page) : Page :=
  {| buf := buf p; lastTranscriptRef := lastTranscriptRef p;
     socketConnected := socketConnected p; emitted := emitted p;
     callActive := callActive p; pageMounted := pageMounted p;
     stt := stt p; aq := f (aq p); timers := timers p; pushed := pushed p |}.

Definition setLastTranscript (t : jsstring) (p : Page) : Page :=
  {| buf := buf p; lastTranscriptRef := t;
     socketConnected := socketConnected p; emitted := emitted p;
     callActive := callActive p; pageMounted := pageMounted p;
     stt := stt p; aq := aq p; timers := timers p; pushed := pushed p |}.

Definition setCallActive (b : bool) (p : Page) : Page :=
  {| buf := buf p; lastTranscriptRef := lastTranscriptRef p;
     socketConnected := socketConnected p; emitted := emitted p;
     callActive := b; pageMounted := pageMounted p;
     stt := stt p; aq := aq p; timers := timers p; pushed := pushed p |}.

(** [socket.emit(..)] *)
Definition emit (e : ClientEvent) (p : Page) : Page :=
  {| buf := buf p; lastTranscriptRef := lastTranscriptRef p;
     socketConnected := socketConnected p; emitted := emitted p ++ [e];
     callActive := callActive p; pageMounted := pageMounted p;
     stt := stt p; aq := aq p; timers := timers p; pushed := pushed p |}.

(** [socket.disconnect()] *)
Definition disconnect (p : Page) : Page :=
  {| buf := buf p; lastTranscriptRef := lastTranscriptRef p;
     socketConnected := false; emitted := emitted p;
     callActive := callActive p; pageMounted := pageMounted p;
     stt := stt p; aq := aq p; timers := timers p; pushed := pushed p |}.

(** [setTimeout(task, delay)] *)
Definition setTimeout (task : TimerTask) (delay : nat) (p : Page) : Page :=
  {| buf := buf p; lastTranscriptRef := lastTranscriptRef p;
     socketConnected := socketConnected p; emitted := emitted p;
     callActive := callActive p; pageMounted := pageMounted p;
     stt := stt p; aq := aq p; timers := timers p ++ [(delay, task)];
     pushed := pushed p |}.


(** The three assignments that clear the text buffer:
    [textBufferRef.current = ''; isProcessingRef.current = false;
     pendingFlushRef.current = false]. *)
Definition clearTextBuffer (b : Buf) : Buf :=
  setPendingFlush false (setProcessing false (setBuffer [] b)).

(** [socket.on('text_chunk', ..)] and [socket.on('text_complete', ..)] *)
Definition text_chunk (chunk : jsstring) (p : Page) : Page :=
  if negb (pageMounted p) then p else withBuf (on_text_chunk chunk) p.

Definition text_complete (p : Page) : Page :=
  if negb (pageMounted p) then p else withBuf on_text_complete p.

(** [socket.on('interview_completed', ..)]. The handler is created by an
    effect that depends on [interviewId] only: [seesTranscribing] is the value
    of [isTranscribing] in the render that created it, and the
    [toggleTranscription] it calls tests that same value, so the call stops
    the transcription. *)
Definition interview_completed (seesTranscribing : bool)
  (f : SpeechToText.ReleaseFaults) (p : Page) : Page :=
  if negb (pageMounted p) then p
  else
    let p1 := if seesTranscribing
              then withStt (fun s => snd (SpeechToText.stopTranscription f s)) p
              else p in
    let p2 := setCallActive false p1 in
    let p3 := withAq AudioQueue.clearQueue p2 in
    let p4 := disconnect p3 in
    setTimeout PushDashboard 2000 p4.


(** [a !== b] on strings is the negation of this. *)
Definition same_text (a b : jsstring) : bool :=
  if list_eq_dec N.eq_dec a b then true else false.

(** The effect with dependencies [isSpeaking, finalizedTranscripts]. *)
Definition transcriptSendEffect (p : Page) : Page :=
  if negb (SpeechToText.isSpeaking (stt p))
     && (0 <? length (SpeechToText.finalizedTranscripts (stt p)))
     && socketConnected p
  then
    let combinedTranscript := join_sp (SpeechToText.finalizedTranscripts (stt p)) in
    let p1 := withStt (SpeechToText.setFinalizedTranscripts []) p in
    if truthy combinedTranscript
       && negb (same_text combinedTranscript (lastTranscriptRef p1))
    then
      let p2 := withBuf clearTextBuffer p1 in
      let p3 := withAq AudioQueue.resetFirstAudioFlag p2 in
      let p4 := emit (UserResponse combinedTranscript) p3 in
      setLastTranscript combinedTranscript p4
    else p1
  else p.

(** A statement of the transcription hook run on the page. *)
Definition onStt {A : Type} (c : Exc.Cmd SpeechToText.State SpeechToText.SttError A)
  : Exc.Cmd Page SpeechToText.SttError A :=
  fun p => match c (stt p) with
           | (r, s') => (r, withStt (fun _ => s') p)
           end.

(** [startCall()]; [o] and [f] are what the devices answer. *)
Definition startCall (o : SpeechToText.StartOutcome)
  (f : SpeechToText.ReleaseFaults)
  : Exc.Cmd Page SpeechToText.SttError unit :=
  fun p =>
   ((if negb (SpeechToText.isTranscribing (stt p))
     then onStt (SpeechToText.toggleTranscription o f)
     else Exc.ret tt) ;;
    Exc.modify (setCallActive true) ;;
    Exc.modify (withBuf clearTextBuffer) ;;
    (fun q => if socketConnected q
              then Exc.modify (emit StartInterview) q
              else Exc.ret tt q)) p.

(** [stopCall()] *)
Definition stopCall (o : SpeechToText.StartOutcome)
  (f : SpeechToText.ReleaseFaults)
  : Exc.Cmd Page SpeechToText.SttError unit :=
  fun p =>
   ((if SpeechToText.isTranscribing (stt p)
     then onStt (SpeechToText.toggleTranscription o f)
     else Exc.ret tt) ;;
    Exc.modify (setCallActive false) ;;
    Exc.modify (withAq AudioQueue.clearQueue) ;;
    Exc.modify (withBuf clearTextBuffer)) p.

(** A page that is mounted, connected, and idle. *)
Definition connected : Page :=
  {| buf := TextChunkBuffer.init; lastTranscriptRef := [];
     socketConnected := true; emitted := [JoinInterview];
     callActive := false; pageMounted := true;
     stt := SpeechToText.initial; aq := AudioQueue.mounted false;
     timers := []; pushed := [] |}.

End InterviewPage.


(** ** The page over a session: everything that can happen to it *)

Module Session.

Import InterviewPage.

Inductive Event : Type :=
| Heard (m : SpeechToText.Message)     (* the transcription socket delivers [m] *)
| StartCall (o : SpeechToText.StartOutcome) (f : SpeechToText.ReleaseFaults)
| StopCall (o : SpeechToText.StartOutcome) (f : SpeechToText.ReleaseFaults)
| TextChunk (chunk : jsstring)         (* the server sends text_chunk *)
| TextComplete                         (* the server sends text_complete *)
| TtsSettled (i : nat) (reply : TtsReply)
| InterviewCompleted (seesTranscribing : bool) (f : SpeechToText.ReleaseFaults).

Definition handle (e : Event) (p : Page) : Page :=
  match e with
  | Heard m => withStt (SpeechToText.onmessage m) p
  | StartCall o f => snd (startCall o f p)
  | StopCall o f => snd (stopCall o f p)
  | TextChunk chunk => text_chunk chunk p
  | TextComplete => text_complete p
  | TtsSettled i reply => withBuf (TextChunkBuffer.on_tts_settled i reply) p
  | InterviewCompleted sees f => interview_completed sees f p
  end.

(** One event: its handler, then the transcript-send effect, which React
    runs when [isSpeaking] or [finalizedTranscripts] has changed and which
    does nothing when they have not. The session follows what the page
    sends and keeps; the playback queue is followed on its own in
    [AudioQueue]: here [aq] changes only where a handler calls [clearQueue]
    or [resetFirstAudioFlag], the audio of a settled conversion is recorded
    in [TextChunkBuffer.enqueued], and the speaking signal is not passed on
    to the queue. *)
Definition step (e : Event) (p : Page) : Page :=
  transcriptSendEffect (handle e p).

Definition run (evs : list Event) (p : Page) : Page :=
  fold_left (fun q e => step e q) evs p.

End Session.

(* ================================================================== *)
(** * Statements of the specification, and test data *)
(* ================================================================== *)

Module Statements.

Import TextChunkBuffer.

(** A code unit sequence that can be a word: not empty, no white space. *)
Definition word_ok (w : jsstring) : Prop :=
  w <> [] /\ Forall (fun c => is_ws c = false) w.

(** The call [r] of [processTextBuffer] made in state [st] hands [batch] to
    the synthesizer, stays suspended on it, and leaves [rest] in the buffer. *)
Definition starts_conversion (st : Buf) (r : Buf * Outcome)
  (batch rest : jsstring) : Prop :=
  snd r = Awaiting /\
  (exists outer,
      inflight (fst r) =
      inflight st ++ [{| convText := batch; convOuter := outer |}]) /\
  textBuffer (fst r) = rest.

(** Step 5 of the flush algorithm, for one buffer state: what a non-forced
    flush converts when there are at least 20 words, and what a forced flush
    converts when there is at least one. *)
Definition flush_batches (st : Buf) : Prop :=
  (20 <= length (words (textBuffer st)) ->
   starts_conversion st (processTextBuffer false None st)
     (join_sp (firstn 20 (words (textBuffer st))))
     (join_sp (skipn 20 (words (textBuffer st))))) /\
  (0 < length (words (textBuffer st)) ->
   starts_conversion st (processTextBuffer true None st) (textBuffer st) []).

(** The state invariant behind mutual exclusion: the flag is up exactly while
    one synthesis call is pending. *)
Definition lock_matches_inflight (st : Buf) : Prop :=
  if isProcessing st then length (inflight st) = 1 else inflight st = [].

(** In a list of actions, every write of the buffer by [processTextBuffer]
    comes after the flag was raised. *)
Definition locks_before_shrinking (acts : list Act) : Prop :=
  forall pre r post,
    acts = pre ++ SetBuffer r :: post -> In (SetProcessing true) pre.

(** Every text handed to the synthesizer so far has a word in it. *)
Definition calls_nonblank (st : Buf) : Prop :=
  forall t, In (CallTts t) (trace st) -> is_empty (trim t) = false.

(** An event that is not the settling of a synthesis call. *)
Definition is_input (e : Event) : bool :=
  match e with
  | TtsSettled _ _ => false
  | _ => true
  end.

(** The text the [text_chunk] events of a sequence carry, in order. *)
Fixpoint chunks_of (evs : list Event) : jsstring :=
  match evs with
  | [] => []
  | TextChunk chunk :: evs' => chunk ++ chunks_of evs'
  | _ :: evs' => chunks_of evs'
  end.

(** The exception that is pending when the [finally] block of a resumed call
    runs: its own, or else the one an enclosing call is holding. *)
Definition pending_after (c : Conversion) (res : TtsError + AudioBuffer)
  : option TtsError :=
  match res with
  | inl e => Some e
  | inr _ => convOuter c
  end.

(** The calls of [enqueue] after a resumed call has run its [try] block. *)
Definition enqueued_after (c : Conversion) (res : TtsError + AudioBuffer)
  (st : Buf) : list (AudioBuffer * jsstring) :=
  match res with
  | inl _ => enqueued st
  | inr a => enqueued st ++ [(a, convText c)]
  end.

(** The rejections after a chain of calls has ended with [pending]. *)
Definition rejected_after (pending : option TtsError) (st : Buf)
  : list TtsError :=
  match pending with
  | Some e => rejected st ++ [e]
  | None => rejected st
  end.

(** A failure of the synthesis call dealt with inside [processTextBuffer]:
    no promise rejects, and something is written to the console. *)
Definition failure_handled_locally (before after : Buf) : Prop :=
  rejected after = rejected before /\ console after <> console before.

(** A call of [processTextBuffer] that does nothing at all. *)
Definition does_nothing (forceFlush : bool) (st : Buf) : Prop :=
  forall outer, processTextBuffer forceFlush outer st = (st, Returned).

(** Twenty-five words, the first twenty of them, the last five. *)
Definition words25 : jsstring :=
  lit "a1 a2 a3 a4 a5 a6 a7 a8 a9 a10 b1 b2 b3 b4 b5 b6 b7 b8 b9 b10 c1 c2 c3 c4 c5".

Definition words20 : jsstring :=
  lit "a1 a2 a3 a4 a5 a6 a7 a8 a9 a10 b1 b2 b3 b4 b5 b6 b7 b8 b9 b10".

Definition words5 : jsstring := lit "c1 c2 c3 c4 c5".

(** The buffer while the first batch of twenty words is being converted. *)
Definition converting : Buf := on_text_chunk words20 init.

End Statements.

Import Statements.

Module QueueStatements.

Import AudioQueue.

(** Node [s] exists and makes no sound. *)
Definition silenced (s : SourceNode) (st : State) : Prop :=
  s < nextSource st /\ ~ In s (sounding st).

(** What holds of the hook's refs in every state the hook can be in. *)
Definition refs_ok (st : State) : Prop :=
  audioContext st = true /\
  (forall s, currentSource st = Some s -> s < nextSource st) /\
  (forall s, In s (sounding st) -> s < nextSource st) /\
  (isPlaying st = true -> currentSource st <> None).

(** The invariant of the data model: playing exactly when a node is held. *)
Definition playing_iff_handle (st : State) : Prop :=
  isPlaying st = true <-> currentSource st <> None.

(** No two nodes sound together, and a sounding node is the one held. *)
Definition one_voice (st : State) : Prop :=
  length (sounding st) <= 1 /\
  (forall s, In s (sounding st) -> currentSource st = Some s).

(** A fault that strikes after [currentSourceRef] was assigned. *)
Definition late_fault (f : Fault) : bool :=
  match f with
  | StartThrows | CallbackThrows => true
  | NoFault | ThrowsBeforeAssign => false
  end.

Definition no_late_fault (fl : list Fault) : bool :=
  forallb (fun f => negb (late_fault f)) fl.

(** Neither effect has anything left to do. *)
Definition at_rest (st : State) : Prop :=
  wantsToPlay st = false /\ wantsToInterrupt st = false.

(** The queue is playing an item whose node is sounding. *)
Definition playing_ok (st : State) : Prop :=
  isPlaying st = true /\ isUserSpeaking st = false /\
  audioContext st = true /\
  exists s, currentSource st = Some s /\ s < nextSource st.

(** The [ended] event comes from the node that is held. *)
Definition ended_by_held (e : Event) (st : State) : Prop :=
  match e with
  | Ended s => currentSource st = Some s
  | _ => True
  end.

(** A run in which no node reports [ended] after it was dropped. *)
Fixpoint timely (evs : list (Event * list Fault)) (st : State) : Prop :=
  match evs with
  | [] => True
  | ef :: evs' => ended_by_held (fst ef) st /\ timely evs' (step ef st)
  end.

(** The item being played comes to its end, [n] times over, with no fault. *)
Fixpoint play_through (n : nat) (st : State) : State :=
  match n with
  | 0 => st
  | S n' =>
      match currentSource st with
      | Some s => play_through n' (step (Ended s, []) st)
      | None => st
      end
  end.

(** Items handed to [enqueue] one after the other. *)
Definition enqueue_events (items : list AudioQueueItem)
  : list (Event * list Fault) :=
  map (fun it => (Enqueued (id it) (audioBuffer it) (text it), [])) items.

(** The items started so far, in order. *)
Definition played (st : State) : list AudioQueueItem := map snd (started st).

Definition itemA : AudioQueueItem :=
  {| id := lit "audio_1_0.1"; audioBuffer := 1; text := lit "first batch" |}.

Definition itemB : AudioQueueItem :=
  {| id := lit "audio_2_0.2"; audioBuffer := 2; text := lit "second batch" |}.

Definition itemC : AudioQueueItem :=
  {| id := lit "audio_3_0.3"; audioBuffer := 3; text := lit "third batch" |}.

(** Scenario D: A and B are enqueued and A is playing. *)
Definition playingA (callback : bool) : State :=
  run [(Enqueued (id itemA) (audioBuffer itemA) (text itemA), []);
       (Enqueued (id itemB) (audioBuffer itemB) (text itemB), [])]
      (mounted callback).

End QueueStatements.

Import QueueStatements.

Module SessionStatements.

Import SpeechToText.

(** The derived state of a session that has not heard anything. *)
Definition reset_to_initial (st : State) : Prop :=
  isSpeaking st = false /\ finalizedTranscripts st = [] /\
  currentTranscript st = [].

(** The release calls of [stopTranscription] that go through, in order. *)
Definition releases (f : ReleaseFaults) (st : State) : list Resource :=
  (if mediaRecorderRef st && negb (recorderStopThrows f) then [Recorder] else [])
  ++ (if streamRef st && negb (trackStopThrows f) then [Tracks] else [])
  ++ (if socketRef st && negb (socketCloseThrows f) then [DeepgramSocket] else []).

(** The state [stopTranscription] leaves behind. *)
Definition after_stop (f : ReleaseFaults) (st : State) : State :=
  let st1 := if mediaRecorderRef st && negb (recorderStopThrows f)
             then noteReleased Recorder st else st in
  let st2 := if streamRef st && negb (trackStopThrows f)
             then noteReleased Tracks st1 else st1 in
  let st3 := if socketRef st && negb (socketCloseThrows f)
             then noteReleased DeepgramSocket st2 else st2 in
  setCurrentTranscript []
    (setIsTranscribing false
       (setSpeechFinalReceived false
          (setSpeaking false (setRefs false false false st3)))).

Definition all_fail : ReleaseFaults :=
  {| recorderStopThrows := true; trackStopThrows := true;
     socketCloseThrows := true |}.

Definition none_fails : ReleaseFaults :=
  {| recorderStopThrows := false; trackStopThrows := false;
     socketCloseThrows := false |}.

(** A session that is transcribing, the user in mid-answer: one final
    segment has arrived, the end of the utterance has not. *)
Definition mid_answer : State :=
  onmessage (Results (lit "I would use a queue") true false)
    (snd (startTranscription Started initial)).




End SessionStatements.

Import SessionStatements.

Module TextStatements.

Import TextChunkBuffer.

(** The code units of a text that are not white space, in order. *)
Definition nonws (s : jsstring) : jsstring :=
  filter (fun c => negb (is_ws c)) s.

(** The texts handed to the synthesizer, in the order of the calls. *)
Fixpoint calls_of (acts : list Act) : list jsstring :=
  match acts with
  | [] => []
  | CallTts t :: acts' => t :: calls_of acts'
  | _ :: acts' => calls_of acts'
  end.

(** No synthesis call of the run fails: every one that settles is decoded. *)
Definition decoded_reply (e : Event) : bool :=
  match e with
  | TtsSettled _ (Decoded _) => true
  | TtsSettled _ _ => false
  | _ => true
  end.

(** What is conserved: the text handed over so far and the text waiting. *)
Definition accounted (st : Buf) : jsstring :=
  nonws (concat (calls_of (trace st))) ++ nonws (textBuffer st).

(** The state of a run in which no synthesis call has failed. *)
Definition in_order (st : Buf) : Prop :=
  map snd (enqueued st) ++ map convText (inflight st) = calls_of (trace st) /\
  rejected st = [] /\
  Forall (fun c => convOuter c = None) (inflight st) /\
  calls_nonblank st /\
  lock_matches_inflight st.

(** Text waits in an idle buffer only below the threshold. *)
Definition idle_below_threshold (st : Buf) : Prop :=
  isProcessing st = false -> countWords (textBuffer st) < 20.

(** A recorded flush has a conversion in flight that will carry it out. *)
Definition flush_has_carrier (st : Buf) : Prop :=
  pendingFlush st = true -> isProcessing st = true.

(** A buffer with nothing left to do. *)
Definition drained (st : Buf) : Prop :=
  inflight st = [] /\ isProcessing st = false /\ pendingFlush st = false /\
  length (words (textBuffer st)) = 0.

End TextStatements.

Import TextStatements.

Module QueueRunStatements.

Import AudioQueue.

(** The number of times the first-audio flag is re-armed in a run. *)
Fixpoint resets (evs : list (Event * list Fault)) : nat :=
  match evs with
  | [] => 0
  | (ResetFirstAudioFlag, _) :: evs' => S (resets evs')
  | _ :: evs' => resets evs'
  end.

(** The user does not stop speaking during the run. *)
Definition keeps_speaking (ef : Event * list Fault) : bool :=
  match fst ef with
  | Speaking false => false
  | _ => true
  end.

(** The first-audio callback was called at most once more than the flag was
    re-armed, the call still to come counted in. *)
Definition notified_within (r : nat) (st : State) : Prop :=
  notified st + (if hasPlayedFirstAudio st then 0 else 1) <= 1 + r.

(** With a callback and without re-arming: called once, when the first item
    started, or not yet. *)
Definition notified_on_first_start (st : State) : Prop :=
  (hasCallback st = false /\ notified st = 0) \/
  (hasCallback st = true /\ hasPlayedFirstAudio st = false /\
   notified st = 0 /\ started st = []) \/
  (hasCallback st = true /\ hasPlayedFirstAudio st = true /\
   notified st = 1 /\ started st <> []).

End QueueRunStatements.

Import QueueRunStatements.

Module PageStatements.

Import InterviewPage.

(** The answers sent to the server so far, oldest first. *)
Fixpoint responses (l : list ClientEvent) : list jsstring :=
  match l with
  | [] => []
  | UserResponse t :: l' => t :: responses l'
  | _ :: l' => responses l'
  end.

(** No answer is the same as the one sent just before it. *)
Fixpoint no_repeat (l : list jsstring) : Prop :=
  match l with
  | a :: l' =>
      match l' with
      | b :: _ => a <> b /\ no_repeat l'
      | [] => True
      end
  | [] => True
  end.

(** What the page keeps true of the answers it sends. *)
Definition answers_ok (p : Page) : Prop :=
  lastTranscriptRef p = last (responses (emitted p)) [] /\
  Forall (fun t => t <> []) (responses (emitted p)) /\
  no_repeat (responses (emitted p)).

(** The answer transmitted last; the empty text when none was. *)
Definition last_transmitted (p : Page) : jsstring :=
  last (responses (emitted p)) [].

(** The page after the session was stopped and started again, the
    transcript-send effect running after each as it does after every
    event. *)
Definition restarted (ok1 : SpeechToText.StartOutcome)
  (f1 : SpeechToText.ReleaseFaults) (ok2 : SpeechToText.StartOutcome)
  (f2 : SpeechToText.ReleaseFaults) (p : Page) : Page :=
  Session.run [Session.StopCall ok1 f1; Session.StartCall ok2 f2] p.

(** Two answers of a candidate. *)
Definition answerX : jsstring := lit "I would use a queue".
Definition answerY : jsstring := lit "or maybe a stack".

(** A call in which [answerX] was given and sent. *)
Definition answered : Page :=
  Session.run
    [Session.StartCall SpeechToText.Started SessionStatements.none_fails;
     Session.Heard (SpeechToText.Results answerX true true)]
    connected.

(** The same call a moment later: the first segment of a second answer is
    final, the candidate is still speaking. *)
Definition answering_again : Page :=
  Session.step (Session.Heard (SpeechToText.Results answerY true false))
    answered.

(** The final segments of a sequence of messages, in order of arrival. *)
Fixpoint finals_of (msgs : list SpeechToText.Message) : list jsstring :=
  match msgs with
  | [] => []
  | SpeechToText.Results t true _ :: msgs' =>
      if is_empty t then finals_of msgs' else t :: finals_of msgs'
  | _ :: msgs' => finals_of msgs'
  end.

Definition hear (msgs : list SpeechToText.Message) (st : SpeechToText.State)
  : SpeechToText.State :=
  fold_left (fun s m => SpeechToText.onmessage m s) msgs st.

End PageStatements.

Import PageStatements.

Module AnswerStatements.

Import InterviewPage.

(** A connected page with the first batch of a reply being converted, on
    which the user has just finished an answer. *)
Definition answering : Page :=
  withStt (SpeechToText.onmessage
             (SpeechToText.Results (lit "my answer") true true))
    (withBuf (fun _ => converting) connected).

(** The conversion that is pending in [converting]. *)
Definition first_batch : TextChunkBuffer.Conversion :=
  {| TextChunkBuffer.convText := words20; TextChunkBuffer.convOuter := None |}.

End AnswerStatements.

Import AnswerStatements.
(* ================================================================== *)
(** * Part II: properties *)
(* ================================================================== *)

(** ** Words: the source's splitting against the specification's words *)

Section WordFacts.

Lemma split_from_not_nil (b : bool) (s : jsstring) : split_from b s <> [].
Proof.
  revert b; induction s as [|c s IH]; intro b; simpl.
  - discriminate.
  - destruct (is_ws c).
    + destruct b; [apply IH | discriminate].
    + destruct (split_from false s); discriminate.
Qed.

Lemma starts_word_words (s : jsstring) :
  starts_word s = true -> exists w ws, words s = w :: ws /\ w <> [].
Proof.
  destruct s as [|d s]; simpl; [discriminate|].
  destruct (is_ws d); simpl; [discriminate|]. intros _.
  destruct (starts_word s).
  - destruct (words s) as [|w ws]; eexists; eexists; split;
      try reflexivity; discriminate.
  - eexists; eexists; split; [reflexivity | discriminate].
Qed.

Lemma split_from_head_word (s : jsstring) :
  starts_word s = true ->
  exists w ws, split_from false s = w :: ws /\ w <> [].
Proof.
  destruct s as [|d s]; simpl; [discriminate|].
  destruct (is_ws d); simpl; [discriminate|]. intros _.
  destruct (split_from false s) as [|w ws]; eexists; eexists; split;
    try reflexivity; discriminate.
Qed.

Lemma split_from_head_gap (s : jsstring) :
  starts_word s = false ->
  exists ws, split_from false s = [] :: ws.
Proof.
  destruct s as [|d s]; simpl.
  - intros _. exists []. reflexivity.
  - destruct (is_ws d); simpl; [|discriminate]. intros _.
    eexists. reflexivity.
Qed.

(** Dropping the empty pieces of a split leaves the words, wherever the scan
    starts. *)
Lemma filter_split_from_words (s : jsstring) :
  forall b, filter truthy (split_from b s) = words s.
Proof.
  induction s as [|c s IH]; intro b; simpl.
  - reflexivity.
  - destruct (is_ws c) eqn:Hc.
    + destruct b; simpl; apply IH.
    + destruct (starts_word s) eqn:Hs.
      * destruct (split_from_head_word s Hs) as (w & ws & Hsp & Hw).
        specialize (IH false). rewrite Hsp in IH |- *. simpl in *.
        destruct w as [|x w]; [contradiction|]. simpl in IH.
        rewrite <- IH. reflexivity.
      * destruct (split_from_head_gap s Hs) as (ws & Hsp).
        specialize (IH false). rewrite Hsp in IH |- *. simpl in *.
        rewrite IH. reflexivity.
Qed.

Lemma words_trimStart (s : jsstring) : words (trimStart s) = words s.
Proof.
  induction s as [|c s IH]; simpl; [reflexivity|].
  destruct (is_ws c) eqn:Hc; [exact IH|].
  simpl. rewrite Hc. reflexivity.
Qed.

Lemma trimEnd_cons_word (c : code_unit) (s : jsstring) :
  is_ws c = false -> trimEnd (c :: s) = c :: trimEnd s.
Proof.
  intro Hc. simpl. rewrite Hc. destruct (trimEnd s); reflexivity.
Qed.

Lemma starts_word_trimEnd (s : jsstring) :
  starts_word (trimEnd s) = starts_word s.
Proof.
  destruct s as [|d s]; [reflexivity|].
  destruct (is_ws d) eqn:Hd.
  - simpl. rewrite Hd. destruct (trimEnd s); simpl; try rewrite Hd; reflexivity.
  - rewrite trimEnd_cons_word by exact Hd. reflexivity.
Qed.

Lemma words_cons_ws (c : code_unit) (s : jsstring) :
  is_ws c = true -> words (c :: s) = words s.
Proof. intro Hc. simpl. rewrite Hc. reflexivity. Qed.

Lemma words_trimEnd (s : jsstring) : words (trimEnd s) = words s.
Proof.
  induction s as [|c s IH]; [reflexivity|].
  destruct (is_ws c) eqn:Hc.
  - rewrite (words_cons_ws c s Hc). simpl. rewrite Hc.
    destruct (trimEnd s) as [|x t] eqn:Ht.
    + exact IH.
    + rewrite (words_cons_ws c (x :: t) Hc). exact IH.
  - rewrite trimEnd_cons_word by exact Hc.
    simpl. rewrite Hc, starts_word_trimEnd, IH. reflexivity.
Qed.

Lemma words_trim (s : jsstring) : words (trim s) = words s.
Proof.
  unfold trim. rewrite words_trimEnd. apply words_trimStart.
Qed.

(** [countWords] counts the words. *)
Lemma countWords_words (s : jsstring) : countWords s = length (words s).
Proof.
  unfold countWords, split_ws.
  rewrite filter_split_from_words, words_trim. reflexivity.
Qed.

Lemma words_nil_trimEnd (s : jsstring) : words s = [] -> trimEnd s = [].
Proof.
  induction s as [|c s IH]; simpl; [reflexivity|].
  destruct (is_ws c) eqn:Hc.
  - intro H. rewrite (IH H). reflexivity.
  - destruct (starts_word s); [|discriminate].
    destruct (words s); discriminate.
Qed.

(** On a string with at least one word, splitting what [trimEnd] leaves gives
    the words, preceded by one empty piece when the string starts with white
    space. *)
Lemma split_trimEnd_words (s : jsstring) :
  words s <> [] ->
  split_from true (trimEnd s) = words s /\
  split_from false (trimEnd s) =
    (if starts_word s then words s else [] :: words s).
Proof.
  induction s as [|c s IH]; [intro H; contradiction H; reflexivity|].
  intro Hne.
  destruct (is_ws c) eqn:Hc.
  - rewrite (words_cons_ws c s Hc) in Hne |- *.
    destruct (IH Hne) as [IHt IHf].
    assert (Ht : trimEnd (c :: s) = c :: trimEnd s).
    { simpl. destruct (trimEnd s) eqn:E; [|reflexivity].
      exfalso. apply Hne. rewrite <- words_trimEnd, E. reflexivity. }
    rewrite Ht. simpl. rewrite Hc. rewrite IHt.
    split; reflexivity.
  - rewrite trimEnd_cons_word by exact Hc.
    assert (Hgoal : forall b, split_from b (c :: trimEnd s) = words (c :: s)).
    { intro b. simpl. rewrite Hc.
      destruct (words s) as [|w ws] eqn:Hws.
      - rewrite (words_nil_trimEnd s Hws). simpl.
        destruct (starts_word s) eqn:Hs; [|reflexivity].
        destruct (starts_word_words s Hs) as (w & ws & E & _). congruence.
      - destruct IH as [_ IHf]; [discriminate|].
        rewrite IHf. destruct (starts_word s); reflexivity. }
    split; [apply Hgoal|].
    rewrite Hgoal. simpl. rewrite Hc. reflexivity.
Qed.

Lemma starts_word_trimStart (s : jsstring) :
  words s <> [] -> starts_word (trimStart s) = true.
Proof.
  induction s as [|c s IH]; simpl; [intro H; contradiction H; reflexivity|].
  destruct (is_ws c) eqn:Hc; [exact IH|].
  intros _. simpl. rewrite Hc. reflexivity.
Qed.

(** On a string with at least one word, [text.trim().split(/\s+/)] is exactly
    the list of its words: no piece is empty. *)
Lemma split_trim_words (s : jsstring) :
  words s <> [] -> split_ws (trim s) = words s.
Proof.
  intro Hne. unfold split_ws, trim.
  assert (Hne' : words (trimStart s) <> []) by (rewrite words_trimStart; exact Hne).
  destruct (split_trimEnd_words _ Hne') as [_ Hf].
  rewrite Hf, (starts_word_trimStart s Hne). apply words_trimStart.
Qed.

End WordFacts.

Section WordShape.

Lemma words_all_ok (s : jsstring) : Forall word_ok (words s).
Proof.
  induction s as [|c s IH]; simpl; [constructor|].
  destruct (is_ws c) eqn:Hc; [exact IH|].
  destruct (starts_word s).
  - destruct (words s) as [|w ws].
    + repeat constructor; [discriminate | exact Hc].
    + inversion IH as [|? ? [Hw1 Hw2] Hrest]; subst.
      constructor; [|exact Hrest].
      split; [discriminate | constructor; assumption].
  - constructor; [|exact IH].
    split; [discriminate | repeat constructor; exact Hc].
Qed.

Lemma trim_nonblank (c : code_unit) (s : jsstring) :
  is_ws c = false -> is_empty (trim (c :: s)) = false.
Proof.
  intro Hc. unfold trim. simpl. rewrite Hc.
  rewrite trimEnd_cons_word by exact Hc. reflexivity.
Qed.

(** A text with at least one word is not blank: [!text.trim()] is false. *)
Lemma countWords_pos_nonblank (s : jsstring) :
  0 < countWords s -> is_empty (trim s) = false.
Proof.
  unfold countWords, split_ws.
  destruct (trim s); simpl; [lia | reflexivity].
Qed.

(** Words joined with spaces are not blank either. *)
Lemma join_words_nonblank (ws : list jsstring) :
  Forall word_ok ws -> ws <> [] -> is_empty (trim (join_sp ws)) = false.
Proof.
  intros Hall Hne. destruct ws as [|w ws]; [contradiction|].
  inversion Hall as [|? ? [Hw1 Hw2] _]; subst.
  destruct w as [|c w]; [contradiction|].
  inversion Hw2; subst.
  destruct ws; simpl; apply trim_nonblank; assumption.
Qed.

(** [extractFirstNWords] in terms of words, on a text that has some. *)
Lemma extractFirstNWords_words (s : jsstring) (n : nat) :
  words s <> [] ->
  extractFirstNWords s n =
  (join_sp (firstn n (words s)), join_sp (skipn n (words s))).
Proof.
  intro Hne. unfold extractFirstNWords.
  rewrite (split_trim_words s Hne). reflexivity.
Qed.

(** [trimEnd] is [trimStart] seen from the other end. *)
Lemma trimStart_app_last (l : jsstring) (c : code_unit) :
  trimStart (l ++ [c]) =
  match trimStart l with
  | [] => if is_ws c then [] else [c]
  | t => t ++ [c]
  end.
Proof.
  induction l as [|a l IH]; simpl.
  - destruct (is_ws c); reflexivity.
  - destruct (is_ws a); [exact IH | reflexivity].
Qed.

Lemma trimEnd_rev (s : jsstring) : trimEnd s = rev (trimStart (rev s)).
Proof.
  induction s as [|c s IH]; simpl; [reflexivity|].
  rewrite trimStart_app_last, IH.
  destruct (trimStart (rev s)) as [|x t]; simpl.
  - destruct (is_ws c); reflexivity.
  - rewrite rev_app_distr. simpl.
    destruct (rev t ++ [x]) eqn:E; [|reflexivity].
    destruct (rev t); discriminate E.
Qed.

(** The words of a text are all of its code units that are not white space,
    in order. *)
Lemma words_cover (s : jsstring) :
  concat (words s) = filter (fun c => negb (is_ws c)) s.
Proof.
  induction s as [|c s IH]; simpl; [reflexivity|].
  destruct (is_ws c); simpl; [exact IH|].
  destruct (starts_word s).
  - destruct (words s) as [|w ws]; simpl in *; rewrite <- IH; reflexivity.
  - simpl. rewrite IH. reflexivity.
Qed.

Lemma words_word_then_space (w t : jsstring) :
  word_ok w -> words (w ++ SP :: t) = w :: words t.
Proof.
  intros [Hne Hall]. induction w as [|c w IH]; [contradiction|].
  inversion Hall as [|? ? Hc Hw]; subst. simpl. rewrite Hc.
  destruct w as [|d w].
  - reflexivity.
  - inversion Hw as [|? ? Hd _]; subst.
    assert (S : starts_word ((d :: w) ++ SP :: t) = true)
      by (simpl; rewrite Hd; reflexivity).
    rewrite S, IH; [reflexivity | discriminate | exact Hw].
Qed.

Lemma words_of_word (w : jsstring) : word_ok w -> words w = [w].
Proof.
  intros [Hne Hall]. induction w as [|c w IH]; [contradiction|].
  inversion Hall as [|? ? Hc Hw]; subst. simpl. rewrite Hc.
  destruct w as [|d w].
  - reflexivity.
  - inversion Hw as [|? ? Hd _]; subst.
    assert (S : starts_word (d :: w) = true) by (simpl; rewrite Hd; reflexivity).
    rewrite S, IH; [reflexivity | discriminate | exact Hw].
Qed.

(** Words joined with single spaces split into the same words again. *)
Lemma words_join_sp (ws : list jsstring) :
  Forall word_ok ws -> words (join_sp ws) = ws.
Proof.
  induction ws as [|w ws IH]; intro Hall; [reflexivity|].
  inversion Hall as [|? ? Hw Hws]; subst.
  destruct ws as [|w2 ws].
  - simpl. apply words_of_word. exact Hw.
  - change (join_sp (w :: w2 :: ws)) with (w ++ SP :: join_sp (w2 :: ws)).
    rewrite (words_word_then_space w _ Hw), (IH Hws). reflexivity.
Qed.

End WordShape.

(** Scenario A of the specification: ten words do not flush. *)
Example countWords_ten :
  countWords (lit "The quick brown fox jumps over the lazy dog and") = 10.
Proof. vm_compute. reflexivity. Qed.

Example countWords_blank :
  countWords (lit "   ") = 0 /\ countWords [] = 0 /\
  countWords [9; 10; 160; 8232]%N = 0.
Proof. vm_compute. repeat split. Qed.

Example extract_words25 :
  extractFirstNWords (SP :: words25 ++ [SP; SP]) 20 = (words20, words5).
Proof. vm_compute. reflexivity. Qed.

Example split_keeps_edges :
  split_ws (lit " a  b ") = [[]; lit "a"; lit "b"; []] /\
  split_ws [] = [[]] /\
  words (lit " a  b ") = [lit "a"; lit "b"].
Proof. vm_compute. repeat split. Qed.

(** ** The flush algorithm of the text buffer *)

Section FlushAlgorithm.

Import TextChunkBuffer.

Lemma processTextBuffer_busy (f : bool) (o : option TtsError) (st : Buf) :
  isProcessing st = true ->
  processTextBuffer f o st =
  ((if f then setPendingFlush true st else st), Returned).
Proof. intro H. unfold processTextBuffer. rewrite H. reflexivity. Qed.

Lemma processTextBuffer_idle_batch (o : option TtsError) (st : Buf) :
  isProcessing st = false ->
  20 <= length (words (textBuffer st)) ->
  processTextBuffer false o st =
  (callTts (join_sp (firstn 20 (words (textBuffer st)))) o
     (setBuffer (join_sp (skipn 20 (words (textBuffer st))))
        (setProcessing true st)),
   Awaiting).
Proof.
  intros Hidle Hlen. unfold processTextBuffer. rewrite Hidle.
  rewrite countWords_words.
  assert (H20 : (20 <=? length (words (textBuffer st))) = true)
    by (apply Nat.leb_le; exact Hlen).
  rewrite H20. cbn [orb andb negb].
  rewrite extractFirstNWords_words.
  - reflexivity.
  - intro E. rewrite E in Hlen. simpl in Hlen. lia.
Qed.

Lemma processTextBuffer_idle_forced (o : option TtsError) (st : Buf) :
  isProcessing st = false ->
  0 < length (words (textBuffer st)) ->
  processTextBuffer true o st =
  (callTts (textBuffer st) o (setBuffer [] (setProcessing true st)), Awaiting).
Proof.
  intros Hidle Hlen. unfold processTextBuffer. rewrite Hidle.
  rewrite countWords_words.
  assert (H0 : (0 <? length (words (textBuffer st))) = true)
    by (apply Nat.ltb_lt; exact Hlen).
  rewrite H0, orb_true_r. reflexivity.
Qed.

Lemma processTextBuffer_idle_skip (f : bool) (o : option TtsError) (st : Buf) :
  isProcessing st = false ->
  length (words (textBuffer st)) < 20 ->
  (f = true -> length (words (textBuffer st)) = 0) ->
  processTextBuffer f o st = (st, Returned).
Proof.
  intros Hidle Hlt Hf. unfold processTextBuffer. rewrite Hidle.
  rewrite countWords_words.
  assert (H20 : (20 <=? length (words (textBuffer st))) = false)
    by (apply Nat.leb_gt; exact Hlt).
  rewrite H20. destruct f; simpl; [|reflexivity].
  rewrite (Hf eq_refl). reflexivity.
Qed.

End FlushAlgorithm.

(** C1, as amended: in every buffer state in which no conversion is in flight,
    a non-forced flush of at least 20 words converts exactly the first 20
    words joined with single spaces and writes the remaining words, joined
    with single spaces, back to the buffer; a forced flush of at least one
    word converts the whole buffer as one batch and leaves the buffer
    empty. *)
Theorem flush_batches_when_idle (st : TextChunkBuffer.Buf) :
  TextChunkBuffer.isProcessing st = false -> flush_batches st.
Proof.
  intro Hidle. split; intro Hlen.
  - rewrite (processTextBuffer_idle_batch None st Hidle Hlen).
    split; [reflexivity|]. split; [|reflexivity].
    exists None. reflexivity.
  - rewrite (processTextBuffer_idle_forced None st Hidle Hlen).
    split; [reflexivity|]. split; [|reflexivity].
    exists None. reflexivity.
Qed.

(** Scenario B at work: 25 words in an idle buffer. *)
Lemma flush_batches_when_idle_witness :
  flush_batches (TextChunkBuffer.appendBuffer words25 TextChunkBuffer.init).
Proof. apply flush_batches_when_idle. reflexivity. Defined.

(** C1 as stated fails while a conversion is in flight: 25 words arrive
    while the first batch is being converted, and the call of
    [processTextBuffer(false)] returns without converting anything. *)
Lemma flush_batches_fails_while_converting :
  ~ flush_batches (TextChunkBuffer.appendBuffer words25 converting).
Proof.
  intros [H _].
  assert (Hlen : 20 <= length (words (TextChunkBuffer.textBuffer
                   (TextChunkBuffer.appendBuffer words25 converting))))
    by (vm_compute; lia).
  destruct (H Hlen) as [Hout _].
  vm_compute in Hout. discriminate Hout.
Qed.

(** Scenarios A, B and C of the specification, run on the model. *)
Example scenario_A :
  let st1 := TextChunkBuffer.on_text_chunk
               (lit "a1 a2 a3 a4 a5 a6 a7 a8 a9 a10 ") TextChunkBuffer.init in
  let st2 := TextChunkBuffer.on_text_chunk
               (lit "b1 b2 b3 b4 b5 b6 b7 b8 b9 b10") st1 in
  TextChunkBuffer.inflight st1 = [] /\
  map TextChunkBuffer.convText (TextChunkBuffer.inflight st2) = [words20] /\
  TextChunkBuffer.textBuffer st2 = [].
Proof. vm_compute. repeat split. Qed.

Example scenario_B :
  let st := TextChunkBuffer.on_text_chunk words25 TextChunkBuffer.init in
  map TextChunkBuffer.convText (TextChunkBuffer.inflight st) = [words20] /\
  TextChunkBuffer.textBuffer st = words5.
Proof. vm_compute. repeat split. Qed.

Example scenario_C :
  let st := TextChunkBuffer.on_text_complete
              (TextChunkBuffer.on_text_chunk words5 TextChunkBuffer.init) in
  map TextChunkBuffer.convText (TextChunkBuffer.inflight st) = [words5] /\
  TextChunkBuffer.textBuffer st = [].
Proof. vm_compute. repeat split. Qed.

Section FlushCases.

Import TextChunkBuffer.

(** The three ways a call of [processTextBuffer] can go. *)
Lemma processTextBuffer_cases (f : bool) (o : option TtsError) (st : Buf) :
  (isProcessing st = true /\
   processTextBuffer f o st =
   ((if f then setPendingFlush true st else st), Returned))
  \/
  (isProcessing st = false /\
   length (words (textBuffer st)) < 20 /\
   (f = true -> length (words (textBuffer st)) = 0) /\
   processTextBuffer f o st = (st, Returned))
  \/
  (isProcessing st = false /\
   exists batch rest,
     processTextBuffer f o st =
     (callTts batch o (setBuffer rest (setProcessing true st)), Awaiting) /\
     is_empty (trim batch) = false /\
     ((f = false /\ 20 <= length (words (textBuffer st)) /\
       batch = join_sp (firstn 20 (words (textBuffer st))) /\
       rest = join_sp (skipn 20 (words (textBuffer st))))
      \/
      (f = true /\ 0 < length (words (textBuffer st)) /\
       batch = textBuffer st /\ rest = []))).
Proof.
  destruct (isProcessing st) eqn:Hp.
  - left. split; [reflexivity|]. apply processTextBuffer_busy. exact Hp.
  - right. destruct f.
    + destruct (Nat.eq_dec (length (words (textBuffer st))) 0) as [E|NE].
      * left. repeat split; try lia; try (intros _; exact E).
        apply processTextBuffer_idle_skip; [exact Hp | lia | intros _; exact E].
      * right. split; [reflexivity|].
        exists (textBuffer st), []. split; [|split].
        -- apply processTextBuffer_idle_forced; [exact Hp | lia].
        -- apply countWords_pos_nonblank. rewrite countWords_words. lia.
        -- right. repeat split. lia.
    + destruct (le_lt_dec 20 (length (words (textBuffer st)))) as [Hge|Hlt].
      * right. split; [reflexivity|].
        eexists; eexists. split; [|split].
        -- apply processTextBuffer_idle_batch; assumption.
        -- apply join_words_nonblank.
           ++ apply Forall_forall. intros w Hw.
              pose proof (words_all_ok (textBuffer st)) as Hall.
              rewrite Forall_forall in Hall. apply Hall.
              rewrite <- (firstn_skipn 20). apply in_or_app. left. exact Hw.
           ++ destruct (words (textBuffer st)); simpl in *; [lia | discriminate].
        -- left. repeat split. exact Hge.
      * left. repeat split; try assumption; try discriminate.
        apply processTextBuffer_idle_skip; [exact Hp | exact Hlt | discriminate].
Qed.

End FlushCases.

(** ** Mutual exclusion *)

Section MutualExclusion.

Import TextChunkBuffer.

Lemma processTextBuffer_keeps_lock_inv (f : bool) (o : option TtsError) (st : Buf) :
  lock_matches_inflight st ->
  lock_matches_inflight (fst (processTextBuffer f o st)).
Proof.
  intro Hinv.
  destruct (processTextBuffer_cases f o st)
    as [[Hp E] | [(Hp & _ & _ & E) | (Hp & b & r & E & _)]]; rewrite E; simpl.
  - destruct f; exact Hinv.
  - exact Hinv.
  - unfold lock_matches_inflight in *. rewrite Hp in Hinv. simpl.
    rewrite Hinv. reflexivity.
Qed.

Lemma finish_keeps_lock_inv (p : option TtsError) (st : Buf) :
  lock_matches_inflight st -> lock_matches_inflight (finish p st).
Proof. destruct p; intro H; exact H. Qed.

Lemma awaitNested_keeps_lock_inv (p : option TtsError) (r : Buf * Outcome) :
  lock_matches_inflight (fst r) -> lock_matches_inflight (awaitNested p r).
Proof.
  destruct r as [st []]; simpl; [apply finish_keeps_lock_inv | trivial].
Qed.

Lemma resume_restores_lock_inv (c : Conversion) (res : TtsError + AudioBuffer)
  (st : Buf) :
  inflight st = [] -> lock_matches_inflight (resume c res st).
Proof.
  intro Hnone. unfold resume.
  set (st1 := match res with inr a => enqueue a (convText c) st | inl _ => st end).
  assert (H1 : inflight st1 = []) by (subst st1; destruct res; exact Hnone).
  assert (H2 : lock_matches_inflight (setProcessing false st1))
    by (unfold lock_matches_inflight; simpl; exact H1).
  destruct (pendingFlush (setProcessing false st1)).
  - apply awaitNested_keeps_lock_inv, processTextBuffer_keeps_lock_inv.
    exact H2.
  - destruct (20 <=? countWords (textBuffer (setProcessing false st1))).
    + apply awaitNested_keeps_lock_inv, processTextBuffer_keeps_lock_inv.
      exact H2.
    + apply finish_keeps_lock_inv. exact H2.
Qed.

Lemma lock_inv_bounds (st : Buf) :
  lock_matches_inflight st -> length (inflight st) <= 1.
Proof.
  unfold lock_matches_inflight. destruct (isProcessing st); intro H.
  - lia.
  - rewrite H. simpl. lia.
Qed.

Lemma step_keeps_lock_inv (e : Event) (st : Buf) :
  lock_matches_inflight st -> lock_matches_inflight (step e st).
Proof.
  intro Hinv. destruct e as [chunk | | i reply]; simpl.
  - apply processTextBuffer_keeps_lock_inv. exact Hinv.
  - apply processTextBuffer_keeps_lock_inv. exact Hinv.
  - unfold on_tts_settled.
    destruct (nth_error (inflight st) i) as [c|] eqn:Hc; [|exact Hinv].
    apply resume_restores_lock_inv. simpl.
    pose proof (lock_inv_bounds st Hinv) as Hle.
    destruct (inflight st) as [|c0 [|c1 l]]; simpl in *.
    + destruct i; discriminate.
    + destruct i as [|i]; [reflexivity | destruct i; discriminate].
    + lia.
Qed.

Lemma run_app (evs1 evs2 : list Event) (st : Buf) :
  run (evs1 ++ evs2) st = run evs2 (run evs1 st).
Proof. apply fold_left_app. Qed.

Lemma run_keeps_lock_inv (evs : list Event) (st : Buf) :
  lock_matches_inflight st -> lock_matches_inflight (run evs st).
Proof.
  revert st. induction evs as [|e evs IH]; intros st Hinv; simpl.
  - exact Hinv.
  - apply IH, step_keeps_lock_inv, Hinv.
Qed.

Lemma reachable_lock_inv (st : Buf) :
  reachable st -> lock_matches_inflight st.
Proof.
  intros [evs ->]. apply run_keeps_lock_inv. reflexivity.
Qed.

(** What one call appends to the record of actions. *)
Lemma processTextBuffer_trace (f : bool) (o : option TtsError) (st : Buf) :
  trace (fst (processTextBuffer f o st)) = trace st
  \/ trace (fst (processTextBuffer f o st)) = trace st ++ [SetPendingFlush true]
  \/ exists r t,
       isProcessing st = false /\ is_empty (trim t) = false /\
       trace (fst (processTextBuffer f o st)) =
       trace st ++ [SetProcessing true; SetBuffer r; CallTts t].
Proof.
  destruct (processTextBuffer_cases f o st)
    as [[Hp E] | [(Hp & _ & _ & E) | (Hp & b & r & E & Hb & _)]]; rewrite E; simpl.
  - destruct f; [right; left | left]; reflexivity.
  - left. reflexivity.
  - right. right. exists r, b. repeat split; try assumption.
    repeat rewrite <- app_assoc. reflexivity.
Qed.

Lemma locks_before_shrinking_block (r t : jsstring) :
  locks_before_shrinking [SetProcessing true; SetBuffer r; CallTts t].
Proof.
  intros pre r' post E.
  destruct pre as [|a [|b [|c pre]]]; simpl in E.
  - discriminate.
  - injection E as -> _. left. reflexivity.
  - injection E as _ _ E. discriminate.
  - injection E as _ _ _ E. destruct pre; discriminate.
Qed.

Lemma locks_before_shrinking_other (acts : list Act) :
  (forall r, ~ In (SetBuffer r) acts) -> locks_before_shrinking acts.
Proof.
  intros H pre r post E. exfalso. apply (H r). rewrite E.
  apply in_or_app. right. left. reflexivity.
Qed.

End MutualExclusion.

(** C2: over every interleaving of text chunks, text-complete signals and
    settling synthesis calls, at most one synthesis call is pending at any
    time (the flag is up exactly while one is); a call of [processTextBuffer]
    starts a conversion only if it found the flag down; and within a call the
    flag is raised before the buffer is written. *)
Theorem one_conversion_at_a_time :
  (forall evs : list TextChunkBuffer.Event,
      let st := TextChunkBuffer.run evs TextChunkBuffer.init in
      length (TextChunkBuffer.inflight st) <= 1 /\ lock_matches_inflight st)
  /\
  (forall (st : TextChunkBuffer.Buf) (f : bool) (o : option TtsError),
      length (TextChunkBuffer.inflight st) <
      length (TextChunkBuffer.inflight
                (fst (TextChunkBuffer.processTextBuffer f o st))) ->
      TextChunkBuffer.isProcessing st = false)
  /\
  (forall (st : TextChunkBuffer.Buf) (f : bool) (o : option TtsError),
      exists acts,
        TextChunkBuffer.trace (fst (TextChunkBuffer.processTextBuffer f o st)) =
        TextChunkBuffer.trace st ++ acts /\
        locks_before_shrinking acts).
Proof.
  split; [|split].
  - intros evs st.
    assert (H : lock_matches_inflight st)
      by (apply run_keeps_lock_inv; reflexivity).
    split; [apply lock_inv_bounds|]; exact H.
  - intros st f o Hgrow.
    destruct (TextChunkBuffer.isProcessing st) eqn:Hp; [|reflexivity].
    rewrite (processTextBuffer_busy f o st Hp) in Hgrow.
    destruct f; simpl in Hgrow; lia.
  - intros st f o.
    destruct (processTextBuffer_trace f o st) as [E | [E | (r & t & _ & _ & E)]].
    + exists []. rewrite app_nil_r. split; [exact E|].
      apply locks_before_shrinking_other. intros r [].
    + exists [TextChunkBuffer.SetPendingFlush true]. split; [exact E|].
      apply locks_before_shrinking_other. intros r [H|[]]. discriminate H.
    + eexists. split; [exact E|]. apply locks_before_shrinking_block.
Qed.

(** The second and third parts of C2 on the 25-word chunk of Scenario B. *)
Lemma one_conversion_at_a_time_witness :
  TextChunkBuffer.isProcessing
    (TextChunkBuffer.appendBuffer words25 TextChunkBuffer.init) = false.
Proof.
  apply (proj1 (proj2 one_conversion_at_a_time) _ false None).
  vm_compute. lia.
Defined.

(** ** Blank text never reaches the synthesizer *)

Section NonBlank.

Import TextChunkBuffer.

Lemma calls_nonblank_extend (st st' : Buf) (acts : list Act) :
  calls_nonblank st ->
  trace st' = trace st ++ acts ->
  (forall t, In (CallTts t) acts -> is_empty (trim t) = false) ->
  calls_nonblank st'.
Proof.
  intros H E Hacts t Hin. rewrite E in Hin.
  apply in_app_or in Hin. destruct Hin as [Hin|Hin]; [apply H | apply Hacts];
    exact Hin.
Qed.

Lemma processTextBuffer_calls_nonblank (f : bool) (o : option TtsError) (st : Buf) :
  calls_nonblank st -> calls_nonblank (fst (processTextBuffer f o st)).
Proof.
  intro H.
  destruct (processTextBuffer_trace f o st) as [E | [E | (r & t & _ & Ht & E)]].
  - intros t Hin. rewrite E in Hin. apply H. exact Hin.
  - eapply calls_nonblank_extend; [exact H | exact E |].
    intros t [Hin|[]]. discriminate Hin.
  - eapply calls_nonblank_extend; [exact H | exact E |].
    intros t' [Hin|[Hin|[Hin|[]]]]; try discriminate Hin.
    injection Hin as <-. exact Ht.
Qed.

Lemma finish_calls_nonblank (p : option TtsError) (st : Buf) :
  calls_nonblank st -> calls_nonblank (finish p st).
Proof. destruct p; intro H; exact H. Qed.

Lemma awaitNested_calls_nonblank (p : option TtsError) (r : Buf * Outcome) :
  calls_nonblank (fst r) -> calls_nonblank (awaitNested p r).
Proof.
  destruct r as [st []]; simpl; [apply finish_calls_nonblank | trivial].
Qed.

Lemma resume_calls_nonblank (c : Conversion) (res : TtsError + AudioBuffer)
  (st : Buf) :
  calls_nonblank st -> calls_nonblank (resume c res st).
Proof.
  intro H. unfold resume.
  set (st1 := match res with inr a => enqueue a (convText c) st | inl _ => st end).
  assert (H1 : calls_nonblank st1).
  { subst st1. destruct res as [e|a]; [exact H|].
    eapply calls_nonblank_extend; [exact H | reflexivity |].
    intros t [Hin|[]]. discriminate Hin. }
  assert (H2 : calls_nonblank (setProcessing false st1)).
  { eapply calls_nonblank_extend; [exact H1 | reflexivity |].
    intros t [Hin|[]]. discriminate Hin. }
  destruct (pendingFlush (setProcessing false st1)).
  - apply awaitNested_calls_nonblank, processTextBuffer_calls_nonblank.
    eapply calls_nonblank_extend; [exact H2 | reflexivity |].
    intros t [Hin|[]]. discriminate Hin.
  - destruct (20 <=? countWords (textBuffer (setProcessing false st1))).
    + apply awaitNested_calls_nonblank, processTextBuffer_calls_nonblank.
      exact H2.
    + apply finish_calls_nonblank. exact H2.
Qed.

Lemma step_calls_nonblank (e : Event) (st : Buf) :
  calls_nonblank st -> calls_nonblank (step e st).
Proof.
  intro H. destruct e as [chunk | | i reply]; simpl.
  - apply processTextBuffer_calls_nonblank.
    eapply calls_nonblank_extend; [exact H | reflexivity |].
    intros t [Hin|[]]. discriminate Hin.
  - apply processTextBuffer_calls_nonblank. exact H.
  - unfold on_tts_settled.
    destruct (nth_error (inflight st) i) as [c|]; [|exact H].
    apply resume_calls_nonblank. exact H.
Qed.

Lemma run_calls_nonblank (evs : list Event) (st : Buf) :
  calls_nonblank st -> calls_nonblank (run evs st).
Proof.
  revert st. induction evs as [|e evs IH]; intros st H; simpl.
  - exact H.
  - apply IH, step_calls_nonblank, H.
Qed.

Lemma textToAudioBuffer_nonblank (t : jsstring) (reply : TtsReply) :
  is_empty (trim t) = false -> textToAudioBuffer t reply <> inl NoTextProvided.
Proof.
  intro H. unfold textToAudioBuffer. rewrite H.
  destruct reply; discriminate.
Qed.

End NonBlank.

(** C9, as amended: when the buffer holds no word, a call of
    [processTextBuffer] made while no conversion is in flight starts no
    synthesis and changes nothing; made while one is in flight it starts no
    synthesis and leaves the buffer and the conversion flag as they are, and a
    forced call records the pending flush. In every run, no text handed to
    the synthesizer is empty or blank (no call of [processTextBuffer], from
    any state, hands over such a text), so the synthesizer never answers
    with its no-text error. *)
Theorem blank_buffer_is_never_converted :
  (forall (st : TextChunkBuffer.Buf) (f : bool) (o : option TtsError),
      countWords (TextChunkBuffer.textBuffer st) = 0 ->
      (TextChunkBuffer.isProcessing st = false ->
       TextChunkBuffer.processTextBuffer f o st = (st, TextChunkBuffer.Returned))
      /\
      (TextChunkBuffer.isProcessing st = true ->
       TextChunkBuffer.processTextBuffer f o st =
       ((if f then TextChunkBuffer.setPendingFlush true st else st),
        TextChunkBuffer.Returned)))
  /\
  (forall (st : TextChunkBuffer.Buf) (f : bool) (o : option TtsError),
      calls_nonblank st ->
      calls_nonblank (fst (TextChunkBuffer.processTextBuffer f o st)))
  /\
  (forall (evs : list TextChunkBuffer.Event) (t : jsstring) (reply : TtsReply),
      In (TextChunkBuffer.CallTts t)
         (TextChunkBuffer.trace (TextChunkBuffer.run evs TextChunkBuffer.init)) ->
      is_empty (trim t) = false /\
      textToAudioBuffer t reply <> inl NoTextProvided).
Proof.
  split; [|split].
  - intros st f o Hblank. rewrite countWords_words in Hblank. split; intro Hp.
    + apply processTextBuffer_idle_skip; [exact Hp | lia | intros _; exact Hblank].
    + apply processTextBuffer_busy. exact Hp.
  - intros st f o. apply processTextBuffer_calls_nonblank.
  - intros evs t reply Hin.
    assert (H : is_empty (trim t) = false).
    { apply (run_calls_nonblank evs TextChunkBuffer.init); [|exact Hin].
      intros t' []. }
    split; [exact H | apply textToAudioBuffer_nonblank; exact H].
Qed.

(** A blank buffer, idle: neither kind of call does anything. *)
Lemma blank_buffer_is_never_converted_witness :
  TextChunkBuffer.processTextBuffer true None
    (TextChunkBuffer.appendBuffer (lit "  ") TextChunkBuffer.init) =
  (TextChunkBuffer.appendBuffer (lit "  ") TextChunkBuffer.init,
   TextChunkBuffer.Returned).
Proof.
  refine (proj1 (proj1 blank_buffer_is_never_converted
                   (TextChunkBuffer.appendBuffer (lit "  ") TextChunkBuffer.init)
                   true None _) _); reflexivity.
Defined.

(** C9 as stated fails while a conversion is in flight: the buffer holds
    nothing but white space, and a forced call changes the pending-flush
    flag. *)
Lemma blank_forced_flush_marks_pending :
  let st := TextChunkBuffer.appendBuffer (lit "  ") converting in
  countWords (TextChunkBuffer.textBuffer st) = 0 /\
  TextChunkBuffer.pendingFlush st = false /\
  TextChunkBuffer.pendingFlush
    (fst (TextChunkBuffer.processTextBuffer true None st)) = true /\
  ~ does_nothing true st.
Proof.
  vm_compute. repeat split.
  intro H. specialize (H None). discriminate H.
Qed.

(** ** The continuation of a conversion *)

Section Resume.

Import TextChunkBuffer.

(** Reads of fields through the setters, without unfolding anything else. *)
Ltac buf_fields :=
  cbn [textBuffer isProcessing pendingFlush inflight enqueued rejected console
       trace callTts setBuffer setProcessing setPendingFlush appendBuffer
       enqueue reject dropInflight] in *.

(** The [finally] block when a forced flush was recorded meanwhile. *)
Lemma resume_flush_pending (c : Conversion) (res : TtsError + AudioBuffer)
  (st : Buf) :
  pendingFlush st = true ->
  let st' := resume c res st in
  pendingFlush st' = false /\
  enqueued st' = enqueued_after c res st /\
  console st' = console st /\
  (0 < length (words (textBuffer st)) ->
   inflight st' =
   inflight st ++ [{| convText := textBuffer st;
                      convOuter := pending_after c res |}] /\
   textBuffer st' = [] /\ isProcessing st' = true /\
   rejected st' = rejected st) /\
  (length (words (textBuffer st)) = 0 ->
   inflight st' = inflight st /\ textBuffer st' = textBuffer st /\
   isProcessing st' = false /\
   rejected st' = rejected_after (pending_after c res) st).
Proof.
  intro Hpf. unfold resume.
  set (st1 := match res with inr a => enqueue a (convText c) st | inl _ => st end).
  assert (Hpf1 : pendingFlush (setProcessing false st1) = true)
    by (subst st1; destruct res; exact Hpf).
  rewrite Hpf1.
  set (st3 := setPendingFlush false (setProcessing false st1)).
  assert (Hb : textBuffer st3 = textBuffer st) by (subst st3 st1; destruct res; reflexivity).
  assert (Hi : inflight st3 = inflight st) by (subst st3 st1; destruct res; reflexivity).
  assert (Hr : rejected st3 = rejected st) by (subst st3 st1; destruct res; reflexivity).
  assert (Hc : console st3 = console st) by (subst st3 st1; destruct res; reflexivity).
  assert (He : enqueued st3 = enqueued_after c res st)
    by (subst st3 st1; destruct res; reflexivity).
  fold (pending_after c res).
  destruct (Nat.eq_dec (length (words (textBuffer st))) 0) as [E|NE].
  - rewrite (processTextBuffer_idle_skip true (pending_after c res) st3);
      [| reflexivity | rewrite Hb; lia | intros _; rewrite Hb; exact E].
    cbn [awaitNested].
    assert (Hfin : forall p, pendingFlush (finish p st3) = false /\
                             enqueued (finish p st3) = enqueued st3 /\
                             console (finish p st3) = console st3 /\
                             inflight (finish p st3) = inflight st3 /\
                             textBuffer (finish p st3) = textBuffer st3 /\
                             isProcessing (finish p st3) = false /\
                             rejected (finish p st3) = rejected_after p st3)
      by (intros [e|]; repeat split).
    destruct (Hfin (pending_after c res)) as (F1 & F2 & F3 & F4 & F5 & F6 & F7).
    repeat split; try congruence; try lia.
    rewrite F7. unfold rejected_after. rewrite Hr. reflexivity.
  - rewrite (processTextBuffer_idle_forced (pending_after c res) st3);
      [| reflexivity | rewrite Hb; lia].
    cbn [awaitNested].
    repeat split; buf_fields; try congruence; try lia; try exact Hpf1.
Qed.

(** The [finally] block when no forced flush was recorded. *)
Lemma resume_no_flush_pending (c : Conversion) (res : TtsError + AudioBuffer)
  (st : Buf) :
  pendingFlush st = false ->
  let st' := resume c res st in
  pendingFlush st' = false /\
  enqueued st' = enqueued_after c res st /\
  console st' = console st /\
  (20 <= length (words (textBuffer st)) ->
   inflight st' =
   inflight st ++ [{| convText := join_sp (firstn 20 (words (textBuffer st)));
                      convOuter := pending_after c res |}] /\
   textBuffer st' = join_sp (skipn 20 (words (textBuffer st))) /\
   isProcessing st' = true /\
   rejected st' = rejected st) /\
  (length (words (textBuffer st)) < 20 ->
   inflight st' = inflight st /\ textBuffer st' = textBuffer st /\
   isProcessing st' = false /\
   rejected st' = rejected_after (pending_after c res) st).
Proof.
  intro Hpf. unfold resume.
  set (st1 := match res with inr a => enqueue a (convText c) st | inl _ => st end).
  assert (Hpf1 : pendingFlush (setProcessing false st1) = false)
    by (subst st1; destruct res; exact Hpf).
  rewrite Hpf1.
  set (st2 := setProcessing false st1).
  assert (Hb : textBuffer st2 = textBuffer st) by (subst st2 st1; destruct res; reflexivity).
  assert (Hi : inflight st2 = inflight st) by (subst st2 st1; destruct res; reflexivity).
  assert (Hr : rejected st2 = rejected st) by (subst st2 st1; destruct res; reflexivity).
  assert (Hc : console st2 = console st) by (subst st2 st1; destruct res; reflexivity).
  assert (He : enqueued st2 = enqueued_after c res st)
    by (subst st2 st1; destruct res; reflexivity).
  fold (pending_after c res).
  rewrite countWords_words, Hb.
  destruct (le_lt_dec 20 (length (words (textBuffer st)))) as [Hge|Hlt].
  - assert (H20 : (20 <=? length (words (textBuffer st))) = true)
      by (apply Nat.leb_le; exact Hge).
    rewrite H20.
    rewrite (processTextBuffer_idle_batch (pending_after c res) st2);
      [| reflexivity | rewrite Hb; exact Hge].
    cbn [awaitNested].
    repeat split; buf_fields; try congruence; try lia; try exact Hpf1.
  - assert (H20 : (20 <=? length (words (textBuffer st))) = false)
      by (apply Nat.leb_gt; exact Hlt).
    rewrite H20.
    assert (Hfin : forall p, pendingFlush (finish p st2) = false /\
                             enqueued (finish p st2) = enqueued st2 /\
                             console (finish p st2) = console st2 /\
                             inflight (finish p st2) = inflight st2 /\
                             textBuffer (finish p st2) = textBuffer st2 /\
                             isProcessing (finish p st2) = false /\
                             rejected (finish p st2) = rejected_after p st2)
      by (intros [e|]; repeat split; subst st2 st1; destruct res; simpl; assumption).
    destruct (Hfin (pending_after c res)) as (F1 & F2 & F3 & F4 & F5 & F6 & F7).
    repeat split; try congruence; try lia.
    rewrite F7. unfold rejected_after. rewrite Hr. reflexivity.
Qed.

End Resume.

(** ** Deferred forced flush *)

Section Deferral.

Import TextChunkBuffer.

(** While a conversion is in flight, chunks only lengthen the buffer and
    text-complete signals only record the pending flush. *)
Lemma inputs_while_converting (evs : list Event) (st : Buf) :
  isProcessing st = true ->
  forallb is_input evs = true ->
  let st' := run evs st in
  isProcessing st' = true /\
  (pendingFlush st = true -> pendingFlush st' = true) /\
  inflight st' = inflight st /\
  textBuffer st' = textBuffer st ++ chunks_of evs /\
  enqueued st' = enqueued st /\
  rejected st' = rejected st.
Proof.
  revert st. induction evs as [|e evs IH]; intros st Hp Hin; simpl.
  - rewrite app_nil_r. repeat split; trivial.
  - simpl in Hin. apply andb_prop in Hin. destruct Hin as [He Hin].
    destruct e as [chunk | | i reply]; [| |discriminate He]; simpl.
    + unfold on_text_chunk.
      rewrite (processTextBuffer_busy false None (appendBuffer chunk st) Hp).
      cbn [fst].
      destruct (IH (appendBuffer chunk st) Hp Hin) as (A & B & C & D & E & F).
      repeat split; try assumption.
      rewrite D. simpl. rewrite <- app_assoc. reflexivity.
    + unfold on_text_complete.
      rewrite (processTextBuffer_busy true None st Hp). cbn [fst].
      destruct (IH (setPendingFlush true st) Hp Hin) as (A & B & C & D & E & F).
      repeat split; try assumption.
      intros _. apply B. reflexivity.
Qed.

End Deferral.

(** C3: a forced flush requested while a conversion is in flight records the
    request and returns at once, changing nothing else; whatever chunks and
    further requests arrive before the conversion settles, the buffer keeps
    all of its text; and when the conversion settles, however it settles, the
    recorded flush is carried out: the flag is taken down and the whole
    buffer is handed to the synthesizer as one batch (a buffer with no word
    in it is left as it is). *)
Theorem deferred_flush_is_honoured
  (st : TextChunkBuffer.Buf) (evs : list TextChunkBuffer.Event)
  (reply : TtsReply) :
  TextChunkBuffer.reachable st ->
  TextChunkBuffer.isProcessing st = true ->
  forallb is_input evs = true ->
  let st1 := TextChunkBuffer.on_text_complete st in
  let st2 := TextChunkBuffer.run evs st1 in
  let st3 := TextChunkBuffer.step (TextChunkBuffer.TtsSettled 0 reply) st2 in
  st1 = TextChunkBuffer.setPendingFlush true st /\
  (TextChunkBuffer.textBuffer st2 =
   TextChunkBuffer.textBuffer st ++ chunks_of evs /\
   TextChunkBuffer.pendingFlush st2 = true /\
   TextChunkBuffer.inflight st2 = TextChunkBuffer.inflight st /\
   length (TextChunkBuffer.inflight st) = 1) /\
  TextChunkBuffer.pendingFlush st3 = false /\
  (0 < countWords (TextChunkBuffer.textBuffer st2) ->
   map TextChunkBuffer.convText (TextChunkBuffer.inflight st3) =
   [TextChunkBuffer.textBuffer st2] /\
   TextChunkBuffer.textBuffer st3 = [] /\
   TextChunkBuffer.isProcessing st3 = true) /\
  (countWords (TextChunkBuffer.textBuffer st2) = 0 ->
   TextChunkBuffer.inflight st3 = [] /\
   TextChunkBuffer.textBuffer st3 = TextChunkBuffer.textBuffer st2 /\
   TextChunkBuffer.isProcessing st3 = false).
Proof.
  intros Hreach Hp Hin st1 st2 st3.
  assert (E1 : st1 = TextChunkBuffer.setPendingFlush true st).
  { subst st1. unfold TextChunkBuffer.on_text_complete.
    rewrite (processTextBuffer_busy true None st Hp). reflexivity. }
  assert (Hone : length (TextChunkBuffer.inflight st) = 1).
  { pose proof (reachable_lock_inv st Hreach) as Hinv.
    unfold lock_matches_inflight in Hinv. rewrite Hp in Hinv. exact Hinv. }
  destruct (inputs_while_converting evs st1) as (A & B & C & D & _ & _);
    [rewrite E1; exact Hp | exact Hin |].
  fold st2 in A, B, C, D.
  assert (Hpf2 : TextChunkBuffer.pendingFlush st2 = true)
    by (apply B; rewrite E1; reflexivity).
  assert (Hin2 : TextChunkBuffer.inflight st2 = TextChunkBuffer.inflight st)
    by (rewrite C, E1; reflexivity).
  assert (Hb2 : TextChunkBuffer.textBuffer st2 =
                TextChunkBuffer.textBuffer st ++ chunks_of evs)
    by (rewrite D, E1; reflexivity).
  split; [exact E1|]. split; [repeat split; assumption|].
  destruct (TextChunkBuffer.inflight st2) as [|c [|c' l]] eqn:Hfl;
    try (rewrite <- Hin2 in Hone; simpl in Hone; discriminate Hone).
  subst st3. simpl. unfold TextChunkBuffer.on_tts_settled. rewrite Hfl. simpl.
  set (res := textToAudioBuffer (TextChunkBuffer.convText c) reply).
  destruct (resume_flush_pending c res (TextChunkBuffer.dropInflight 0 st2))
    as (R1 & _ & _ & R4 & R5); [exact Hpf2|].
  simpl in R4, R5. rewrite Hfl in R4, R5. simpl in R4, R5.
  split; [exact R1|]. rewrite countWords_words. split; intro Hw.
  - destruct (R4 Hw) as (I & T & P & _). rewrite I. repeat split; assumption.
  - destruct (R5 Hw) as (I & T & P & _). repeat split; assumption.
Qed.

(** Scenario E: five words and a second flush request arrive while the first
    batch is being converted; when it settles, the flag is down again. *)
Lemma deferred_flush_is_honoured_witness :
  TextChunkBuffer.pendingFlush
    (TextChunkBuffer.step (TextChunkBuffer.TtsSettled 0 (Decoded 7))
       (TextChunkBuffer.run
          [TextChunkBuffer.TextChunk words5; TextChunkBuffer.TextComplete]
          (TextChunkBuffer.on_text_complete converting))) = false.
Proof.
  refine (proj1 (proj2 (proj2
    (deferred_flush_is_honoured converting
       [TextChunkBuffer.TextChunk words5; TextChunkBuffer.TextComplete]
       (Decoded 7) _ _ _)))).
  - exists [TextChunkBuffer.TextChunk words20]. reflexivity.
  - reflexivity.
  - reflexivity.
Defined.

Example scenario_E :
  let st := TextChunkBuffer.run
              [TextChunkBuffer.TextComplete;
               TextChunkBuffer.TextChunk (SP :: words5);
               TextChunkBuffer.TextComplete;
               TextChunkBuffer.TtsSettled 0 (Decoded 7)] converting in
  map TextChunkBuffer.convText (TextChunkBuffer.inflight st) = [SP :: words5] /\
  TextChunkBuffer.textBuffer st = [] /\
  TextChunkBuffer.enqueued st = [(7, words20)] /\
  TextChunkBuffer.pendingFlush st = false.
Proof. vm_compute. repeat split. Qed.

(** ** Failure of a synthesis call *)

(** C4, as amended: when the synthesis call of a batch fails,
    [processTextBuffer] neither catches nor logs the failure (it has a
    [finally] block and no [catch]): nothing is written to the console,
    nothing is enqueued for the batch, and the exception leaves through the
    promise of the socket handler once the [finally] block is done, or is held
    by the conversion that block starts. The [finally] block takes the
    conversion flag down and carries on with the text that is in the buffer:
    the whole buffer when a forced flush was recorded, else the next 20 words
    when there are that many, else nothing, with the flag left down. The text
    of the failed batch is not put back and not converted again. *)
Theorem synthesis_failure_releases_the_buffer
  (st : TextChunkBuffer.Buf) (i : nat) (c : TextChunkBuffer.Conversion)
  (reply : TtsReply) (e : TtsError) :
  nth_error (TextChunkBuffer.inflight st) i = Some c ->
  textToAudioBuffer (TextChunkBuffer.convText c) reply = inl e ->
  let st' := TextChunkBuffer.step (TextChunkBuffer.TtsSettled i reply) st in
  let others := TextChunkBuffer.inflight (TextChunkBuffer.dropInflight i st) in
  let buffer := TextChunkBuffer.textBuffer st in
  TextChunkBuffer.console st' = TextChunkBuffer.console st /\
  TextChunkBuffer.enqueued st' = TextChunkBuffer.enqueued st /\
  TextChunkBuffer.pendingFlush st' = false /\
  (TextChunkBuffer.pendingFlush st = true -> 0 < countWords buffer ->
   TextChunkBuffer.inflight st' =
   others ++ [{| TextChunkBuffer.convText := buffer;
                 TextChunkBuffer.convOuter := Some e |}] /\
   TextChunkBuffer.textBuffer st' = [] /\
   TextChunkBuffer.isProcessing st' = true /\
   TextChunkBuffer.rejected st' = TextChunkBuffer.rejected st) /\
  (TextChunkBuffer.pendingFlush st = true -> countWords buffer = 0 ->
   TextChunkBuffer.inflight st' = others /\
   TextChunkBuffer.textBuffer st' = buffer /\
   TextChunkBuffer.isProcessing st' = false /\
   TextChunkBuffer.rejected st' = TextChunkBuffer.rejected st ++ [e]) /\
  (TextChunkBuffer.pendingFlush st = false -> 20 <= countWords buffer ->
   TextChunkBuffer.inflight st' =
   others ++ [{| TextChunkBuffer.convText := join_sp (firstn 20 (words buffer));
                 TextChunkBuffer.convOuter := Some e |}] /\
   TextChunkBuffer.textBuffer st' = join_sp (skipn 20 (words buffer)) /\
   TextChunkBuffer.isProcessing st' = true /\
   TextChunkBuffer.rejected st' = TextChunkBuffer.rejected st) /\
  (TextChunkBuffer.pendingFlush st = false -> countWords buffer < 20 ->
   TextChunkBuffer.inflight st' = others /\
   TextChunkBuffer.textBuffer st' = buffer /\
   TextChunkBuffer.isProcessing st' = false /\
   TextChunkBuffer.rejected st' = TextChunkBuffer.rejected st ++ [e]).
Proof.
  intros Hc He st' others buffer.
  subst st'. simpl. unfold TextChunkBuffer.on_tts_settled. rewrite Hc, He.
  subst buffer. rewrite countWords_words.
  destruct (TextChunkBuffer.pendingFlush st) eqn:Hpf.
  - destruct (resume_flush_pending c (inl e) (TextChunkBuffer.dropInflight i st))
      as (R1 & R2 & R3 & R4 & R5); [exact Hpf|].
    split; [exact R3|]. split; [exact R2|]. split; [exact R1|].
    split; [intros _ Hw; exact (R4 Hw)|].
    split; [intros _ Hw; exact (R5 Hw)|].
    split; intro H; discriminate H.
  - destruct (resume_no_flush_pending c (inl e) (TextChunkBuffer.dropInflight i st))
      as (R1 & R2 & R3 & R4 & R5); [exact Hpf|].
    split; [exact R3|]. split; [exact R2|]. split; [exact R1|].
    split; [intro H; discriminate H|].
    split; [intro H; discriminate H|].
    split; [intros _ Hw; exact (R4 Hw) | intros _ Hw; exact (R5 Hw)].
Qed.

(** The service answers 500 to the first batch while five more words wait. *)
Lemma synthesis_failure_releases_the_buffer_witness :
  let st := TextChunkBuffer.on_text_chunk words5 converting in
  let st' := TextChunkBuffer.step
               (TextChunkBuffer.TtsSettled 0 (ResponseNotOk 500)) st in
  TextChunkBuffer.console st' = TextChunkBuffer.console st /\
  TextChunkBuffer.rejected st' = [TtsFailed 500] /\
  TextChunkBuffer.isProcessing st' = false /\
  TextChunkBuffer.textBuffer st' = words5.
Proof.
  intros st st'.
  pose proof (synthesis_failure_releases_the_buffer st 0
                {| TextChunkBuffer.convText := words20;
                   TextChunkBuffer.convOuter := None |}
                (ResponseNotOk 500) (TtsFailed 500) eq_refl eq_refl)
    as (Hcon & _ & _ & _ & _ & _ & Hidle).
  destruct Hidle as (_ & Hb & Hp & Hr); [reflexivity | vm_compute; lia |].
  repeat split; assumption.
Defined.

(** C4 as stated fails: the service answers 500 to the first batch; the
    failure is not caught (the promise of the [text_chunk] handler rejects
    with it) and nothing is logged. *)
Lemma synthesis_failure_escapes :
  let st' := TextChunkBuffer.step
               (TextChunkBuffer.TtsSettled 0 (ResponseNotOk 500)) converting in
  TextChunkBuffer.rejected converting = [] /\
  TextChunkBuffer.rejected st' = [TtsFailed 500] /\
  TextChunkBuffer.console st' = [] /\
  ~ failure_handled_locally converting st'.
Proof.
  vm_compute. repeat split.
  intros [H _]. discriminate H.
Qed.

(** ** The playback queue *)

Example scenario_D :
  let st0 := playingA false in
  let st1 := AudioQueue.step (AudioQueue.Speaking true, []) st0 in
  let st2 := AudioQueue.step (AudioQueue.Speaking false, []) st1 in
  (played st0 = [itemA] /\ AudioQueue.queue st0 = [itemB] /\
   AudioQueue.isPlaying st0 = true /\ AudioQueue.sounding st0 = [0]) /\
  (AudioQueue.isPlaying st1 = false /\ AudioQueue.queue st1 = [itemB] /\
   AudioQueue.sounding st1 = [] /\ AudioQueue.currentSource st1 = None) /\
  (played st2 = [itemA; itemB] /\ AudioQueue.isPlaying st2 = true /\
   AudioQueue.sounding st2 = [1] /\ AudioQueue.queue st2 = []).
Proof. vm_compute. repeat split. Qed.

Section QueueFacts.

Import AudioQueue.

(** Membership in [sounding] after starts and stops, and bounds on nodes. *)
Ltac sounding :=
  repeat match goal with
    | H : In _ (_ ++ _) |- _ => apply in_app_or in H; destruct H as [H|H]
    | H : In _ (List.remove _ _ _) |- _ => apply in_remove in H; destruct H as [H ?]
    | H : In _ [_] |- _ => destruct H as [H|[]]
    | H : In _ [] |- _ => destruct H
    | H : Some _ = Some _ |- _ => injection H as H
    | H : Some _ = None |- _ => discriminate H
    | H : None = Some _ |- _ => discriminate H
    | H : forall s, In s ?l -> _, H1 : In ?x ?l |- _ =>
        pose proof (H _ H1); clear H1
    | H : forall s, ?c = Some s -> _, H1 : ?c = Some ?x |- _ =>
        pose proof (H _ H1); clear H
    | H : forall s, Some ?x = Some s -> _ |- _ =>
        pose proof (H _ eq_refl); clear H
    | H : ?a = Some ?x, H' : ?a = Some ?y |- _ =>
        rewrite H in H'; injection H' as H'
    | H : ?a = Some ?x, H' : ?a = None |- _ =>
        rewrite H in H'; discriminate H'
    end;
  subst; try lia; try discriminate; try congruence; try reflexivity; auto.

Lemma settle_at_rest (fuel : nat) (fl : list Fault) (st : State) :
  wantsToPlay st = false -> wantsToInterrupt st = false ->
  settle fuel fl st = st.
Proof.
  intros Hp Hi. destruct fuel; simpl; [reflexivity|].
  rewrite Hp, Hi. reflexivity.
Qed.

Lemma playNext_refs_ok (f : Fault) (st : State) :
  refs_ok st -> refs_ok (playNext f st).
Proof.
  intro H. pose proof H as (A & B & C & D). unfold playNext.
  destruct (isUserSpeaking st); [exact H|].
  destruct (queue st) as [|item rest] eqn:Q; simpl; [exact H|].
  destruct (isPlaying st) eqn:P; [exact H|].
  rewrite A. simpl. clear H.
  destruct (currentSource st) as [old|] eqn:CS; destruct f; simpl;
    try (destruct (hasPlayedFirstAudio st); destruct (hasCallback st); simpl);
    (split; [|split; [|split]]); simpl; intros; sounding.
Qed.

Lemma interruptEffect_refs_ok (st : State) :
  refs_ok st -> refs_ok (interruptEffect st).
Proof.
  intro H. pose proof H as (A & B & C & D). unfold interruptEffect.
  destruct (wantsToInterrupt st); [|exact H]. clear H.
  destruct (currentSource st) as [s|] eqn:CS; simpl;
    (split; [|split; [|split]]); simpl; intros; sounding.
Qed.

Lemma settle_refs_ok (fuel : nat) (fl : list Fault) (st : State) :
  refs_ok st -> refs_ok (settle fuel fl st).
Proof.
  revert fl st. induction fuel as [|fuel IH]; intros fl st H; simpl.
  - exact H.
  - destruct (wantsToPlay st).
    + apply IH, playNext_refs_ok, H.
    + destruct (wantsToInterrupt st); [|exact H].
      apply IH, interruptEffect_refs_ok, H.
Qed.

Lemma handle_refs_ok (e : Event) (st : State) :
  refs_ok st -> refs_ok (handle e st).
Proof.
  intro H. pose proof H as (A & B & C & D).
  destruct e as [ident a t | b | s | |]; simpl; try exact H.
  - destruct (s <? nextSource st); [|exact H]. clear H.
    (split; [|split; [|split]]); simpl; intros; sounding.
  - unfold clearQueue. clear H.
    destruct (currentSource st) as [s|] eqn:CS; simpl;
      (split; [|split; [|split]]); simpl; intros; sounding.
Qed.

Lemma step_refs_ok (ef : Event * list Fault) (st : State) :
  refs_ok st -> refs_ok (step ef st).
Proof.
  intro H. unfold step, commit. apply settle_refs_ok, handle_refs_ok, H.
Qed.

Lemma run_refs_ok (evs : list (Event * list Fault)) (st : State) :
  refs_ok st -> refs_ok (run evs st).
Proof.
  revert st. induction evs as [|e evs IH]; intros st H; simpl.
  - exact H.
  - apply IH, step_refs_ok, H.
Qed.

Lemma reachable_refs_ok (st : State) : reachable st -> refs_ok st.
Proof.
  intros (cb & evs & ->). apply run_refs_ok.
  (split; [|split; [|split]]); simpl; intros;
    try discriminate; try contradiction; reflexivity.
Qed.

End QueueFacts.

Section Interrupt.

Import AudioQueue.

Ltac sounding :=
  repeat match goal with
    | H : In _ (_ ++ _) |- _ => apply in_app_or in H; destruct H as [H|H]
    | H : In _ (List.remove _ _ _) |- _ => apply in_remove in H; destruct H as [H ?]
    | H : In _ [_] |- _ => destruct H as [H|[]]
    | H : In _ [] |- _ => destruct H
    end;
  subst; try lia; try contradiction; auto.

Lemma playNext_silenced (f : Fault) (s : SourceNode) (st : State) :
  silenced s st -> silenced s (playNext f st).
Proof.
  intro H. pose proof H as [A B]. unfold playNext.
  destruct (isUserSpeaking st); [exact H|].
  destruct (queue st) as [|item rest]; simpl; [exact H|].
  destruct (isPlaying st); [exact H|]. simpl.
  destruct (audioContext st); simpl; [|exact H]. clear H.
  destruct (currentSource st) as [old|]; destruct f; simpl;
    try (destruct (hasPlayedFirstAudio st); destruct (hasCallback st); simpl);
    split; simpl; try lia; intro Hin; sounding.
Qed.

Lemma interruptEffect_silenced (s : SourceNode) (st : State) :
  silenced s st -> silenced s (interruptEffect st).
Proof.
  intro H. pose proof H as [A B]. unfold interruptEffect.
  destruct (wantsToInterrupt st); [|exact H]. clear H.
  destruct (currentSource st) as [old|]; simpl;
    split; simpl; try lia; intro Hin; sounding.
Qed.

Lemma settle_silenced (fuel : nat) (fl : list Fault) (s : SourceNode)
  (st : State) :
  silenced s st -> silenced s (settle fuel fl st).
Proof.
  revert fl st. induction fuel as [|fuel IH]; intros fl st H; simpl.
  - exact H.
  - destruct (wantsToPlay st).
    + apply IH, playNext_silenced, H.
    + destruct (wantsToInterrupt st); [|exact H].
      apply IH, interruptEffect_silenced, H.
Qed.

Lemma handle_silenced (e : Event) (s : SourceNode) (st : State) :
  silenced s st -> silenced s (handle e st).
Proof.
  intro H. pose proof H as [A B].
  destruct e as [ident a t | b | s' | |]; simpl; try exact H.
  - destruct (s' <? nextSource st); [|exact H]. clear H.
    split; simpl; try lia; intro Hin; sounding.
  - unfold clearQueue. clear H.
    destruct (currentSource st) as [old|]; simpl;
      split; simpl; try lia; intro Hin; sounding.
Qed.

(** A node that has been silenced stays silent, whatever happens next. *)
Lemma run_silenced (evs : list (Event * list Fault)) (s : SourceNode)
  (st : State) :
  silenced s st -> silenced s (run evs st).
Proof.
  revert st. induction evs as [|e evs IH]; intros st H; simpl.
  - exact H.
  - apply IH. unfold step, commit. apply settle_silenced, handle_silenced, H.
Qed.

Lemma settle_unfold (fuel : nat) (fl : list Fault) (st : State) :
  settle (S fuel) fl st =
  if wantsToPlay st then settle fuel (tl fl) (playNext (hd NoFault fl) st)
  else if wantsToInterrupt st then settle fuel fl (interruptEffect st)
  else st.
Proof. reflexivity. Qed.

Lemma playNext_shrinks (f : Fault) (st : State) :
  wantsToPlay st = true ->
  S (length (queue (playNext f st))) = length (queue st).
Proof.
  unfold wantsToPlay, playNext. intro W.
  apply andb_prop in W. destruct W as [W U].
  apply andb_prop in W. destruct W as [Q P].
  destruct (isUserSpeaking st); [discriminate U|].
  destruct (isPlaying st); [discriminate P|].
  destruct (queue st) as [|item rest]; [discriminate Q|]. simpl.
  destruct (audioContext st); simpl; [|reflexivity].
  destruct (currentSource st); destruct f; simpl;
    try (destruct (hasPlayedFirstAudio st); destruct (hasCallback st); simpl);
    reflexivity.
Qed.

Lemma interruptEffect_at_rest (st : State) :
  wantsToInterrupt st = true -> at_rest (interruptEffect st).
Proof.
  intro I. unfold interruptEffect. rewrite I.
  unfold wantsToInterrupt in I. apply andb_prop in I. destruct I as [U P].
  unfold at_rest, wantsToPlay, wantsToInterrupt.
  destruct (currentSource st); simpl; rewrite U; split;
    try apply andb_false_r; reflexivity.
Qed.

(** The loop of effects has fuel enough: after a commit neither effect has
    anything left to do. *)
Lemma settle_comes_to_rest (fuel : nat) :
  forall (fl : list Fault) (st : State),
    length (queue st) < fuel -> at_rest (settle fuel fl st).
Proof.
  induction fuel as [|fuel IH]; intros fl st Hlen; [lia|].
  rewrite settle_unfold.
  destruct (wantsToPlay st) eqn:W.
  - apply IH. pose proof (playNext_shrinks (hd NoFault fl) st W). lia.
  - destruct (wantsToInterrupt st) eqn:I.
    + destruct (interruptEffect_at_rest st I) as [W' I'].
      rewrite settle_at_rest; [split | |]; assumption.
    + split; assumption.
Qed.

Lemma commit_comes_to_rest (fl : list Fault) (st : State) :
  at_rest (commit fl st).
Proof. unfold commit. apply settle_comes_to_rest. lia. Qed.

(** The user starts to speak while an item is playing: one run of the
    interrupt effect, and the effects are at rest. *)
Lemma speaking_interrupts (fl : list Fault) (st : State) :
  isPlaying st = true ->
  step (Speaking true, fl) st = interruptEffect (setIsUserSpeaking true st).
Proof.
  intro P. unfold step, commit. cbn [fst snd handle].
  change (2 + ?n) with (S (S n)). rewrite settle_unfold.
  assert (W : wantsToPlay (setIsUserSpeaking true st) = false)
    by (unfold wantsToPlay; simpl; apply andb_false_r).
  assert (I : wantsToInterrupt (setIsUserSpeaking true st) = true)
    by (unfold wantsToInterrupt; simpl; exact P).
  rewrite W, I. apply settle_at_rest.
  - unfold interruptEffect. rewrite I. unfold wantsToPlay.
    destruct (currentSource (setIsUserSpeaking true st)); simpl;
      apply andb_false_r.
  - unfold interruptEffect. rewrite I. unfold wantsToInterrupt.
    destruct (currentSource (setIsUserSpeaking true st)); reflexivity.
Qed.

(** [playNext] on an idle queue with an item in it and nothing in the way. *)
Lemma playNext_plays (st : State) (item : AudioQueueItem)
  (rest : list AudioQueueItem) :
  isUserSpeaking st = false -> isPlaying st = false ->
  audioContext st = true -> currentSource st = None ->
  queue st = item :: rest ->
  let st' := playNext NoFault st in
  queue st' = rest /\ isPlaying st' = true /\
  currentPlayingText st' = text item /\ isUserSpeaking st' = false /\
  audioContext st' = true /\
  currentSource st' = Some (nextSource st) /\
  sounding st' = sounding st ++ [nextSource st] /\
  started st' = started st ++ [(nextSource st, item)] /\
  nextSource st' = S (nextSource st).
Proof.
  intros U P A C Q. unfold playNext. rewrite U, Q, P. simpl.
  rewrite A, C. simpl.
  destruct (hasPlayedFirstAudio st); destruct (hasCallback st); simpl;
    repeat split; assumption.
Qed.

(** An idle queue that may play starts its first item and is at rest. *)
Lemma idle_queue_starts (st : State) (item : AudioQueueItem)
  (rest : list AudioQueueItem) :
  isUserSpeaking st = false -> isPlaying st = false ->
  audioContext st = true -> currentSource st = None ->
  queue st = item :: rest ->
  commit [] st = playNext NoFault st.
Proof.
  intros U P A C Q.
  destruct (playNext_plays st item rest U P A C Q)
    as (Q' & P' & _ & U' & _).
  unfold commit. change (2 + ?n) with (S (S n)). rewrite settle_unfold.
  assert (W : wantsToPlay st = true)
    by (unfold wantsToPlay; rewrite Q, P, U; reflexivity).
  rewrite W. cbn [hd tl]. apply settle_at_rest.
  - unfold wantsToPlay. rewrite P'. apply andb_false_iff. left.
    apply andb_false_r.
  - unfold wantsToInterrupt. rewrite U'. reflexivity.
Qed.

Lemma idle_queue_empty_rests (fl : list Fault) (st : State) :
  isPlaying st = false -> queue st = [] -> commit fl st = st.
Proof.
  intros P Q. unfold commit. apply settle_at_rest.
  - unfold wantsToPlay. rewrite Q. reflexivity.
  - unfold wantsToInterrupt. rewrite P. apply andb_false_r.
Qed.

Lemma speaking_queue_rests (fl : list Fault) (st : State) :
  isPlaying st = false -> isUserSpeaking st = true -> commit fl st = st.
Proof.
  intros P U. unfold commit. apply settle_at_rest.
  - unfold wantsToPlay. rewrite U. apply andb_false_r.
  - unfold wantsToInterrupt. rewrite P. apply andb_false_r.
Qed.

End Interrupt.

Section Drain.

Import AudioQueue.

Lemma playNext_plays_ok (st : State) (item : AudioQueueItem)
  (rest : list AudioQueueItem) :
  isUserSpeaking st = false -> isPlaying st = false ->
  audioContext st = true -> currentSource st = None ->
  queue st = item :: rest ->
  let st' := playNext NoFault st in
  queue st' = rest /\ playing_ok st' /\ played st' = played st ++ [item].
Proof.
  intros U P A C Q.
  destruct (playNext_plays st item rest U P A C Q)
    as (Q' & P' & _ & U' & A' & C' & _ & T' & N').
  split; [exact Q'|]. split.
  - repeat split; try assumption.
    exists (nextSource st). split; [exact C'|]. rewrite N'. lia.
  - unfold played. rewrite T', map_app. reflexivity.
Qed.

(** The item that is playing comes to its end. *)
Lemma ended_advances (st : State) (s : SourceNode) :
  playing_ok st -> currentSource st = Some s ->
  let st' := step (Ended s, []) st in
  match queue st with
  | [] => played st' = played st /\ queue st' = [] /\ isPlaying st' = false
  | item :: rest =>
      queue st' = rest /\ playing_ok st' /\ played st' = played st ++ [item]
  end.
Proof.
  intros (P & U & A & s0 & C0 & B) C. unfold step. cbn [fst snd handle].
  assert (E : (s <? nextSource st) = true).
  { apply Nat.ltb_lt. rewrite C in C0. injection C0 as <-. exact B. }
  rewrite E.
  set (st0 := onended (fallSilent s st)).
  destruct (queue st) as [|item rest] eqn:Q.
  - rewrite idle_queue_empty_rests; [|reflexivity | exact Q].
    repeat split. exact Q.
  - rewrite (idle_queue_starts st0 item rest); try reflexivity; try assumption.
    apply (playNext_plays_ok st0 item rest); try reflexivity; assumption.
Qed.

(** Left alone, a playing queue plays everything that is queued, in order. *)
Lemma play_through_drains (q : list AudioQueueItem) :
  forall st, queue st = q -> playing_ok st ->
             played (play_through (length q) st) = played st ++ q.
Proof.
  induction q as [|item rest IH]; intros st Q Hok; simpl.
  - rewrite app_nil_r. reflexivity.
  - pose proof Hok as (_ & _ & _ & s & C & _). rewrite C.
    pose proof (ended_advances st s Hok C) as H. rewrite Q in H.
    destruct H as (Q' & Hok' & Hpl).
    rewrite (IH _ Q' Hok'), Hpl, <- app_assoc. reflexivity.
Qed.

(** Items enqueued while the user speaks and nothing plays just queue up. *)
Lemma enqueue_while_speaking (more : list AudioQueueItem) :
  forall st, isPlaying st = false -> isUserSpeaking st = true ->
    let st' := run (enqueue_events more) st in
    queue st' = queue st ++ more /\ isPlaying st' = false /\
    isUserSpeaking st' = true /\ audioContext st' = audioContext st /\
    currentSource st' = currentSource st /\ started st' = started st.
Proof.
  induction more as [|it more IH]; intros st P U; simpl.
  - rewrite app_nil_r. repeat split; assumption.
  - assert (Hs : step (Enqueued (id it) (audioBuffer it) (text it), []) st =
                 enqueue (id it) (audioBuffer it) (text it) st).
    { unfold step. cbn [fst snd handle].
      apply speaking_queue_rests; [exact P | exact U]. }
    rewrite Hs.
    destruct (IH (enqueue (id it) (audioBuffer it) (text it) st) P U)
      as (Q & P' & U' & A & C & T).
    repeat split; try assumption.
    rewrite Q. simpl. rewrite <- app_assoc. destruct it. reflexivity.
Qed.

End Drain.

(** C5: when the user starts to speak while an item is playing, the node of
    that item is stopped and dropped, the queue is idle with no playing text,
    and the queued items are untouched; the node never sounds again, whatever
    happens afterwards; items enqueued meanwhile join the tail; and when the
    user stops speaking the head of the queue starts to play at once and,
    left alone, everything queued plays in its original order. *)
Theorem interrupt_keeps_the_queue
  (st : AudioQueue.State) (fl : list AudioQueue.Fault)
  (more : list AudioQueue.AudioQueueItem) :
  AudioQueue.reachable st ->
  AudioQueue.isPlaying st = true ->
  let st1 := AudioQueue.step (AudioQueue.Speaking true, fl) st in
  let st2 := AudioQueue.run (enqueue_events more) st1 in
  let st3 := AudioQueue.step (AudioQueue.Speaking false, []) st2 in
  (AudioQueue.isPlaying st1 = false /\
   AudioQueue.currentPlayingText st1 = [] /\
   AudioQueue.currentSource st1 = None /\
   AudioQueue.queue st1 = AudioQueue.queue st /\
   played st1 = played st) /\
  (exists s, AudioQueue.currentSource st = Some s /\
             forall evs, ~ In s (AudioQueue.sounding (AudioQueue.run evs st1))) /\
  (AudioQueue.queue st2 = AudioQueue.queue st ++ more /\
   AudioQueue.isPlaying st2 = false /\ played st2 = played st) /\
  (forall item rest,
      AudioQueue.queue st ++ more = item :: rest ->
      AudioQueue.isPlaying st3 = true /\
      AudioQueue.currentPlayingText st3 = AudioQueue.text item /\
      AudioQueue.queue st3 = rest /\
      played st3 = played st ++ [item]) /\
  played (play_through (length (AudioQueue.queue st3)) st3) =
  played st ++ AudioQueue.queue st ++ more.
Proof.
  intros Hreach P st1 st2 st3.
  destruct (reachable_refs_ok st Hreach) as (A & B & _ & D).
  destruct (AudioQueue.currentSource st) as [s|] eqn:C;
    [|exfalso; apply (D P); reflexivity].
  assert (E1 : st1 =
               AudioQueue.setCurrentPlayingText []
                 (AudioQueue.setIsPlaying false
                    (AudioQueue.setCurrentSource None
                       (AudioQueue.stopSource s
                          (AudioQueue.setIsUserSpeaking true st))))).
  { subst st1. rewrite (speaking_interrupts fl st P).
    unfold AudioQueue.interruptEffect, AudioQueue.wantsToInterrupt.
    simpl. rewrite P, C. reflexivity. }
  assert (F1 : AudioQueue.isPlaying st1 = false /\
               AudioQueue.isUserSpeaking st1 = true /\
               AudioQueue.audioContext st1 = true /\
               AudioQueue.currentSource st1 = None /\
               AudioQueue.queue st1 = AudioQueue.queue st /\
               AudioQueue.started st1 = AudioQueue.started st /\
               AudioQueue.currentPlayingText st1 = [])
    by (rewrite E1; repeat split; assumption).
  destruct F1 as (P1 & U1 & A1 & C1 & Q1 & T1 & X1).
  destruct (enqueue_while_speaking more st1 P1 U1)
    as (Q2 & P2 & U2 & A2 & C2 & T2).
  fold st2 in Q2, P2, U2, A2, C2, T2.
  rewrite Q1 in Q2. rewrite A1 in A2. rewrite C1 in C2. rewrite T1 in T2.
  split; [|split; [|split; [|split]]].
  - repeat split; try assumption. unfold played. rewrite T1. reflexivity.
  - exists s. split; [reflexivity|]. intro evs.
    apply (run_silenced evs s st1). rewrite E1. split; simpl.
    + apply B. reflexivity.
    + apply remove_In.
  - repeat split; try assumption. unfold played. rewrite T2. reflexivity.
  - intros item rest Hq. rewrite <- Q2 in Hq.
    subst st3. unfold AudioQueue.step. cbn [fst snd AudioQueue.handle].
    rewrite (idle_queue_starts (AudioQueue.setIsUserSpeaking false st2) item rest);
      try reflexivity; try assumption.
    destruct (playNext_plays (AudioQueue.setIsUserSpeaking false st2) item rest)
      as (Q' & P' & X' & _ & _ & _ & _ & T' & _); try reflexivity; try assumption.
    repeat split; try assumption.
    unfold played. rewrite T'. simpl. rewrite map_app, T2. reflexivity.
  - destruct (AudioQueue.queue st ++ more) as [|item rest] eqn:Hq.
    + subst st3. unfold AudioQueue.step. cbn [fst snd AudioQueue.handle].
      rewrite idle_queue_empty_rests; [| exact P2 | exact Q2].
      simpl. rewrite Q2. simpl. unfold played. simpl.
      rewrite T2, app_nil_r. reflexivity.
    + subst st3. unfold AudioQueue.step. cbn [fst snd AudioQueue.handle].
      rewrite (idle_queue_starts (AudioQueue.setIsUserSpeaking false st2) item rest);
        try reflexivity; try assumption.
      destruct (playNext_plays_ok (AudioQueue.setIsUserSpeaking false st2) item rest)
        as (Q' & Hok & Hpl); try reflexivity; try assumption.
      rewrite Q'.
      rewrite (play_through_drains rest _ Q' Hok), Hpl.
      unfold played. simpl. rewrite T2, <- app_assoc. reflexivity.
Qed.

(** Scenario D: B is queued behind A, A is playing, the user speaks. *)
Lemma interrupt_keeps_the_queue_witness :
  let st3 :=
    AudioQueue.step (AudioQueue.Speaking false, [])
      (AudioQueue.run (enqueue_events [])
         (AudioQueue.step (AudioQueue.Speaking true, []) (playingA false))) in
  played (play_through (length (AudioQueue.queue st3)) st3) =
  played (playingA false) ++ AudioQueue.queue (playingA false) ++ [].
Proof.
  refine (proj2 (proj2 (proj2 (proj2
            (interrupt_keeps_the_queue (playingA false) [] [] _ _))))).
  - exists false.
    exists [(AudioQueue.Enqueued (AudioQueue.id itemA)
               (AudioQueue.audioBuffer itemA) (AudioQueue.text itemA), []);
            (AudioQueue.Enqueued (AudioQueue.id itemB)
               (AudioQueue.audioBuffer itemB) (AudioQueue.text itemB), [])].
    reflexivity.
  - vm_compute. reflexivity.
Defined.

(** ** The playing flag and the playback handle *)

Section PlayingFlag.

Import AudioQueue.

Ltac voices :=
  repeat match goal with
    | H : In _ (_ ++ _) |- _ => apply in_app_or in H; destruct H as [H|H]
    | H : In _ [_] |- _ => destruct H as [H|[]]
    | H : In _ [] |- _ => destruct H
    | H : _ \/ False |- _ => destruct H as [H|[]]
    | H : False |- _ => destruct H
    end;
  subst; try lia; try contradiction; try reflexivity; auto.

(** Stopping the held node silences everything when only it can sound. *)
Lemma stop_held_silences (s : SourceNode) (l : list SourceNode) :
  (forall x, In x l -> Some s = Some x) -> List.remove Nat.eq_dec s l = [].
Proof.
  intro H. induction l as [|x l IH]; simpl; [reflexivity|].
  destruct (Nat.eq_dec s x) as [E|NE].
  - apply IH. intros y Hy. apply H. right. exact Hy.
  - exfalso. apply NE. specialize (H x (or_introl eq_refl)).
    injection H as H. exact H.
Qed.

Lemma none_held_silent (l : list SourceNode) :
  (forall x, In x l -> @None SourceNode = Some x) -> l = [].
Proof.
  destruct l as [|x l]; [reflexivity|]. intro H.
  specialize (H x (or_introl eq_refl)). discriminate H.
Qed.

Lemma playNext_one_voice (f : Fault) (st : State) :
  one_voice st -> one_voice (playNext f st).
Proof.
  intro H. pose proof H as [L O]. unfold playNext.
  destruct (isUserSpeaking st); [exact H|].
  destruct (queue st) as [|item rest]; simpl; [exact H|].
  destruct (isPlaying st); [exact H|]. simpl.
  destruct (audioContext st); simpl; [|exact H]. clear H.
  destruct (currentSource st) as [old|] eqn:C.
  - pose proof (stop_held_silences old (sounding st) O) as E.
    destruct f; simpl; rewrite ?E;
      try (destruct (hasPlayedFirstAudio st); destruct (hasCallback st); simpl);
      split; simpl; rewrite ?E; simpl; try lia; intros x Hx; voices.
  - pose proof (none_held_silent (sounding st) O) as E.
    destruct f; simpl; rewrite ?E;
      try (destruct (hasPlayedFirstAudio st); destruct (hasCallback st); simpl);
      split; simpl; rewrite ?E; simpl; try lia; intros x Hx; voices.
Qed.

Lemma interruptEffect_one_voice (st : State) :
  one_voice st -> one_voice (interruptEffect st).
Proof.
  intro H. pose proof H as [L O]. unfold interruptEffect.
  destruct (wantsToInterrupt st); [|exact H].
  destruct (currentSource st) as [old|] eqn:C; simpl.
  - split; simpl; rewrite (stop_held_silences old (sounding st) O);
      simpl; try lia; intros x Hx; voices.
  - exact H.
Qed.

Lemma settle_one_voice (fuel : nat) (fl : list Fault) (st : State) :
  one_voice st -> one_voice (settle fuel fl st).
Proof.
  revert fl st. induction fuel as [|fuel IH]; intros fl st H; simpl.
  - exact H.
  - destruct (wantsToPlay st).
    + apply IH, playNext_one_voice, H.
    + destruct (wantsToInterrupt st); [|exact H].
      apply IH, interruptEffect_one_voice, H.
Qed.

Lemma handle_one_voice (e : Event) (st : State) :
  ended_by_held e st -> one_voice st -> one_voice (handle e st).
Proof.
  intros T H. pose proof H as [L O].
  destruct e as [ident a t | b | s | |]; simpl; try exact H.
  - destruct (s <? nextSource st); [|exact H].
    simpl in T. rewrite T in O.
    unfold fallSilent.
    split; simpl; rewrite (stop_held_silences s (sounding st) O);
      simpl; try lia; intros x Hx'; voices.
  - unfold clearQueue.
    destruct (currentSource st) as [old|] eqn:C; simpl.
    + split; simpl; rewrite (stop_held_silences old (sounding st) O);
        simpl; try lia; intros x Hx; voices.
    + exact H.
Qed.

Lemma run_one_voice (evs : list (Event * list Fault)) (st : State) :
  timely evs st -> one_voice st -> one_voice (run evs st).
Proof.
  revert st. induction evs as [|e evs IH]; intros st T H; simpl.
  - exact H.
  - destruct T as [Te T]. apply IH; [exact T|].
    unfold step, commit. apply settle_one_voice, handle_one_voice; assumption.
Qed.

(** As long as no node reports [ended] after it was dropped, the queue never
    plays two items at once, faults or not. *)
Lemma never_two_at_once (cb : bool) (evs : list (Event * list Fault)) :
  timely evs (mounted cb) -> length (sounding (run evs (mounted cb))) <= 1.
Proof.
  intro T. apply (run_one_voice evs (mounted cb) T).
  split; simpl; [lia | intros s []].
Qed.

Lemma playNext_playing_iff_handle (f : Fault) (st : State) :
  late_fault f = false -> audioContext st = true ->
  playing_iff_handle st -> playing_iff_handle (playNext f st).
Proof.
  intros Hf A H. unfold playNext.
  destruct (isUserSpeaking st); [exact H|].
  destruct (queue st) as [|item rest]; simpl; [exact H|].
  destruct (isPlaying st) eqn:P; [exact H|]. simpl. rewrite A. simpl.
  assert (C : currentSource st = None).
  { destruct (currentSource st) as [s|] eqn:C; [|reflexivity].
    destruct H as [_ H]. rewrite C in H.
    assert (X : isPlaying st = true) by (apply H; discriminate).
    rewrite P in X. discriminate X. }
  rewrite C.
  destruct f; try discriminate Hf; simpl;
    try (destruct (hasPlayedFirstAudio st); destruct (hasCallback st); simpl);
    unfold playing_iff_handle; simpl; rewrite ?C;
    split; intro X; try discriminate; try reflexivity; try contradiction.
Qed.

Lemma playNext_keeps_context (f : Fault) (st : State) :
  audioContext (playNext f st) = audioContext st.
Proof.
  unfold playNext.
  destruct (isUserSpeaking st); [reflexivity|].
  destruct (queue st) as [|item rest]; simpl; [reflexivity|].
  destruct (isPlaying st); [reflexivity|]. simpl.
  destruct (audioContext st) eqn:A; simpl; [|exact A].
  destruct (currentSource st); destruct f; simpl;
    try (destruct (hasPlayedFirstAudio st); destruct (hasCallback st); simpl);
    exact A.
Qed.

Lemma interruptEffect_playing_iff_handle (st : State) :
  playing_iff_handle st -> playing_iff_handle (interruptEffect st).
Proof.
  intro H. unfold interruptEffect.
  destruct (wantsToInterrupt st) eqn:W; [|exact H].
  destruct (currentSource st) as [s|] eqn:C; unfold playing_iff_handle; simpl;
    rewrite ?C; split; intro X; try discriminate; try contradiction.
Qed.

Lemma interruptEffect_keeps_context (st : State) :
  audioContext (interruptEffect st) = audioContext st.
Proof.
  unfold interruptEffect. destruct (wantsToInterrupt st); [|reflexivity].
  destruct (currentSource st); reflexivity.
Qed.

Lemma settle_playing_iff_handle (fuel : nat) (fl : list Fault) (st : State) :
  no_late_fault fl = true -> audioContext st = true ->
  playing_iff_handle st ->
  audioContext (settle fuel fl st) = true /\
  playing_iff_handle (settle fuel fl st).
Proof.
  revert fl st. induction fuel as [|fuel IH]; intros fl st Hfl A H; simpl.
  - split; assumption.
  - destruct (wantsToPlay st).
    + apply IH.
      * destruct fl as [|f fl]; [reflexivity|].
        simpl in Hfl. apply andb_prop in Hfl. apply Hfl.
      * rewrite playNext_keeps_context. exact A.
      * apply playNext_playing_iff_handle; try assumption.
        destruct fl as [|f fl]; [reflexivity|].
        simpl in Hfl. apply andb_prop in Hfl. destruct Hfl as [Hf _].
        simpl. destruct (late_fault f); [discriminate Hf | reflexivity].
    + destruct (wantsToInterrupt st); [|split; assumption].
      apply IH; try assumption.
      * rewrite interruptEffect_keeps_context. exact A.
      * apply interruptEffect_playing_iff_handle. exact H.
Qed.

Lemma handle_playing_iff_handle (e : Event) (st : State) :
  audioContext st = true -> playing_iff_handle st ->
  audioContext (handle e st) = true /\ playing_iff_handle (handle e st).
Proof.
  intros A H.
  destruct e as [ident a t | b | s | |]; simpl; try (split; assumption).
  - destruct (s <? nextSource st); [|split; assumption].
    split; [exact A|]. unfold playing_iff_handle. simpl.
    split; intro X; try discriminate; contradiction.
  - unfold clearQueue. destruct (currentSource st) as [old|] eqn:C; simpl;
      (split; [exact A|]); unfold playing_iff_handle; simpl; rewrite ?C;
      split; intro X; try discriminate; contradiction.
Qed.

(** As long as no call of [playNext] fails after it has assigned the handle,
    the flag is up exactly when a node is held. *)
Lemma playing_iff_handle_without_late_faults
  (cb : bool) (evs : list (Event * list Fault)) :
  forallb (fun ef => no_late_fault (snd ef)) evs = true ->
  playing_iff_handle (run evs (mounted cb)).
Proof.
  assert (G : forall st,
             forallb (fun ef => no_late_fault (snd ef)) evs = true ->
             audioContext st = true -> playing_iff_handle st ->
             playing_iff_handle (run evs st)).
  { induction evs as [|e evs IH]; intros st Hfl A H; simpl.
    - exact H.
    - simpl in Hfl. apply andb_prop in Hfl. destruct Hfl as [He Hfl].
      destruct (handle_playing_iff_handle (fst e) st A H) as [A1 H1].
      destruct (settle_playing_iff_handle
                  (2 + length (queue (handle (fst e) st))) (snd e)
                  (handle (fst e) st) He A1 H1) as [A2 H2].
      apply IH; assumption. }
  intro Hfl. apply G; [exact Hfl | reflexivity |].
  unfold playing_iff_handle. simpl. split; intro X; try discriminate.
  contradiction.
Qed.

End PlayingFlag.

(** What the late report of a dropped node does: A is stopped because the
    user speaks, B starts when the user is done, then A's node reports
    [ended]; its handler takes the flag down and drops the handle of B, and
    the auto-play effect starts C while B is still sounding. *)
Example late_ended_report_doubles_the_voices :
  let st :=
    AudioQueue.run
      [(AudioQueue.Enqueued (AudioQueue.id itemC)
          (AudioQueue.audioBuffer itemC) (AudioQueue.text itemC), []);
       (AudioQueue.Speaking true, []);
       (AudioQueue.Speaking false, []);
       (AudioQueue.Ended 0, [])]
      (playingA false) in
  played st = [itemA; itemB; itemC] /\
  AudioQueue.sounding st = [1; 2] /\
  AudioQueue.currentSource st = Some 2.
Proof. vm_compute. repeat split. Qed.

(** C6 at its failing input: the hook is given a first-audio callback that
    throws, and one item is enqueued. [playNext] starts the node, the
    callback throws, the [catch] block takes the flag down and leaves
    [currentSourceRef] set: the queue is idle while it holds a node, and that
    node is sounding. *)
Theorem playNext_failure_keeps_the_handle :
  let st := AudioQueue.step
              (AudioQueue.Enqueued (AudioQueue.id itemA)
                 (AudioQueue.audioBuffer itemA) (AudioQueue.text itemA),
               [AudioQueue.CallbackThrows])
              (AudioQueue.mounted true) in
  AudioQueue.reachable st /\
  AudioQueue.isPlaying st = false /\
  AudioQueue.currentSource st = Some 0 /\
  AudioQueue.sounding st = [0] /\
  AudioQueue.queue st = [] /\
  ~ playing_iff_handle st.
Proof.
  intro st. split.
  - exists true.
    exists [(AudioQueue.Enqueued (AudioQueue.id itemA)
               (AudioQueue.audioBuffer itemA) (AudioQueue.text itemA),
             [AudioQueue.CallbackThrows])].
    vm_compute. reflexivity.
  - vm_compute. repeat split.
    intros [_ H]. assert (X : false = true) by (apply H; discriminate).
    discriminate X.
Qed.

(** The same with the hook as the page uses it (no callback), when
    [source.start(0)] throws. *)
Example playNext_start_failure_keeps_the_handle :
  let st := AudioQueue.step
              (AudioQueue.Enqueued (AudioQueue.id itemA)
                 (AudioQueue.audioBuffer itemA) (AudioQueue.text itemA),
               [AudioQueue.StartThrows])
              (AudioQueue.mounted false) in
  AudioQueue.isPlaying st = false /\
  AudioQueue.currentSource st = Some 0 /\
  AudioQueue.sounding st = [].
Proof. vm_compute. repeat split. Qed.

(** ** Stopping the transcription *)

Section StopTranscription.

Import SpeechToText.

Lemma tryIgnore_release (r : Resource) (held throws : bool) (st : State) :
  Exc.tryIgnore (release r held throws) st =
  (inr tt, if held && negb throws then noteReleased r st else st).
Proof. destruct held, throws; reflexivity. Qed.

(** [stopTranscription] always returns, whichever release calls fail. *)
Lemma stopTranscription_returns (f : ReleaseFaults) (st : State) :
  stopTranscription f st = (inr tt, after_stop f st).
Proof.
  unfold stopTranscription, after_stop, Exc.bind.
  rewrite tryIgnore_release.
  set (st1 := if mediaRecorderRef st && negb (recorderStopThrows f)
              then noteReleased Recorder st else st).
  rewrite tryIgnore_release.
  set (st2 := if streamRef st && negb (trackStopThrows f)
              then noteReleased Tracks st1 else st1).
  rewrite tryIgnore_release.
  reflexivity.
Qed.

Lemma after_stop_quiet (f : ReleaseFaults) (st : State) :
  isSpeaking (after_stop f st) = false /\
  isTranscribing (after_stop f st) = false.
Proof. split; reflexivity. Qed.

End StopTranscription.

(** C7, as amended: [stopTranscription] never throws, whichever release calls
    fail, and every release call that does not fail goes through; after it
    the user is not speaking, the interim transcript is empty, the session is
    not transcribing, the fast-path flag is down and the three handles are
    dropped. The finalized utterances are left exactly as they were: nothing
    in [stopTranscription] touches them. *)
Theorem stopTranscription_resets_all_but_utterances
  (f : SpeechToText.ReleaseFaults) (st : SpeechToText.State) :
  exists st',
    SpeechToText.stopTranscription f st = (inr tt, st') /\
    SpeechToText.isSpeaking st' = false /\
    SpeechToText.isSpeakingRef st' = false /\
    SpeechToText.currentTranscript st' = [] /\
    SpeechToText.isTranscribing st' = false /\
    SpeechToText.speechFinalReceivedRef st' = false /\
    (SpeechToText.mediaRecorderRef st' = false /\
     SpeechToText.streamRef st' = false /\
     SpeechToText.socketRef st' = false) /\
    SpeechToText.released st' = SpeechToText.released st ++ releases f st /\
    SpeechToText.finalizedTranscripts st' = SpeechToText.finalizedTranscripts st.
Proof.
  exists (after_stop f st).
  split; [apply stopTranscription_returns|].
  unfold after_stop, releases.
  destruct f as [f1 f2 f3].
  destruct st as [ct ft it sp spr mr sr so sfr rel].
  cbn [SpeechToText.recorderStopThrows SpeechToText.trackStopThrows
       SpeechToText.socketCloseThrows SpeechToText.mediaRecorderRef
       SpeechToText.streamRef SpeechToText.socketRef].
  destruct mr, f1, sr, f2, so, f3; simpl;
    rewrite <- ?app_assoc, ?app_nil_r; repeat split.
Qed.

(** C7 as stated fails: the session is stopped while the user is in
    mid-answer, and the finalized segment is still there afterwards. *)
Lemma stopTranscription_keeps_utterances :
  let st' := snd (SpeechToText.stopTranscription none_fails mid_answer) in
  SpeechToText.finalizedTranscripts st' = [lit "I would use a queue"] /\
  ~ reset_to_initial st'.
Proof.
  vm_compute. split; [reflexivity|].
  intros (_ & H & _). discriminate H.
Qed.

Example stopTranscription_with_all_releases_failing :
  fst (SpeechToText.stopTranscription all_fail mid_answer) = inr tt /\
  SpeechToText.released
    (snd (SpeechToText.stopTranscription all_fail mid_answer)) = [].
Proof. vm_compute. split; reflexivity. Qed.

(** ** The end of the interview *)




(** ** Duplicate suppression across a stop and a restart *)

Section CallControls.

Import InterviewPage.

Lemma toggle_when_idle (ok : SpeechToText.StartOutcome) (f : SpeechToText.ReleaseFaults)
  (s : SpeechToText.State) :
  SpeechToText.isTranscribing s = false ->
  SpeechToText.toggleTranscription ok f s =
  SpeechToText.startTranscription ok s.
Proof. intro T. unfold SpeechToText.toggleTranscription. rewrite T. reflexivity. Qed.

Lemma toggle_when_active (ok : SpeechToText.StartOutcome) (f : SpeechToText.ReleaseFaults)
  (s : SpeechToText.State) :
  SpeechToText.isTranscribing s = true ->
  SpeechToText.toggleTranscription ok f s =
  SpeechToText.stopTranscription f s.
Proof. intro T. unfold SpeechToText.toggleTranscription. rewrite T. reflexivity. Qed.

Lemma stopCall_effect (ok : SpeechToText.StartOutcome) (f : SpeechToText.ReleaseFaults) (p : Page) :
  exists p',
    stopCall ok f p = (inr tt, p') /\
    lastTranscriptRef p' = lastTranscriptRef p /\
    socketConnected p' = socketConnected p /\
    emitted p' = emitted p /\
    TextChunkBuffer.textBuffer (buf p') = [] /\
    TextChunkBuffer.isProcessing (buf p') = false /\
    TextChunkBuffer.pendingFlush (buf p') = false.
Proof.
  unfold stopCall.
  destruct (SpeechToText.isTranscribing (stt p)) eqn:T.
  - unfold Exc.bind at 1. unfold onStt.
    rewrite (toggle_when_active ok f (stt p) T).
    rewrite (stopTranscription_returns f (stt p)).
    eexists. split; [reflexivity|]. repeat split.
  - eexists. split; [reflexivity|]. repeat split.
Qed.

Lemma startCall_effect (ok : SpeechToText.StartOutcome) (f : SpeechToText.ReleaseFaults) (p : Page) :
  let r := startCall ok f p in
  lastTranscriptRef (snd r) = lastTranscriptRef p /\
  socketConnected (snd r) = socketConnected p /\
  (emitted (snd r) = emitted p \/
   emitted (snd r) = emitted p ++ [StartInterview]) /\
  (TextChunkBuffer.textBuffer (buf p) = [] ->
   TextChunkBuffer.isProcessing (buf p) = false ->
   TextChunkBuffer.pendingFlush (buf p) = false ->
   TextChunkBuffer.textBuffer (buf (snd r)) = [] /\
   TextChunkBuffer.isProcessing (buf (snd r)) = false /\
   TextChunkBuffer.pendingFlush (buf (snd r)) = false) /\
  (fst r = inr tt ->
   TextChunkBuffer.textBuffer (buf (snd r)) = [] /\
   TextChunkBuffer.isProcessing (buf (snd r)) = false /\
   TextChunkBuffer.pendingFlush (buf (snd r)) = false).
Proof.
  intro r. assert (R : r = startCall ok f p) by reflexivity. clearbody r.
  unfold startCall in R.
  destruct (SpeechToText.isTranscribing (stt p)) eqn:T; cbn [negb] in R.
  - unfold Exc.bind, Exc.ret, Exc.modify in R. cbn in R.
    destruct (socketConnected p) eqn:C; subst r; cbn; rewrite ?C;
      repeat split; auto.
  - unfold Exc.bind at 1 in R. unfold onStt in R.
    rewrite (toggle_when_idle ok f (stt p) T) in R.
    destruct ok;
      try (cbn in R; subst r; cbn; repeat split; auto; congruence).
    unfold Exc.bind, Exc.ret, Exc.modify in R. cbn in R.
    destruct (socketConnected p) eqn:C; subst r; cbn; rewrite ?C;
      repeat split; auto.
Qed.

(** The effect on an answer that repeats the last one sent. *)
Lemma transcriptSendEffect_suppresses (q : Page) :
  SpeechToText.isSpeaking (stt q) = false ->
  SpeechToText.finalizedTranscripts (stt q) <> [] ->
  socketConnected q = true ->
  join_sp (SpeechToText.finalizedTranscripts (stt q)) = lastTranscriptRef q ->
  let q' := transcriptSendEffect q in
  emitted q' = emitted q /\
  SpeechToText.finalizedTranscripts (stt q') = [] /\
  lastTranscriptRef q' = lastTranscriptRef q /\
  buf q' = buf q.
Proof.
  intros S F C J. unfold transcriptSendEffect. rewrite S, C.
  destruct (SpeechToText.finalizedTranscripts (stt q)) as [|u us] eqn:E;
    [contradiction|].
  cbn [negb length Nat.ltb Nat.leb andb].
  rewrite J.
  assert (X : same_text (lastTranscriptRef q)
                (lastTranscriptRef
                   (withStt (SpeechToText.setFinalizedTranscripts []) q)) = true).
  { unfold same_text. cbn.
    destruct (list_eq_dec N.eq_dec (lastTranscriptRef q) (lastTranscriptRef q));
      [reflexivity | contradiction]. }
  rewrite X. cbn [negb]. rewrite andb_false_r.
  repeat split.
Qed.

Lemma responses_app (l l' : list ClientEvent) :
  responses (l ++ l') = responses l ++ responses l'.
Proof.
  induction l as [|e l IH]; [reflexivity|].
  destruct e; simpl; rewrite IH; reflexivity.
Qed.

Lemma transcriptSendEffect_nothing_final (q : InterviewPage.Page) :
  SpeechToText.finalizedTranscripts (InterviewPage.stt q) = [] ->
  InterviewPage.transcriptSendEffect q = q.
Proof.
  intro F. unfold InterviewPage.transcriptSendEffect. rewrite F.
  cbn [length Nat.ltb Nat.leb]. rewrite andb_false_r. reflexivity.
Qed.

Lemma after_stop_keeps_finalized (f : SpeechToText.ReleaseFaults)
  (st : SpeechToText.State) :
  SpeechToText.finalizedTranscripts (after_stop f st) =
  SpeechToText.finalizedTranscripts st.
Proof.
  unfold after_stop.
  destruct (SpeechToText.mediaRecorderRef st && negb (SpeechToText.recorderStopThrows f)),
    (SpeechToText.streamRef st && negb (SpeechToText.trackStopThrows f)),
    (SpeechToText.socketRef st && negb (SpeechToText.socketCloseThrows f));
    reflexivity.
Qed.

Lemma stopCall_keeps_finalized (ok : SpeechToText.StartOutcome)
  (f : SpeechToText.ReleaseFaults) (p : Page) :
  SpeechToText.finalizedTranscripts (stt (snd (stopCall ok f p))) =
  SpeechToText.finalizedTranscripts (stt p).
Proof.
  unfold stopCall.
  destruct (SpeechToText.isTranscribing (stt p)) eqn:T; [|reflexivity].
  unfold Exc.bind at 1. unfold onStt.
  rewrite (toggle_when_active ok f (stt p) T).
  rewrite (stopTranscription_returns f (stt p)).
  cbn. apply after_stop_keeps_finalized.
Qed.

Lemma startCall_keeps_finalized (ok : SpeechToText.StartOutcome)
  (f : SpeechToText.ReleaseFaults) (p : Page) :
  SpeechToText.finalizedTranscripts (stt (snd (startCall ok f p))) =
  SpeechToText.finalizedTranscripts (stt p).
Proof.
  unfold startCall.
  destruct (SpeechToText.isTranscribing (stt p)) eqn:T; cbn [negb].
  - unfold Exc.bind, Exc.ret, Exc.modify. cbn.
    destruct (socketConnected p); reflexivity.
  - unfold Exc.bind at 1. unfold onStt.
    rewrite (toggle_when_idle ok f (stt p) T).
    destruct ok; try reflexivity.
    unfold Exc.bind, Exc.ret, Exc.modify. cbn.
    destruct (socketConnected p); reflexivity.
Qed.

(** The effect keeps [lastTranscriptRef] equal to the answer sent last, and
    leaves the channel as it is. *)
Lemma transcriptSendEffect_tracks (p : Page) :
  lastTranscriptRef p = last_transmitted p ->
  lastTranscriptRef (transcriptSendEffect p) =
  last_transmitted (transcriptSendEffect p) /\
  socketConnected (transcriptSendEffect p) = socketConnected p.
Proof.
  intro H. unfold transcriptSendEffect.
  destruct (negb (SpeechToText.isSpeaking (stt p))
            && (0 <? length (SpeechToText.finalizedTranscripts (stt p)))
            && socketConnected p); [|split; [exact H | reflexivity]].
  cbv zeta.
  match goal with
  | |- context [if ?c then _ else _] => destruct c
  end.
  - split; [|reflexivity]. unfold last_transmitted.
    cbn [lastTranscriptRef emitted setLastTranscript emit withAq withBuf
         withStt].
    rewrite responses_app. cbn [responses app]. rewrite last_last.
    reflexivity.
  - split; [exact H | reflexivity].
Qed.

(** What the session does on a message is the effect on the page whose
    transcription state is the one the message leaves. *)
Lemma heard_is_effect_on_said (m : SpeechToText.Message) (q : Page) :
  Session.step (Session.Heard m) q =
  transcriptSendEffect
    (withStt (fun _ => SpeechToText.onmessage m (stt q)) q).
Proof. reflexivity. Qed.

(** The page after a stop and a restart, the effect running after each. *)
Lemma restarted_tracks (ok1 ok2 : SpeechToText.StartOutcome)
  (f1 f2 : SpeechToText.ReleaseFaults) (p : Page) :
  lastTranscriptRef p = last_transmitted p ->
  lastTranscriptRef (restarted ok1 f1 ok2 f2 p) =
  last_transmitted (restarted ok1 f1 ok2 f2 p) /\
  socketConnected (restarted ok1 f1 ok2 f2 p) = socketConnected p /\
  (SpeechToText.finalizedTranscripts (stt p) = [] ->
   last_transmitted (restarted ok1 f1 ok2 f2 p) = last_transmitted p /\
   lastTranscriptRef (restarted ok1 f1 ok2 f2 p) = lastTranscriptRef p).
Proof.
  intro H.
  change (restarted ok1 f1 ok2 f2 p)
    with (transcriptSendEffect
            (snd (startCall ok2 f2
                    (transcriptSendEffect (snd (stopCall ok1 f1 p)))))).
  destruct (stopCall_effect ok1 f1 p) as (p1 & E1 & L1 & C1 & M1 & _).
  rewrite E1. cbn [snd].
  assert (F1 : SpeechToText.finalizedTranscripts (stt p1) =
               SpeechToText.finalizedTranscripts (stt p)).
  { rewrite <- (stopCall_keeps_finalized ok1 f1 p), E1. reflexivity. }
  assert (T1 : lastTranscriptRef p1 = last_transmitted p1).
  { unfold last_transmitted. rewrite L1, M1. exact H. }
  destruct (transcriptSendEffect_tracks p1 T1) as [T1' C1'].
  set (q1 := transcriptSendEffect p1) in *.
  destruct (startCall_effect ok2 f2 q1) as (L2 & C2 & M2 & _).
  set (p2 := snd (startCall ok2 f2 q1)) in *.
  assert (R2 : responses (emitted p2) = responses (emitted q1)).
  { destruct M2 as [M2|M2]; rewrite M2; [reflexivity|].
    rewrite responses_app. cbn [responses]. apply app_nil_r. }
  assert (T2 : lastTranscriptRef p2 = last_transmitted p2).
  { unfold last_transmitted. rewrite L2, R2. exact T1'. }
  destruct (transcriptSendEffect_tracks p2 T2) as [T2' C2'].
  split; [exact T2'|].
  split; [congruence|].
  intro F.
  assert (Q1 : q1 = p1).
  { subst q1. apply transcriptSendEffect_nothing_final. congruence. }
  assert (Q2 : transcriptSendEffect p2 = p2).
  { apply transcriptSendEffect_nothing_final. subst p2.
    rewrite startCall_keeps_finalized, Q1. congruence. }
  rewrite Q2. unfold last_transmitted. rewrite R2, L2, Q1, L1, M1.
  split; reflexivity.
Qed.

End CallControls.

(** C10, as amended: [stopCall] and [startCall] leave the last transmitted
    transcript (and the socket) as they are; of the page's refs they reset
    the text buffer, the conversion flag and the pending-flush flag. So
    when, after a stop and a restart, the user's finalized utterances combine
    to the very text that was transmitted last, the effect sends nothing, and
    clears the finalized utterances all the same. The text transmitted last
    is the one sent before the stop when no finalized utterance was pending
    at the stop; otherwise the stop, which takes the speaking signal down,
    may have sent the pending answer, and that one is the last. *)
Theorem repeated_answer_is_suppressed_after_restart
  (p : InterviewPage.Page) (ok1 ok2 : SpeechToText.StartOutcome)
  (f1 f2 : SpeechToText.ReleaseFaults) (said : SpeechToText.State) :
  InterviewPage.lastTranscriptRef p = last_transmitted p ->
  InterviewPage.socketConnected p = true ->
  SpeechToText.isSpeaking said = false ->
  SpeechToText.finalizedTranscripts said <> [] ->
  join_sp (SpeechToText.finalizedTranscripts said) =
  last_transmitted (restarted ok1 f1 ok2 f2 p) ->
  let p1 := snd (InterviewPage.stopCall ok1 f1 p) in
  let p2 := snd (InterviewPage.startCall ok2 f2 p) in
  let q := restarted ok1 f1 ok2 f2 p in
  let r := InterviewPage.transcriptSendEffect
             (InterviewPage.withStt (fun _ => said) q) in
  (InterviewPage.lastTranscriptRef p1 = InterviewPage.lastTranscriptRef p /\
   InterviewPage.socketConnected p1 = InterviewPage.socketConnected p /\
   TextChunkBuffer.textBuffer (InterviewPage.buf p1) = [] /\
   TextChunkBuffer.isProcessing (InterviewPage.buf p1) = false /\
   TextChunkBuffer.pendingFlush (InterviewPage.buf p1) = false) /\
  (InterviewPage.lastTranscriptRef p2 = InterviewPage.lastTranscriptRef p /\
   InterviewPage.socketConnected p2 = InterviewPage.socketConnected p /\
   (fst (InterviewPage.startCall ok2 f2 p) = inr tt ->
    TextChunkBuffer.textBuffer (InterviewPage.buf p2) = [] /\
    TextChunkBuffer.isProcessing (InterviewPage.buf p2) = false /\
    TextChunkBuffer.pendingFlush (InterviewPage.buf p2) = false)) /\
  (InterviewPage.lastTranscriptRef q = last_transmitted q /\
   (SpeechToText.finalizedTranscripts (InterviewPage.stt p) = [] ->
    last_transmitted q = last_transmitted p)) /\
  InterviewPage.emitted r = InterviewPage.emitted q /\
  SpeechToText.finalizedTranscripts (InterviewPage.stt r) = [] /\
  InterviewPage.lastTranscriptRef r = InterviewPage.lastTranscriptRef q.
Proof.
  intros H C S F J p1 p2 q r.
  destruct (stopCall_effect ok1 f1 p) as (q1 & E1 & L1 & C1 & _ & B1 & I1 & P1).
  assert (Hp1 : p1 = q1) by (subst p1; rewrite E1; reflexivity).
  rewrite <- Hp1 in L1, C1, B1, I1, P1.
  destruct (startCall_effect ok2 f2 p) as (L2 & C2 & _ & _ & B2).
  fold p2 in L2, C2, B2.
  destruct (restarted_tracks ok1 ok2 f1 f2 p H) as (Tq & Cq & Nq).
  fold q in Tq, Cq, Nq.
  split; [repeat split; assumption|].
  split; [split; [exact L2 | split; [exact C2 | exact B2]]|].
  split; [split; [exact Tq | intro N; apply (Nq N)]|].
  destruct (transcriptSendEffect_suppresses
              (InterviewPage.withStt (fun _ => said) q))
    as (E4 & F4 & L4 & _).
  - exact S.
  - exact F.
  - change (InterviewPage.socketConnected q = true). rewrite Cq. exact C.
  - change (join_sp (SpeechToText.finalizedTranscripts said) =
            InterviewPage.lastTranscriptRef q).
    rewrite Tq. exact J.
  - fold r in E4, F4, L4. repeat split; assumption.
Qed.

(** The candidate answers, is asked to stop, restarts, and gives the same
    answer again: nothing more is sent. *)
Lemma repeated_answer_is_suppressed_after_restart_witness :
  let q := restarted SpeechToText.Started none_fails
             SpeechToText.Started none_fails answered in
  let said := SpeechToText.onmessage
                (SpeechToText.Results answerX true true)
                (InterviewPage.stt q) in
  InterviewPage.emitted
    (InterviewPage.transcriptSendEffect
       (InterviewPage.withStt (fun _ => said) q)) =
  InterviewPage.emitted q.
Proof.
  intros q said.
  refine (match repeated_answer_is_suppressed_after_restart answered
                  SpeechToText.Started SpeechToText.Started
                  none_fails none_fails said _ _ _ _ _ with
          | conj _ (conj _ (conj _ (conj E _))) => E
          end).
  - vm_compute. reflexivity.
  - vm_compute. reflexivity.
  - vm_compute. reflexivity.
  - vm_compute. discriminate.
  - vm_compute. reflexivity.
Defined.

(** C10 as stated fails when a final segment is still unsent at the stop.
    [answerX] was transmitted last before the stop; the stop takes the
    speaking signal down, the effect sends the pending [answerY] and
    remembers it, and after the restart [answerX] is sent once more. *)
Lemma pending_answer_at_stop_unblocks_the_repeat :
  let r := Session.run
             [Session.StopCall SpeechToText.Started none_fails;
              Session.StartCall SpeechToText.Started none_fails;
              Session.Heard (SpeechToText.Results answerX true true)]
             answering_again in
  last_transmitted answering_again = answerX /\
  InterviewPage.lastTranscriptRef answering_again = answerX /\
  InterviewPage.socketConnected answering_again = true /\
  responses (InterviewPage.emitted r) = [answerX; answerY; answerX].
Proof. vm_compute. repeat split. Qed.

(* ================================================================== *)
(** * Part III: further properties of the same code *)
(* ================================================================== *)

(** ** Word counting and batch extraction *)

Section Extraction.

Lemma words_nil_trim (s : jsstring) : words s = [] -> trim s = [].
Proof.
  intro H. unfold trim. apply words_nil_trimEnd.
  rewrite words_trimStart. exact H.
Qed.

Lemma firstn_all_ok (n : nat) (ws : list jsstring) :
  Forall word_ok ws -> Forall word_ok (firstn n ws).
Proof.
  intro H. apply Forall_forall. intros w Hw.
  rewrite Forall_forall in H. apply H.
  rewrite <- (firstn_skipn n ws). apply in_or_app. left. exact Hw.
Qed.

Lemma skipn_all_ok (n : nat) (ws : list jsstring) :
  Forall word_ok ws -> Forall word_ok (skipn n ws).
Proof.
  intro H. apply Forall_forall. intros w Hw.
  rewrite Forall_forall in H. apply H.
  rewrite <- (firstn_skipn n ws). apply in_or_app. right. exact Hw.
Qed.

Lemma join_sp_snoc_app (l : list jsstring) (u w : jsstring) :
  join_sp (l ++ [u]) ++ w = join_sp (l ++ [u ++ w]).
Proof.
  induction l as [|a l IH]; [reflexivity|].
  destruct l as [|b l].
  - simpl. rewrite <- app_assoc. reflexivity.
  - change (join_sp ((a :: b :: l) ++ [u]))
      with (a ++ SP :: join_sp ((b :: l) ++ [u])).
    change (join_sp ((a :: b :: l) ++ [u ++ w]))
      with (a ++ SP :: join_sp ((b :: l) ++ [u ++ w])).
    rewrite <- IH, <- app_assoc. reflexivity.
Qed.

Lemma word_ok_app (u w : jsstring) : word_ok u -> word_ok w -> word_ok (u ++ w).
Proof.
  intros [Hu1 Hu2] [Hw1 Hw2]. split.
  - destruct u; [contradiction | discriminate].
  - apply Forall_app. split; assumption.
Qed.

Lemma words_cons_word (c : code_unit) (s : jsstring) :
  is_ws c = false ->
  words (c :: s) =
  if starts_word s then
    match words s with
    | w :: ws => (c :: w) :: ws
    | [] => [[c]]
    end
  else [c] :: words s.
Proof. intro Hc. simpl. rewrite Hc. reflexivity. Qed.

(** A word after a space is a word of its own. *)
Lemma words_space_then_word (s w : jsstring) :
  word_ok w -> words (s ++ SP :: w) = words s ++ [w].
Proof.
  intro Hw. induction s as [|c s IH].
  - change ([] ++ SP :: w) with (SP :: w).
    rewrite (words_cons_ws SP w eq_refl). apply words_of_word. exact Hw.
  - change ((c :: s) ++ SP :: w) with (c :: (s ++ SP :: w)).
    destruct (is_ws c) eqn:Hc.
    + rewrite !(words_cons_ws c _ Hc). exact IH.
    + rewrite !(words_cons_word c _ Hc), IH.
      assert (S : starts_word (s ++ SP :: w) = starts_word s)
        by (destruct s; reflexivity).
      rewrite S.
      destruct (starts_word s) eqn:Hs; [|reflexivity].
      destruct (starts_word_words s Hs) as (x & xs & Ex & _).
      rewrite Ex. reflexivity.
Qed.

End Extraction.

(** X1. [countWords] returns the number of words of the text: of its maximal
    runs of code units that are not white space. *)
Theorem countWords_counts_words (s : jsstring) :
  countWords s = length (words s) /\
  Forall word_ok (words s) /\
  concat (words s) = nonws s.
Proof.
  split; [apply countWords_words|].
  split; [apply words_all_ok | apply words_cover].
Qed.

(** X2. [extractFirstNWords] loses no word and invents none, whatever the
    text and the count: the words of the batch followed by the words of the
    remainder are the words of the text, the batch holding the first [n] of
    them (all of them when there are fewer). On a blank text both parts are
    the empty string. *)
Theorem extractFirstNWords_keeps_every_word (s : jsstring) (n : nat) :
  let r := extractFirstNWords s n in
  words (fst r) = firstn n (words s) /\
  words (snd r) = skipn n (words s) /\
  words (fst r) ++ words (snd r) = words s /\
  (words s = [] -> r = ([], [])).
Proof.
  destruct (words s) as [|w ws] eqn:E.
  - unfold extractFirstNWords. rewrite (words_nil_trim s E).
    change (split_ws []) with [@nil code_unit].
    destruct n; simpl; rewrite ?firstn_nil, ?skipn_nil; simpl; repeat split.
  - assert (Hne : words s <> []) by (rewrite E; discriminate).
    cbv zeta. rewrite (extractFirstNWords_words s n Hne). cbn [fst snd].
    pose proof (words_all_ok s) as Hall.
    rewrite (words_join_sp _ (firstn_all_ok n _ Hall)).
    rewrite (words_join_sp _ (skipn_all_ok n _ Hall)).
    rewrite E. repeat split.
    + apply firstn_skipn.
    + intro H. discriminate H.
Qed.

Lemma extractFirstNWords_keeps_every_word_witness :
  extractFirstNWords (lit "  ") 20 = ([], []).
Proof.
  refine (proj2 (proj2 (proj2
    (extractFirstNWords_keeps_every_word (lit "  ") 20))) _).
  reflexivity.
Defined.

(** X3. The remainder that [extractFirstNWords] returns never ends in white
    space: when some words remain and the next chunk starts with a word,
    that word is joined onto the last remaining one, where the text itself
    would have kept them apart if it ended in white space. *)
Theorem remainder_glues_next_chunk
  (s w : jsstring) (n : nat) (rest : list jsstring) (u : jsstring) :
  skipn n (words s) = rest ++ [u] ->
  word_ok w ->
  words (snd (extractFirstNWords s n) ++ w) = rest ++ [u ++ w] /\
  words (s ++ SP :: w) = words s ++ [w].
Proof.
  intros Hskip Hw.
  assert (Hne : words s <> []).
  { intro E. rewrite E in Hskip. destruct n; simpl in Hskip;
      destruct rest; discriminate Hskip. }
  pose proof (words_all_ok s) as Hall.
  split.
  - rewrite (extractFirstNWords_words s n Hne). cbn [snd].
    rewrite Hskip, join_sp_snoc_app.
    apply words_join_sp.
    pose proof (skipn_all_ok n _ Hall) as Hs. rewrite Hskip in Hs.
    apply Forall_app in Hs. destruct Hs as [Hr Hu].
    apply Forall_app. split; [exact Hr|].
    constructor; [|constructor].
    inversion Hu; subst. apply word_ok_app; assumption.
  - apply words_space_then_word. exact Hw.
Qed.

Lemma remainder_glues_next_chunk_witness :
  words (snd (extractFirstNWords (words25 ++ [SP]) 20) ++ lit "d1") =
  [lit "c1"; lit "c2"; lit "c3"; lit "c4"] ++ [lit "c5" ++ lit "d1"] /\
  words ((words25 ++ [SP]) ++ SP :: lit "d1") =
  words (words25 ++ [SP]) ++ [lit "d1"].
Proof.
  apply (remainder_glues_next_chunk (words25 ++ [SP]) (lit "d1") 20
           [lit "c1"; lit "c2"; lit "c3"; lit "c4"] (lit "c5")).
  - vm_compute. reflexivity.
  - split; [discriminate|]. repeat constructor.
Defined.

(** X4. [textToAudioBuffer] rejects with its no-text error exactly for the
    texts in which [countWords] finds no word, whatever the service would
    answer; for every other text the outcome is the one of the request. *)
Theorem textToAudioBuffer_rejects_exactly_blank (t : jsstring) (reply : TtsReply) :
  (textToAudioBuffer t reply = inl NoTextProvided <-> countWords t = 0) /\
  (0 < countWords t ->
   textToAudioBuffer t reply =
   match reply with
   | NoResponse => inl FetchRejected
   | ResponseNotOk status => inl (TtsFailed status)
   | Undecodable => inl DecodeRejected
   | Decoded a => inr a
   end).
Proof.
  assert (B : is_empty (trim t) = true <-> countWords t = 0).
  { rewrite countWords_words. split.
    - intro H. rewrite <- words_trim. destruct (trim t); [reflexivity|discriminate H].
    - intro H. rewrite words_nil_trim; [reflexivity|].
      destruct (words t); [reflexivity | discriminate H]. }
  split.
  - unfold textToAudioBuffer. split.
    + intro H. destruct (is_empty (trim t)) eqn:E; [apply B; reflexivity|].
      destruct reply; discriminate H.
    + intro H. apply B in H. rewrite H. reflexivity.
  - intro H. pose proof (countWords_pos_nonblank t H) as E.
    unfold textToAudioBuffer. rewrite E. reflexivity.
Qed.

Lemma textToAudioBuffer_rejects_exactly_blank_witness :
  textToAudioBuffer words5 (Decoded 7) = inr 7.
Proof.
  refine (proj2 (textToAudioBuffer_rejects_exactly_blank words5 (Decoded 7)) _).
  vm_compute. lia.
Defined.

(** ** The text buffer over whole runs *)

Section BufferRuns.

Import TextChunkBuffer.

Ltac buf_fields :=
  cbn [textBuffer isProcessing pendingFlush inflight enqueued rejected console
       trace callTts setBuffer setProcessing setPendingFlush appendBuffer
       enqueue reject dropInflight fst snd] in *.

Lemma calls_of_app (l l' : list Act) :
  calls_of (l ++ l') = calls_of l ++ calls_of l'.
Proof.
  induction l as [|a l IH]; [reflexivity|].
  destruct a; simpl; rewrite IH; reflexivity.
Qed.

Lemma nonws_app (a b : jsstring) : nonws (a ++ b) = nonws a ++ nonws b.
Proof. apply filter_app. Qed.

Lemma nonws_join_words (ws : list jsstring) :
  Forall word_ok ws -> nonws (join_sp ws) = concat ws.
Proof.
  intro H. unfold nonws. rewrite <- words_cover, (words_join_sp ws H).
  reflexivity.
Qed.

Lemma in_calls_of (t : jsstring) (l : list Act) :
  In t (calls_of l) -> In (CallTts t) l.
Proof.
  induction l as [|a l IH]; simpl; [trivial|].
  destruct a; simpl; intro H; try (right; apply IH; exact H).
  destruct H as [H|H]; [left; rewrite H; reflexivity | right; apply IH; exact H].
Qed.

(** A call of [processTextBuffer] moves text from the buffer to the
    synthesizer and loses none of it. *)
Lemma processTextBuffer_accounted (f : bool) (o : option TtsError) (st : Buf) :
  accounted (fst (processTextBuffer f o st)) = accounted st.
Proof.
  destruct (processTextBuffer_cases f o st)
    as [[Hp E] | [(Hp & _ & _ & E) | (Hp & b & r & E & _ & Hbr)]]; rewrite E.
  - destruct f; unfold accounted; buf_fields; [|reflexivity].
    rewrite calls_of_app. simpl. rewrite app_nil_r. reflexivity.
  - reflexivity.
  - unfold accounted. buf_fields.
    repeat rewrite calls_of_app. simpl. rewrite app_nil_r.
    rewrite concat_app, nonws_app. simpl. rewrite app_nil_r.
    rewrite <- app_assoc. f_equal.
    destruct Hbr as [(_ & _ & -> & ->) | (_ & _ & -> & ->)];
      rewrite app_nil_r.
    + pose proof (words_all_ok (textBuffer st)) as Hall.
      rewrite (nonws_join_words _ (firstn_all_ok 20 _ Hall)).
      rewrite (nonws_join_words _ (skipn_all_ok 20 _ Hall)).
      rewrite <- concat_app, firstn_skipn. apply words_cover.
    + change (nonws []) with (@nil code_unit).
      rewrite ?app_nil_r. reflexivity.
Qed.

Lemma finish_accounted (p : option TtsError) (st : Buf) :
  accounted (finish p st) = accounted st.
Proof. destruct p; reflexivity. Qed.

Lemma awaitNested_accounted (p : option TtsError) (r : Buf * Outcome) :
  accounted (awaitNested p r) = accounted (fst r).
Proof. destruct r as [st []]; simpl; [apply finish_accounted | reflexivity]. Qed.

Lemma accounted_silent_act (st st' : Buf) (a : Act) :
  trace st' = trace st ++ [a] -> textBuffer st' = textBuffer st ->
  calls_of [a] = [] -> accounted st' = accounted st.
Proof.
  intros T B C. unfold accounted. rewrite T, B, calls_of_app, C, app_nil_r.
  reflexivity.
Qed.

Lemma resume_accounted (c : Conversion) (res : TtsError + AudioBuffer) (st : Buf) :
  accounted (resume c res st) = accounted st.
Proof.
  unfold resume.
  set (st1 := match res with inr a => enqueue a (convText c) st | inl _ => st end).
  assert (H1 : accounted st1 = accounted st).
  { subst st1. destruct res as [e|a]; [reflexivity|].
    apply (accounted_silent_act _ _ (Enqueue a (convText c))); reflexivity. }
  assert (H2 : accounted (setProcessing false st1) = accounted st).
  { rewrite <- H1.
    apply (accounted_silent_act _ _ (SetProcessing false)); reflexivity. }
  destruct (pendingFlush (setProcessing false st1)).
  - rewrite awaitNested_accounted, processTextBuffer_accounted, <- H2.
    apply (accounted_silent_act _ _ (SetPendingFlush false)); reflexivity.
  - destruct (20 <=? countWords (textBuffer (setProcessing false st1))).
    + rewrite awaitNested_accounted, processTextBuffer_accounted. exact H2.
    + rewrite finish_accounted. exact H2.
Qed.

Lemma step_accounted (e : Event) (st : Buf) :
  accounted (step e st) = accounted st ++ nonws (chunks_of [e]).
Proof.
  destruct e as [chunk | | i reply]; simpl.
  - unfold on_text_chunk. rewrite processTextBuffer_accounted.
    unfold accounted. buf_fields.
    rewrite calls_of_app. simpl. rewrite !app_nil_r, nonws_app, app_assoc.
    reflexivity.
  - unfold on_text_complete. rewrite processTextBuffer_accounted, app_nil_r.
    reflexivity.
  - rewrite app_nil_r. unfold on_tts_settled.
    destruct (nth_error (inflight st) i); [|reflexivity].
    rewrite resume_accounted. reflexivity.
Qed.

Lemma chunks_of_cons (e : Event) (evs : list Event) :
  chunks_of (e :: evs) = chunks_of [e] ++ chunks_of evs.
Proof. destruct e; simpl; rewrite ?app_nil_r; reflexivity. Qed.

Lemma run_accounted (evs : list Event) (st : Buf) :
  accounted (run evs st) = accounted st ++ nonws (chunks_of evs).
Proof.
  revert st. induction evs as [|e evs IH]; intro st.
  - simpl. rewrite app_nil_r. reflexivity.
  - change (run (e :: evs) st) with (run evs (step e st)).
    rewrite IH, step_accounted, (chunks_of_cons e evs), nonws_app, app_assoc.
    reflexivity.
Qed.

End BufferRuns.

(** X5. Over every run of the buffer, whatever fails, no code unit of the
    text received is lost, duplicated or moved, and none is invented, white
    space apart: the texts handed to the synthesizer so far, in the order of
    the calls, followed by the text still in the buffer, spell the chunks
    received, in order. *)
Theorem no_text_is_lost (evs : list TextChunkBuffer.Event) :
  let st := TextChunkBuffer.run evs TextChunkBuffer.init in
  nonws (concat (calls_of (TextChunkBuffer.trace st)))
  ++ nonws (TextChunkBuffer.textBuffer st)
  = nonws (chunks_of evs).
Proof.
  intro st. subst st.
  exact (run_accounted evs TextChunkBuffer.init).
Qed.

Section BufferOrder.

Import TextChunkBuffer.

Ltac buf_fields :=
  cbn [textBuffer isProcessing pendingFlush inflight enqueued rejected console
       trace callTts setBuffer setProcessing setPendingFlush appendBuffer
       enqueue reject dropInflight fst snd] in *.

Lemma in_order_silent (st st' : Buf) (a : Act) :
  in_order st ->
  enqueued st' = enqueued st -> inflight st' = inflight st ->
  rejected st' = rejected st -> isProcessing st' = isProcessing st ->
  trace st' = trace st ++ [a] -> calls_of [a] = [] ->
  in_order st'.
Proof.
  intros (O & R & F & N & L) He Hi Hr Hp Ht Hc.
  unfold in_order, lock_matches_inflight in *.
  rewrite He, Hi, Hr, Hp, Ht, calls_of_app, Hc, app_nil_r.
  repeat split; try assumption.
  intros t Hin. rewrite Ht in Hin. apply in_app_or in Hin.
  destruct Hin as [Hin|[Hin|[]]]; [apply N; exact Hin|].
  subst a. discriminate Hc.
Qed.

Lemma processTextBuffer_in_order (f : bool) (st : Buf) :
  in_order st -> in_order (fst (processTextBuffer f None st)).
Proof.
  intro H. pose proof H as (O & R & F & N & L).
  pose proof (processTextBuffer_calls_nonblank f None st N) as N'.
  pose proof (processTextBuffer_keeps_lock_inv f None st L) as L'.
  destruct (processTextBuffer_cases f None st)
    as [[Hp E] | [(Hp & _ & _ & E) | (Hp & b & r & E & _ & _)]];
    rewrite E in N', L' |- *.
  - destruct f; [|exact H].
    apply (in_order_silent st _ (SetPendingFlush true)); try reflexivity.
    exact H.
  - exact H.
  - unfold in_order. split; [|split; [|split; [|split]]];
      try assumption; buf_fields.
    + repeat rewrite calls_of_app. simpl. rewrite !app_nil_r.
      rewrite map_app, app_assoc, O. reflexivity.
    + apply Forall_app. split; [exact F|]. repeat constructor.
Qed.

Lemma resume_in_order (c : Conversion) (a : AudioBuffer) (st : Buf) :
  map snd (enqueued st) ++ [convText c] = calls_of (trace st) ->
  inflight st = [] -> rejected st = [] -> calls_nonblank st ->
  convOuter c = None ->
  in_order (resume c (inr a) st).
Proof.
  intros O I R N Co. unfold resume. rewrite Co.
  assert (H2 : in_order (setProcessing false (enqueue a (convText c) st))).
  { unfold in_order, lock_matches_inflight. buf_fields.
    rewrite I, R, map_app. repeat rewrite calls_of_app. simpl.
    rewrite !app_nil_r. repeat split; try assumption; try constructor.
    intros t Hin. apply in_app_or in Hin. destruct Hin as [Hin|[Hin|[]]].
    - apply in_app_or in Hin. destruct Hin as [Hin|[Hin|[]]];
        [apply N; exact Hin | discriminate Hin].
    - discriminate Hin. }
  destruct (pendingFlush (setProcessing false (enqueue a (convText c) st))).
  - assert (X : forall r, awaitNested None r = fst r) by (intros [s []]; reflexivity).
    rewrite X. apply processTextBuffer_in_order.
    apply (in_order_silent _ _ (SetPendingFlush false) H2); reflexivity.
  - destruct (20 <=? countWords
                (textBuffer (setProcessing false (enqueue a (convText c) st)))).
    + assert (X : forall r, awaitNested None r = fst r) by (intros [s []]; reflexivity).
      rewrite X. apply processTextBuffer_in_order. exact H2.
    + exact H2.
Qed.

Lemma step_in_order (e : Event) (st : Buf) :
  decoded_reply e = true -> in_order st -> in_order (step e st).
Proof.
  intros D H. destruct e as [chunk | | i reply]; simpl.
  - apply processTextBuffer_in_order.
    apply (in_order_silent st _ (AppendBuffer chunk) H); reflexivity.
  - apply processTextBuffer_in_order. exact H.
  - unfold on_tts_settled.
    destruct (nth_error (inflight st) i) as [c|] eqn:Hc; [|exact H].
    destruct H as (O & R & F & N & L).
    pose proof (lock_inv_bounds st L) as Hle.
    destruct (inflight st) as [|c0 [|c1 l]] eqn:Hfl; simpl in Hle; try lia.
    + destruct i; discriminate Hc.
    + destruct i as [|i]; [|destruct i; discriminate Hc].
      injection Hc as <-.
      destruct reply as [| | |a]; try discriminate D.
      assert (Hnb : is_empty (trim (convText c0)) = false).
      { apply N. apply in_calls_of. rewrite <- O.
        apply in_or_app. right. left. reflexivity. }
      unfold textToAudioBuffer. rewrite Hnb.
      inversion F; subst.
      apply resume_in_order; buf_fields; try assumption.
      rewrite Hfl. reflexivity.
Qed.

Lemma run_in_order (evs : list Event) (st : Buf) :
  forallb decoded_reply evs = true -> in_order st -> in_order (run evs st).
Proof.
  revert st. induction evs as [|e evs IH]; intros st D H; simpl.
  - exact H.
  - simpl in D. apply andb_prop in D. destruct D as [De D].
    apply IH; [exact D | apply step_in_order; assumption].
Qed.

End BufferOrder.

(** X6. In a run in which no synthesis call fails, every batch cut from the
    buffer reaches the playback queue, in the order in which the batches were
    cut, with the text it was cut with: the texts enqueued, followed by the
    text being converted, are the texts of the calls in order; and no
    handler promise rejects. *)
Theorem batches_are_enqueued_in_order (evs : list TextChunkBuffer.Event) :
  forallb decoded_reply evs = true ->
  let st := TextChunkBuffer.run evs TextChunkBuffer.init in
  map snd (TextChunkBuffer.enqueued st)
  ++ map TextChunkBuffer.convText (TextChunkBuffer.inflight st)
  = calls_of (TextChunkBuffer.trace st) /\
  TextChunkBuffer.rejected st = [].
Proof.
  intros D st.
  destruct (run_in_order evs TextChunkBuffer.init D) as (O & R & _).
  - unfold in_order, lock_matches_inflight. simpl.
    repeat split; try constructor. intros t [].
  - split; assumption.
Qed.

Lemma batches_are_enqueued_in_order_witness :
  let st := TextChunkBuffer.run
              [TextChunkBuffer.TextChunk words25;
               TextChunkBuffer.TextComplete;
               TextChunkBuffer.TtsSettled 0 (Decoded 7)]
              TextChunkBuffer.init in
  map snd (TextChunkBuffer.enqueued st)
  ++ map TextChunkBuffer.convText (TextChunkBuffer.inflight st)
  = calls_of (TextChunkBuffer.trace st) /\
  TextChunkBuffer.rejected st = [].
Proof.
  apply (batches_are_enqueued_in_order
           [TextChunkBuffer.TextChunk words25;
            TextChunkBuffer.TextComplete;
            TextChunkBuffer.TtsSettled 0 (Decoded 7)]).
  reflexivity.
Defined.

Section BufferThreshold.

Import TextChunkBuffer.

Lemma processTextBuffer_idle_below (f : bool) (o : option TtsError) (st : Buf) :
  idle_below_threshold (fst (processTextBuffer f o st)).
Proof.
  unfold idle_below_threshold.
  destruct (processTextBuffer_cases f o st)
    as [[Hp E] | [(Hp & Hlt & _ & E) | (Hp & b & r & E & _ & _)]];
    rewrite E; cbn [fst].
  - destruct f; simpl; rewrite Hp; discriminate.
  - intros _. rewrite countWords_words. exact Hlt.
  - simpl. discriminate.
Qed.

Lemma processTextBuffer_flush_carrier (f : bool) (o : option TtsError) (st : Buf) :
  flush_has_carrier st -> flush_has_carrier (fst (processTextBuffer f o st)).
Proof.
  unfold flush_has_carrier. intro H.
  destruct (processTextBuffer_cases f o st)
    as [[Hp E] | [(Hp & _ & _ & E) | (Hp & b & r & E & _ & _)]];
    rewrite E; cbn [fst].
  - destruct f; simpl; [intros _; exact Hp | exact H].
  - exact H.
  - simpl. reflexivity.
Qed.

Lemma resume_idle_and_carrier (c : Conversion) (res : TtsError + AudioBuffer)
  (st : Buf) :
  idle_below_threshold (resume c res st) /\ flush_has_carrier (resume c res st).
Proof.
  assert (A : forall p r, idle_below_threshold (fst r) -> flush_has_carrier (fst r) ->
                          idle_below_threshold (awaitNested p r) /\
                          flush_has_carrier (awaitNested p r)).
  { intros p [s []] H1 H2; simpl in *; [|split; assumption].
    destruct p; split; assumption. }
  unfold resume.
  set (st1 := match res with inr a => enqueue a (convText c) st | inl _ => st end).
  destruct (pendingFlush (setProcessing false st1)) eqn:Hpf.
  - apply A; [apply processTextBuffer_idle_below|].
    apply processTextBuffer_flush_carrier. intro H. discriminate H.
  - destruct (20 <=? countWords (textBuffer (setProcessing false st1))) eqn:H20.
    + apply A; [apply processTextBuffer_idle_below|].
      apply processTextBuffer_flush_carrier. intro H.
      rewrite Hpf in H. discriminate H.
    + apply Nat.leb_gt in H20.
      assert (F : forall p, idle_below_threshold (finish p (setProcessing false st1)) /\
                            flush_has_carrier (finish p (setProcessing false st1))).
      { intros [e|]; (split; [intros _; exact H20|]);
          intro H; simpl in H; simpl in Hpf; rewrite Hpf in H; discriminate H. }
      apply F.
Qed.

Lemma step_idle_and_carrier (e : Event) (st : Buf) :
  idle_below_threshold st /\ flush_has_carrier st ->
  idle_below_threshold (step e st) /\ flush_has_carrier (step e st).
Proof.
  intros [H1 H2]. destruct e as [chunk | | i reply]; simpl.
  - split; [apply processTextBuffer_idle_below|].
    apply processTextBuffer_flush_carrier. exact H2.
  - split; [apply processTextBuffer_idle_below|].
    apply processTextBuffer_flush_carrier. exact H2.
  - unfold on_tts_settled.
    destruct (nth_error (inflight st) i); [|split; assumption].
    apply resume_idle_and_carrier.
Qed.

End BufferThreshold.

(** X7. Text never waits at or above the threshold in an idle buffer: in
    every state of every run, either a conversion is in flight or the buffer
    holds fewer than 20 words; and a flush request is never left on its own:
    whenever the pending-flush flag is up, a conversion is in flight (the one
    whose [finally] block will carry the flush out). *)
Theorem idle_buffer_is_below_threshold (evs : list TextChunkBuffer.Event) :
  let st := TextChunkBuffer.run evs TextChunkBuffer.init in
  (TextChunkBuffer.isProcessing st = false ->
   countWords (TextChunkBuffer.textBuffer st) < 20) /\
  (TextChunkBuffer.pendingFlush st = true ->
   TextChunkBuffer.isProcessing st = true).
Proof.
  intro st. subst st.
  assert (G : forall st0,
             idle_below_threshold st0 /\ flush_has_carrier st0 ->
             idle_below_threshold (TextChunkBuffer.run evs st0) /\
             flush_has_carrier (TextChunkBuffer.run evs st0)).
  { induction evs as [|e evs IH]; intros st0 H; simpl; [exact H|].
    apply IH, step_idle_and_carrier, H. }
  apply G. split.
  - intros _. vm_compute. lia.
  - intro H. discriminate H.
Qed.

Lemma idle_buffer_is_below_threshold_witness :
  countWords (TextChunkBuffer.textBuffer
                (TextChunkBuffer.run
                   [TextChunkBuffer.TextChunk words25;
                    TextChunkBuffer.TtsSettled 0 (Decoded 7)]
                   TextChunkBuffer.init)) < 20.
Proof.
  refine (proj1 (idle_buffer_is_below_threshold
                   [TextChunkBuffer.TextChunk words25;
                    TextChunkBuffer.TtsSettled 0 (Decoded 7)]) _).
  reflexivity.
Defined.

(** ** The playback queue over whole runs *)

Section QueueRuns.

Import AudioQueue.

Lemma run_at_rest (evs : list (Event * list Fault)) (st : State) :
  at_rest st -> at_rest (run evs st).
Proof.
  revert st. induction evs as [|e evs IH]; intros st H; simpl; [exact H|].
  apply IH. unfold step. apply commit_comes_to_rest.
Qed.

Lemma playing_queue_rests (fl : list Fault) (st : State) :
  isPlaying st = true -> isUserSpeaking st = false -> commit fl st = st.
Proof.
  intros P U. unfold commit. apply settle_at_rest.
  - unfold wantsToPlay. rewrite P. apply andb_false_iff. left.
    apply andb_false_r.
  - unfold wantsToInterrupt. rewrite U. reflexivity.
Qed.

(** Items enqueued while an item plays just queue up. *)
Lemma enqueue_while_playing (more : list AudioQueueItem) :
  forall st, playing_ok st ->
    let st' := run (enqueue_events more) st in
    queue st' = queue st ++ more /\ playing_ok st' /\ played st' = played st.
Proof.
  induction more as [|it more IH]; intros st Hok; simpl.
  - rewrite app_nil_r. split; [reflexivity | split; [exact Hok | reflexivity]].
  - pose proof Hok as (P & U & A & s & C & B).
    assert (Hs : step (Enqueued (id it) (audioBuffer it) (text it), []) st =
                 enqueue (id it) (audioBuffer it) (text it) st).
    { unfold step. cbn [fst snd handle].
      apply playing_queue_rests; [exact P | exact U]. }
    rewrite Hs.
    destruct (IH (enqueue (id it) (audioBuffer it) (text it) st))
      as (Q' & Hok' & Pl').
    + split; [exact P | split; [exact U | split; [exact A|]]].
      exists s. split; assumption.
    + split; [|split; assumption].
      rewrite Q'. simpl. rewrite <- app_assoc. destruct it. reflexivity.
Qed.

Lemma play_through_idle (n : nat) (st : State) :
  currentSource st = None -> play_through n st = st.
Proof. intro C. destruct n; simpl; [|rewrite C]; reflexivity. Qed.

(** A playing queue plays what is queued, in order, and then stays put. *)
Lemma play_through_drains_and_stops (q : list AudioQueueItem) :
  forall k st, queue st = q -> playing_ok st ->
               played (play_through (length q + k) st) = played st ++ q.
Proof.
  induction q as [|item rest IH]; intros k st Q Hok.
  - rewrite app_nil_r. simpl. destruct k as [|k]; [reflexivity|]. simpl.
    pose proof Hok as (P & U & A & s & C & B). rewrite C.
    assert (E : (s <? nextSource st) = true) by (apply Nat.ltb_lt; exact B).
    assert (Hs : step (Ended s, []) st = onended (fallSilent s st)).
    { unfold step. cbn [fst snd handle]. rewrite E.
      apply idle_queue_empty_rests; [reflexivity | exact Q]. }
    rewrite Hs, play_through_idle; reflexivity.
  - simpl. pose proof Hok as (_ & _ & _ & s & C & _). rewrite C.
    pose proof (ended_advances st s Hok C) as H. rewrite Q in H.
    destruct H as (Q' & Hok' & Hpl).
    rewrite (IH k _ Q' Hok'), Hpl, <- app_assoc. reflexivity.
Qed.

End QueueRuns.

(** X8. Whatever has happened, after every event the queue is at rest: an
    item is playing, or nothing is queued, or the user is speaking; and no
    item is marked playing while the user speaks. *)
Theorem queue_never_waits_without_cause (st : AudioQueue.State) :
  AudioQueue.reachable st ->
  (AudioQueue.queue st = [] \/ AudioQueue.isPlaying st = true \/
   AudioQueue.isUserSpeaking st = true) /\
  (AudioQueue.isUserSpeaking st = true -> AudioQueue.isPlaying st = false).
Proof.
  intros (cb & evs & ->).
  destruct (run_at_rest evs (AudioQueue.mounted cb)) as [W I];
    [split; reflexivity|].
  unfold AudioQueue.wantsToPlay, AudioQueue.wantsToInterrupt in W, I.
  set (st := AudioQueue.run evs (AudioQueue.mounted cb)) in *.
  split.
  - destruct (AudioQueue.queue st); [left; reflexivity|].
    destruct (AudioQueue.isPlaying st); [right; left; reflexivity|].
    destruct (AudioQueue.isUserSpeaking st); [right; right; reflexivity|].
    discriminate W.
  - intro U. rewrite U in I. exact I.
Qed.

Lemma queue_never_waits_without_cause_witness :
  (AudioQueue.queue (playingA false) = [] \/
   AudioQueue.isPlaying (playingA false) = true \/
   AudioQueue.isUserSpeaking (playingA false) = true) /\
  (AudioQueue.isUserSpeaking (playingA false) = true ->
   AudioQueue.isPlaying (playingA false) = false).
Proof.
  apply queue_never_waits_without_cause.
  exists false.
  exists [(AudioQueue.Enqueued (AudioQueue.id itemA)
             (AudioQueue.audioBuffer itemA) (AudioQueue.text itemA), []);
          (AudioQueue.Enqueued (AudioQueue.id itemB)
             (AudioQueue.audioBuffer itemB) (AudioQueue.text itemB), [])].
  reflexivity.
Defined.

(** X9. Playback is first in, first out: items enqueued one after the other
    on a fresh queue, the user silent and no playback failing, start to play
    in the order in which they were enqueued, each when the one before it has
    ended; once all have played, further [ended] reports start nothing. *)
Theorem playback_is_fifo
  (cb : bool) (items : list AudioQueue.AudioQueueItem) (n : nat) :
  length items <= S n ->
  played (play_through n
            (AudioQueue.run (enqueue_events items) (AudioQueue.mounted cb)))
  = items.
Proof.
  intro Hn. destruct items as [|it more]; [destruct n; reflexivity|].
  change (AudioQueue.run (enqueue_events (it :: more)) (AudioQueue.mounted cb))
    with (AudioQueue.run (enqueue_events more)
            (AudioQueue.step
               (AudioQueue.Enqueued (AudioQueue.id it) (AudioQueue.audioBuffer it)
                  (AudioQueue.text it), [])
               (AudioQueue.mounted cb))).
  set (it' := {| AudioQueue.id := AudioQueue.id it;
                 AudioQueue.audioBuffer := AudioQueue.audioBuffer it;
                 AudioQueue.text := AudioQueue.text it |}).
  assert (Eit : it' = it) by (destruct it; reflexivity).
  set (st0 := AudioQueue.enqueue (AudioQueue.id it) (AudioQueue.audioBuffer it)
                (AudioQueue.text it) (AudioQueue.mounted cb)).
  assert (Hs : AudioQueue.step
                 (AudioQueue.Enqueued (AudioQueue.id it)
                    (AudioQueue.audioBuffer it) (AudioQueue.text it), [])
                 (AudioQueue.mounted cb)
               = AudioQueue.playNext AudioQueue.NoFault st0).
  { unfold AudioQueue.step. cbn [fst snd AudioQueue.handle].
    apply (idle_queue_starts st0 it' []); reflexivity. }
  rewrite Hs.
  destruct (playNext_plays_ok st0 it' []) as (Q1 & Hok1 & Pl1);
    try reflexivity.
  destruct (enqueue_while_playing more _ Hok1) as (Q2 & Hok2 & Pl2).
  rewrite Q1 in Q2. simpl in Q2.
  simpl in Hn. assert (Hk : n = length more + (n - length more)) by lia.
  rewrite Hk.
  rewrite (play_through_drains_and_stops more _ _ Q2 Hok2), Pl2, Pl1, Eit.
  reflexivity.
Qed.

Lemma playback_is_fifo_witness :
  played (play_through 5
            (AudioQueue.run (enqueue_events [itemA; itemB; itemC])
               (AudioQueue.mounted false)))
  = [itemA; itemB; itemC].
Proof. apply playback_is_fifo. simpl. lia. Defined.

Section FirstAudio.

Import AudioQueue.

Lemma playNext_notified (f : Fault) (r : nat) (st : State) :
  (notified_within r st -> notified_within r (playNext f st)) /\
  (notified_on_first_start st -> notified_on_first_start (playNext f st)).
Proof.
  unfold playNext.
  destruct (isUserSpeaking st); [split; trivial|].
  destruct (queue st) as [|item rest]; simpl; [split; trivial|].
  destruct (isPlaying st); [split; trivial|]. simpl.
  destruct (audioContext st); simpl; [|split; trivial].
  unfold notified_within, notified_on_first_start.
  destruct (currentSource st); destruct f; simpl;
    destruct (hasPlayedFirstAudio st) eqn:HP;
    destruct (hasCallback st) eqn:HC; simpl; rewrite ?HP, ?HC;
    (split; [intro H; lia|]);
    intros [(A & B) | [(A & B & C & D) | (A & B & C & D)]];
    try discriminate;
    try (left; split; [reflexivity | assumption]);
    try (right; left; repeat split; assumption);
    try (right; right; repeat split; try assumption;
         try (rewrite C; reflexivity);
         intro X; apply app_eq_nil in X; destruct X as [_ X]; discriminate X).
Qed.

Lemma interruptEffect_notified (r : nat) (st : State) :
  (notified_within r st -> notified_within r (interruptEffect st)) /\
  (notified_on_first_start st -> notified_on_first_start (interruptEffect st)).
Proof.
  unfold interruptEffect. destruct (wantsToInterrupt st); [|split; trivial].
  destruct (currentSource st); split; trivial.
Qed.

Lemma settle_notified (fuel : nat) (r : nat) :
  forall (fl : list Fault) (st : State),
    (notified_within r st -> notified_within r (settle fuel fl st)) /\
    (notified_on_first_start st -> notified_on_first_start (settle fuel fl st)).
Proof.
  induction fuel as [|fuel IH]; intros fl st; simpl; [split; trivial|].
  destruct (wantsToPlay st).
  - destruct (playNext_notified (hd NoFault fl) r st) as [A B].
    destruct (IH (tl fl) (playNext (hd NoFault fl) st)) as [A' B'].
    split; intro H; [apply A', A, H | apply B', B, H].
  - destruct (wantsToInterrupt st); [|split; trivial].
    destruct (interruptEffect_notified r st) as [A B].
    destruct (IH fl (interruptEffect st)) as [A' B'].
    split; intro H; [apply A', A, H | apply B', B, H].
Qed.

Lemma handle_notified (e : Event) (r : nat) (st : State) :
  notified_within r st ->
  notified_within (match e with ResetFirstAudioFlag => S r | _ => r end)
    (handle e st).
Proof.
  unfold notified_within.
  destruct e as [ident a t | b | s | |]; simpl; try trivial.
  - destruct (s <? nextSource st); trivial.
  - unfold clearQueue. destruct (currentSource st); trivial.
  - destruct (hasPlayedFirstAudio st); lia.
Qed.

Lemma handle_first_start (e : Event) (st : State) :
  e <> ResetFirstAudioFlag ->
  notified_on_first_start st -> notified_on_first_start (handle e st).
Proof.
  intro Hne. destruct e as [ident a t | b | s | |]; simpl; try trivial.
  - destruct (s <? nextSource st); trivial.
  - unfold clearQueue. destruct (currentSource st); trivial.
  - contradiction Hne. reflexivity.
Qed.

Lemma run_notified_within (evs : list (Event * list Fault)) :
  forall r st, notified_within r st -> notified_within (r + resets evs) (run evs st).
Proof.
  induction evs as [|[e fl] evs IH]; intros r st H.
  - simpl. rewrite Nat.add_0_r. exact H.
  - change (run ((e, fl) :: evs) st) with (run evs (step (e, fl) st)).
    pose proof (handle_notified e r st H) as H1.
    unfold step, commit. cbn [fst snd].
    destruct e; simpl resets; rewrite ?Nat.add_succ_r, <- ?Nat.add_succ_l;
      apply IH; apply settle_notified; exact H1.
Qed.

Lemma run_first_start (evs : list (Event * list Fault)) :
  forall st, resets evs = 0 ->
             notified_on_first_start st -> notified_on_first_start (run evs st).
Proof.
  induction evs as [|[e fl] evs IH]; intros st R H; [exact H|].
  change (run ((e, fl) :: evs) st) with (run evs (step (e, fl) st)).
  assert (Hne : e <> ResetFirstAudioFlag /\ resets evs = 0).
  { destruct e; simpl in R; try (split; [discriminate | exact R]).
    discriminate R. }
  destruct Hne as [Hne R'].
  apply IH; [exact R'|]. unfold step, commit. cbn [fst snd].
  apply (settle_notified _ 0), handle_first_start; assumption.
Qed.

Lemma settle_keeps_callback (fuel : nat) :
  forall fl st, hasCallback (settle fuel fl st) = hasCallback st.
Proof.
  induction fuel as [|fuel IH]; intros fl st; simpl; [reflexivity|].
  destruct (wantsToPlay st).
  - rewrite IH. unfold playNext.
    destruct (isUserSpeaking st); [reflexivity|].
    destruct (queue st); simpl; [reflexivity|].
    destruct (isPlaying st); [reflexivity|]. simpl.
    destruct (audioContext st); simpl; [|reflexivity].
    destruct (currentSource st); destruct (hd NoFault fl); simpl;
      try (destruct (hasPlayedFirstAudio st);
           destruct (hasCallback st) eqn:HC; simpl; rewrite ?HC);
      reflexivity.
  - destruct (wantsToInterrupt st) eqn:W; [|reflexivity].
    rewrite IH. unfold interruptEffect. rewrite W.
    destruct (currentSource st); reflexivity.
Qed.

Lemma run_keeps_callback (evs : list (Event * list Fault)) :
  forall st, hasCallback (run evs st) = hasCallback st.
Proof.
  induction evs as [|[e fl] evs IH]; intro st; [reflexivity|].
  change (run ((e, fl) :: evs) st) with (run evs (step (e, fl) st)).
  rewrite IH. unfold step, commit. cbn [fst snd].
  rewrite settle_keeps_callback. destruct e; simpl; try reflexivity.
  - destruct (s <? nextSource st); reflexivity.
  - unfold clearQueue. destruct (currentSource st); reflexivity.
Qed.

End FirstAudio.

(** X10. The first-audio callback is called at most once per arming of its
    flag: over any run, at most once more than [resetFirstAudioFlag] was
    called, and never when no callback was supplied. In a run that does not
    re-arm the flag, it has been called exactly once if an item has started
    to play and not at all otherwise, however many items have played. *)
Theorem first_audio_is_notified_once
  (cb : bool) (evs : list (AudioQueue.Event * list AudioQueue.Fault)) :
  let st := AudioQueue.run evs (AudioQueue.mounted cb) in
  AudioQueue.notified st <= 1 + resets evs /\
  (resets evs = 0 ->
   AudioQueue.notified st =
   if cb && negb (length (AudioQueue.started st) =? 0) then 1 else 0).
Proof.
  intro st. split.
  - pose proof (run_notified_within evs 0 (AudioQueue.mounted cb)) as H.
    unfold notified_within in H. fold st in H.
    assert (H0 : 0 + 1 <= 1 + 0) by lia. specialize (H H0). simpl in H. lia.
  - intro R.
    assert (H : notified_on_first_start st).
    { apply run_first_start; [exact R|].
      destruct cb; [right; left | left]; repeat split. }
    assert (HC : AudioQueue.hasCallback st = cb)
      by (subst st; rewrite run_keeps_callback; reflexivity).
    destruct H as [(A & B) | [(A & B & C & D) | (A & B & C & D)]];
      rewrite HC in A; subst cb; simpl.
    + exact B.
    + rewrite D. exact C.
    + destruct (AudioQueue.started st); [contradiction|]. exact C.
Qed.

Lemma first_audio_is_notified_once_witness :
  AudioQueue.notified
    (AudioQueue.run (enqueue_events [itemA; itemB]) (AudioQueue.mounted true))
  = 1.
Proof.
  refine (proj2 (first_audio_is_notified_once true
                   (enqueue_events [itemA; itemB])) _).
  reflexivity.
Defined.

Section BadItem.

Import AudioQueue.

(** [playNext] when starting the item fails before the node sounds. *)
Lemma playNext_fails (f : Fault) (st : State) (item : AudioQueueItem)
  (rest : list AudioQueueItem) :
  f = ThrowsBeforeAssign \/ f = StartThrows ->
  isUserSpeaking st = false -> isPlaying st = false ->
  audioContext st = true -> queue st = item :: rest ->
  let st' := playNext f st in
  queue st' = rest /\ isPlaying st' = false /\ isUserSpeaking st' = false /\
  audioContext st' = true /\ currentPlayingText st' = [] /\
  started st' = started st /\ errors st' = S (errors st).
Proof.
  intros Hf U P A Q. unfold playNext. rewrite U, Q, P. simpl. rewrite A. simpl.
  destruct Hf as [-> | ->]; destruct (currentSource st); simpl;
    repeat split; assumption.
Qed.

(** [playNext] with no fault starts the head, whatever handle is held. *)
Lemma playNext_starts (st : State) (item : AudioQueueItem)
  (rest : list AudioQueueItem) :
  isUserSpeaking st = false -> isPlaying st = false ->
  audioContext st = true -> queue st = item :: rest ->
  let st' := playNext NoFault st in
  queue st' = rest /\ isPlaying st' = true /\ isUserSpeaking st' = false /\
  currentPlayingText st' = text item /\
  started st' = started st ++ [(nextSource st, item)] /\
  errors st' = errors st.
Proof.
  intros U P A Q. unfold playNext. rewrite U, Q, P. simpl. rewrite A. simpl.
  destruct (currentSource st); simpl;
    destruct (hasPlayedFirstAudio st); destruct (hasCallback st); simpl;
    repeat split; assumption.
Qed.

Lemma playNext_keeps_nodes (f : Fault) (st : State) :
  f = ThrowsBeforeAssign \/ f = StartThrows ->
  nextSource st <= nextSource (playNext f st).
Proof.
  intro Hf. unfold playNext.
  destruct (isUserSpeaking st); [lia|].
  destruct (queue st); simpl; [lia|].
  destruct (isPlaying st); [lia|]. simpl.
  destruct (audioContext st); simpl; [|lia].
  destruct Hf as [-> | ->]; destruct (currentSource st); simpl; lia.
Qed.

End BadItem.

(** X11. An item that cannot be started does not stall the queue: when the
    call of [playNext] for the head of the queue throws before the node
    sounds (in [createBufferSource], [connect] or [start]), the error is
    logged once, the item is dropped without having played, and in the same
    round of effects the next item starts to play. *)
Theorem failed_item_does_not_stall_the_queue
  (st : AudioQueue.State) (f : AudioQueue.Fault)
  (bad good : AudioQueue.AudioQueueItem)
  (rest : list AudioQueue.AudioQueueItem) :
  f = AudioQueue.ThrowsBeforeAssign \/ f = AudioQueue.StartThrows ->
  AudioQueue.isPlaying st = false ->
  AudioQueue.audioContext st = true ->
  AudioQueue.queue st = bad :: good :: rest ->
  let st' := AudioQueue.step (AudioQueue.Speaking false, [f]) st in
  AudioQueue.isPlaying st' = true /\
  AudioQueue.currentPlayingText st' = AudioQueue.text good /\
  AudioQueue.queue st' = rest /\
  played st' = played st ++ [good] /\
  AudioQueue.errors st' = S (AudioQueue.errors st).
Proof.
  intros Hf P A Q st'. subst st'.
  unfold AudioQueue.step, AudioQueue.commit. cbn [fst snd AudioQueue.handle].
  set (st0 := AudioQueue.setIsUserSpeaking false st).
  assert (Q0 : AudioQueue.queue st0 = bad :: good :: rest) by exact Q.
  rewrite Q0. change (2 + length (bad :: good :: rest))
    with (S (S (2 + length rest))).
  rewrite settle_unfold.
  assert (W0 : AudioQueue.wantsToPlay st0 = true)
    by (unfold AudioQueue.wantsToPlay; rewrite Q0; simpl; rewrite P; reflexivity).
  rewrite W0. cbn [hd tl].
  destruct (playNext_fails f st0 bad (good :: rest) Hf)
    as (Q1 & P1 & U1 & A1 & _ & T1 & E1); try reflexivity; try assumption.
  set (st1 := AudioQueue.playNext f st0) in *.
  rewrite settle_unfold.
  assert (W1 : AudioQueue.wantsToPlay st1 = true)
    by (unfold AudioQueue.wantsToPlay; rewrite Q1, P1, U1; reflexivity).
  rewrite W1. cbn [hd tl].
  destruct (playNext_starts st1 good rest U1 P1 A1 Q1)
    as (Q2 & P2 & U2 & X2 & T2 & E2).
  rewrite settle_at_rest.
  - repeat split; try assumption.
    + unfold played. rewrite T2, map_app, T1. reflexivity.
    + rewrite E2, E1. reflexivity.
  - unfold AudioQueue.wantsToPlay. rewrite P2. apply andb_false_iff. left.
    apply andb_false_r.
  - unfold AudioQueue.wantsToInterrupt. rewrite U2. reflexivity.
Qed.

Lemma failed_item_does_not_stall_the_queue_witness :
  let st := AudioQueue.run (enqueue_events [itemA; itemB])
              (AudioQueue.setIsUserSpeaking true (AudioQueue.mounted false)) in
  played (AudioQueue.step (AudioQueue.Speaking false, [AudioQueue.StartThrows]) st)
  = played st ++ [itemB].
Proof.
  intro st.
  refine (proj1 (proj2 (proj2 (proj2
    (failed_item_does_not_stall_the_queue st AudioQueue.StartThrows
       itemA itemB [] _ _ _ _))))).
  - right. reflexivity.
  - reflexivity.
  - reflexivity.
  - reflexivity.
Defined.

Section WhileSpeaking.

Import AudioQueue.

Lemma settle_while_speaking (fuel : nat) :
  forall fl st, isUserSpeaking st = true ->
    isUserSpeaking (settle fuel fl st) = true /\
    started (settle fuel fl st) = started st /\
    (forall s, In s (sounding (settle fuel fl st)) -> In s (sounding st)).
Proof.
  induction fuel as [|fuel IH]; intros fl st U; simpl; [repeat split; trivial|].
  assert (W : wantsToPlay st = false)
    by (unfold wantsToPlay; rewrite U; apply andb_false_r).
  rewrite W. destruct (wantsToInterrupt st) eqn:I; [|repeat split; trivial].
  assert (F : isUserSpeaking (interruptEffect st) = true /\
              started (interruptEffect st) = started st /\
              (forall s, In s (sounding (interruptEffect st)) -> In s (sounding st))).
  { unfold interruptEffect. rewrite I.
    destruct (currentSource st); simpl;
      (split; [exact U | split; [reflexivity|]]); intros x Hx;
      [apply in_remove in Hx; apply Hx | exact Hx]. }
  destruct F as (F1 & F2 & F3).
  destruct (IH fl (interruptEffect st) F1) as (G1 & G2 & G3).
  repeat split; [exact G1 | congruence | intros s Hs; apply F3, G3, Hs].
Qed.

Lemma step_while_speaking (ef : Event * list Fault) (st : State) :
  keeps_speaking ef = true -> isUserSpeaking st = true ->
  isUserSpeaking (step ef st) = true /\
  started (step ef st) = started st /\
  (forall s, In s (sounding (step ef st)) -> In s (sounding st)).
Proof.
  intros K U. destruct ef as [e fl]. unfold step, commit. cbn [fst snd].
  assert (H : isUserSpeaking (handle e st) = true /\
              started (handle e st) = started st /\
              (forall s, In s (sounding (handle e st)) -> In s (sounding st))).
  { destruct e as [ident a t | b | s | |]; simpl.
    - repeat split; trivial.
    - destruct b; [repeat split; trivial | discriminate K].
    - destruct (s <? nextSource st); simpl;
        (split; [exact U | split; [reflexivity|]]); intros x Hx;
        [apply in_remove in Hx; apply Hx | exact Hx].
    - unfold clearQueue. destruct (currentSource st); simpl;
        (split; [exact U | split; [reflexivity|]]); intros x Hx;
        [apply in_remove in Hx; apply Hx | exact Hx].
    - repeat split; trivial. }
  destruct H as (H1 & H2 & H3).
  destruct (settle_while_speaking (2 + length (queue (handle e st))) fl
              (handle e st) H1) as (G1 & G2 & G3).
  repeat split; [exact G1 | congruence | intros s Hs; apply H3, G3, Hs].
Qed.

End WhileSpeaking.

(** X12. While the user is speaking nothing starts to play: from a state in
    which the user speaks, and until the speaking signal returns to false, no
    item is started and no node begins to sound, whatever is enqueued,
    cleared, re-armed or reported ended meanwhile. *)
Theorem nothing_starts_while_the_user_speaks
  (st : AudioQueue.State)
  (evs : list (AudioQueue.Event * list AudioQueue.Fault)) :
  AudioQueue.isUserSpeaking st = true ->
  forallb keeps_speaking evs = true ->
  AudioQueue.started (AudioQueue.run evs st) = AudioQueue.started st /\
  (forall s, In s (AudioQueue.sounding (AudioQueue.run evs st)) ->
             In s (AudioQueue.sounding st)).
Proof.
  revert st. induction evs as [|ef evs IH]; intros st U K; simpl.
  - split; trivial.
  - simpl in K. apply andb_prop in K. destruct K as [Ke K].
    destruct (step_while_speaking ef st Ke U) as (U1 & T1 & S1).
    destruct (IH (AudioQueue.step ef st) U1 K) as (T2 & S2).
    split; [congruence | intros s Hs; apply S1, S2, Hs].
Qed.

Lemma nothing_starts_while_the_user_speaks_witness :
  let st := AudioQueue.step (AudioQueue.Speaking true, []) (playingA false) in
  AudioQueue.started
    (AudioQueue.run (enqueue_events [itemC] ++ [(AudioQueue.Ended 0, [])]) st)
  = AudioQueue.started st.
Proof.
  intro st.
  refine (proj1 (nothing_starts_while_the_user_speaks st
                   (enqueue_events [itemC] ++ [(AudioQueue.Ended 0, [])]) _ _)).
  - reflexivity.
  - reflexivity.
Defined.

(** ** The transcription session *)

(** X13. The finalized utterances are a log of the final segments heard:
    over any sequence of messages, each non-empty segment marked final is
    appended, in order of arrival; interim segments, empty transcripts,
    utterance-end signals and unparseable messages add nothing, and nothing
    is ever removed or rewritten by the session itself. *)
Theorem finalized_utterances_are_a_log
  (msgs : list SpeechToText.Message) (st : SpeechToText.State) :
  SpeechToText.finalizedTranscripts (hear msgs st) =
  SpeechToText.finalizedTranscripts st ++ finals_of msgs.
Proof.
  revert st. induction msgs as [|m msgs IH]; intro st.
  - simpl. rewrite app_nil_r. reflexivity.
  - change (hear (m :: msgs) st) with (hear msgs (SpeechToText.onmessage m st)).
    rewrite IH. clear IH.
    destruct m as [| |t isFinal speechFinal]; simpl.
    + reflexivity.
    + destruct (SpeechToText.speechFinalReceivedRef st); reflexivity.
    + destruct (is_empty t) eqn:Et.
      * destruct isFinal; reflexivity.
      * destruct (SpeechToText.isSpeakingRef st); destruct isFinal;
          destruct speechFinal; simpl; rewrite <- ?app_assoc; reflexivity.
Qed.

(** X14. The fallback end-of-utterance signal is ignored once a fast-path
    end was seen, even when the user has begun a new utterance since: after a
    final segment with speech_final, a further final segment without it, and
    then an utterance-end signal, the user is still marked as speaking and
    both segments are in the finalized utterances; only a second
    utterance-end signal marks the user as silent. *)
Theorem late_utterance_end_is_swallowed
  (st : SpeechToText.State) (t1 t2 : jsstring) :
  t1 <> [] -> t2 <> [] ->
  let st' := hear [SpeechToText.Results t1 true true;
                   SpeechToText.Results t2 true false;
                   SpeechToText.UtteranceEnd] st in
  SpeechToText.isSpeaking st' = true /\
  SpeechToText.speechFinalReceivedRef st' = false /\
  SpeechToText.finalizedTranscripts st' =
  SpeechToText.finalizedTranscripts st ++ [t1; t2] /\
  SpeechToText.isSpeaking
    (SpeechToText.onmessage SpeechToText.UtteranceEnd st') = false.
Proof.
  intros H1 H2. destruct t1 as [|c1 t1]; [contradiction|].
  destruct t2 as [|c2 t2]; [contradiction|].
  unfold hear. simpl.
  destruct (SpeechToText.isSpeakingRef st); simpl;
    rewrite <- ?app_assoc; repeat split.
Qed.

Lemma late_utterance_end_is_swallowed_witness :
  SpeechToText.isSpeaking
    (hear [SpeechToText.Results (lit "first") true true;
           SpeechToText.Results (lit "second") true false;
           SpeechToText.UtteranceEnd] SpeechToText.initial) = true.
Proof.
  refine (proj1 (late_utterance_end_is_swallowed SpeechToText.initial
                   (lit "first") (lit "second") _ _));
    discriminate.
Defined.

(** ** The page over a session *)

Section Answers.

Import InterviewPage.

Lemma no_repeat_snoc (l : list jsstring) (x : jsstring) :
  no_repeat l -> last l [] <> x -> l <> [] -> no_repeat (l ++ [x]).
Proof.
  induction l as [|a l IH]; intros N L Hne; [contradiction|].
  destruct l as [|b l].
  - simpl in *. split; [exact L | exact I].
  - change ((a :: b :: l) ++ [x]) with (a :: (b :: l) ++ [x]).
    destruct N as [Hab N].
    change (no_repeat (a :: (b :: l) ++ [x]))
      with (a <> b /\ no_repeat ((b :: l) ++ [x])).
    split; [exact Hab|]. apply IH; [exact N | exact L | discriminate].
Qed.

Lemma answers_ok_frame (p q : Page) :
  lastTranscriptRef q = lastTranscriptRef p ->
  responses (emitted q) = responses (emitted p) ->
  answers_ok p -> answers_ok q.
Proof.
  intros L R H. unfold answers_ok. rewrite L, R. exact H.
Qed.

(** The effect sends at most one answer, never an empty one, never the one it
    sent last, and remembers what it sends. *)
Lemma transcriptSendEffect_answers_ok (p : Page) :
  answers_ok p -> answers_ok (transcriptSendEffect p).
Proof.
  intro H. unfold transcriptSendEffect.
  destruct (negb (SpeechToText.isSpeaking (stt p))
            && (0 <? length (SpeechToText.finalizedTranscripts (stt p)))
            && socketConnected p); [|exact H].
  set (combined := join_sp (SpeechToText.finalizedTranscripts (stt p))).
  destruct (truthy combined) eqn:T; cbn [andb]; [|exact H].
  unfold same_text. cbn [lastTranscriptRef withStt].
  destruct (list_eq_dec N.eq_dec combined (lastTranscriptRef p)) as [E|NE];
    cbn [negb]; [exact H|].
  destruct H as (L & F & N).
  unfold answers_ok. cbn [lastTranscriptRef emitted setLastTranscript emit
                          withAq withBuf withStt].
  rewrite responses_app. simpl.
  assert (Hc : combined <> []) by (destruct combined; [discriminate T | discriminate]).
  split; [rewrite last_last; reflexivity|].
  split; [apply Forall_app; split; [exact F | repeat constructor; exact Hc]|].
  destruct (responses (emitted p)) as [|a l] eqn:R; [exact I|].
  apply no_repeat_snoc; [exact N | | discriminate].
  rewrite <- L. intro X. apply NE. symmetry. exact X.
Qed.

Lemma handle_answers_ok (e : Session.Event) (p : Page) :
  answers_ok p -> answers_ok (Session.handle e p).
Proof.
  intro H. destruct e as [m | o f | o f | chunk | | i reply | sees f]; simpl.
  - exact H.
  - destruct (startCall_effect o f p) as (L & _ & [E|E] & _);
      apply (answers_ok_frame p); try assumption.
    + rewrite E. reflexivity.
    + rewrite E, responses_app. simpl. apply app_nil_r.
  - destruct (stopCall_effect o f p) as (p' & E & L & _ & Em & _).
    rewrite E. cbn [snd]. apply (answers_ok_frame p); try assumption.
    rewrite Em. reflexivity.
  - unfold text_chunk. destruct (negb (pageMounted p)); exact H.
  - unfold text_complete. destruct (negb (pageMounted p)); exact H.
  - exact H.
  - unfold interview_completed. destruct (negb (pageMounted p)); [exact H|].
    destruct sees; exact H.
Qed.

End Answers.

(** X15. The page never sends an empty answer and never sends the same
    answer twice in a row, and [lastTranscriptRef] always holds the answer it
    sent last: over every session, whatever is heard, started, stopped,
    streamed or completed. *)
Theorem answers_are_never_repeated (evs : list Session.Event) :
  let p := Session.run evs InterviewPage.connected in
  InterviewPage.lastTranscriptRef p =
  last (responses (InterviewPage.emitted p)) [] /\
  Forall (fun t => t <> []) (responses (InterviewPage.emitted p)) /\
  no_repeat (responses (InterviewPage.emitted p)).
Proof.
  intro p. subst p.
  assert (G : forall q, answers_ok q -> answers_ok (Session.run evs q)).
  { induction evs as [|e evs IH]; intros q H; [exact H|].
    apply IH. unfold Session.step.
    apply transcriptSendEffect_answers_ok, handle_answers_ok, H. }
  apply G. unfold answers_ok. simpl. repeat split. constructor.
Qed.

Lemma transcriptSendEffect_cases (p : InterviewPage.Page) :
  InterviewPage.transcriptSendEffect p = p \/
  SpeechToText.finalizedTranscripts
    (InterviewPage.stt (InterviewPage.transcriptSendEffect p)) = [].
Proof.
  unfold InterviewPage.transcriptSendEffect.
  destruct (negb (SpeechToText.isSpeaking (InterviewPage.stt p))
            && (0 <? length (SpeechToText.finalizedTranscripts
                               (InterviewPage.stt p)))
            && InterviewPage.socketConnected p); [|left; reflexivity].
  right. cbv zeta.
  match goal with
  | |- context [if ?c then _ else _] => destruct c
  end; reflexivity.
Qed.

(** X16. The transcript-send effect is idempotent: once it has run, running
    it again with nothing changed in between does nothing, whatever the page
    state. *)
Theorem transcriptSendEffect_runs_once (p : InterviewPage.Page) :
  InterviewPage.transcriptSendEffect (InterviewPage.transcriptSendEffect p) =
  InterviewPage.transcriptSendEffect p.
Proof.
  destruct (transcriptSendEffect_cases p) as [E|E].
  - rewrite E. exact E.
  - apply transcriptSendEffect_nothing_final, E.
Qed.

Section AnswerDuringConversion.

Import InterviewPage.

Lemma processTextBuffer_enqueued (f : bool) (o : option TtsError)
  (st : TextChunkBuffer.Buf) :
  TextChunkBuffer.enqueued (fst (TextChunkBuffer.processTextBuffer f o st)) =
  TextChunkBuffer.enqueued st.
Proof.
  unfold TextChunkBuffer.processTextBuffer.
  destruct (TextChunkBuffer.isProcessing st); [destruct f; reflexivity|].
  destruct ((20 <=? countWords (TextChunkBuffer.textBuffer st))
            || f && (0 <? countWords (TextChunkBuffer.textBuffer st)));
    reflexivity.
Qed.

Lemma awaitNested_enqueued (pending : option TtsError)
  (r : TextChunkBuffer.Buf * TextChunkBuffer.Outcome) :
  TextChunkBuffer.enqueued (TextChunkBuffer.awaitNested pending r) =
  TextChunkBuffer.enqueued (fst r).
Proof. destruct r as [st [|]], pending; reflexivity. Qed.

Lemma resume_enqueues (c : TextChunkBuffer.Conversion) (a : AudioBuffer)
  (st : TextChunkBuffer.Buf) :
  TextChunkBuffer.enqueued (TextChunkBuffer.resume c (inr a) st) =
  TextChunkBuffer.enqueued st ++ [(a, TextChunkBuffer.convText c)].
Proof.
  unfold TextChunkBuffer.resume.
  cbn [TextChunkBuffer.pendingFlush TextChunkBuffer.setProcessing
       TextChunkBuffer.enqueue TextChunkBuffer.textBuffer].
  destruct (TextChunkBuffer.pendingFlush st).
  - rewrite awaitNested_enqueued, processTextBuffer_enqueued. reflexivity.
  - destruct (20 <=? countWords (TextChunkBuffer.textBuffer st)).
    + rewrite awaitNested_enqueued, processTextBuffer_enqueued. reflexivity.
    + destruct (TextChunkBuffer.convOuter c); reflexivity.
Qed.

End AnswerDuringConversion.

(** X17. Sending an answer while a batch is being converted releases the
    lock without cancelling the conversion: the call stays pending with the
    flag down, the next chunk of twenty words or more starts a second
    conversion beside it, and when the old call resolves its audio - speech
    of the reply the user has just answered - is still enqueued. *)
Theorem answer_during_conversion_breaks_the_lock
  (p : InterviewPage.Page) (c : TextChunkBuffer.Conversion)
  (chunk : jsstring) (a : AudioBuffer) :
  TextChunkBuffer.isProcessing (InterviewPage.buf p) = true ->
  TextChunkBuffer.inflight (InterviewPage.buf p) = [c] ->
  is_empty (trim (TextChunkBuffer.convText c)) = false ->
  InterviewPage.pageMounted p = true ->
  InterviewPage.socketConnected p = true ->
  SpeechToText.isSpeaking (InterviewPage.stt p) = false ->
  SpeechToText.finalizedTranscripts (InterviewPage.stt p) <> [] ->
  join_sp (SpeechToText.finalizedTranscripts (InterviewPage.stt p)) <> [] ->
  join_sp (SpeechToText.finalizedTranscripts (InterviewPage.stt p)) <>
  InterviewPage.lastTranscriptRef p ->
  20 <= countWords chunk ->
  let p1 := InterviewPage.transcriptSendEffect p in
  let p2 := InterviewPage.text_chunk chunk p1 in
  let p3 := InterviewPage.withBuf
              (TextChunkBuffer.on_tts_settled 0 (Decoded a)) p2 in
  (TextChunkBuffer.isProcessing (InterviewPage.buf p1) = false /\
   TextChunkBuffer.inflight (InterviewPage.buf p1) = [c]) /\
  (TextChunkBuffer.isProcessing (InterviewPage.buf p2) = true /\
   TextChunkBuffer.inflight (InterviewPage.buf p2) =
   [c; {| TextChunkBuffer.convText := fst (extractFirstNWords chunk 20);
          TextChunkBuffer.convOuter := None |}]) /\
  TextChunkBuffer.enqueued (InterviewPage.buf p3) =
  TextChunkBuffer.enqueued (InterviewPage.buf p) ++
  [(a, TextChunkBuffer.convText c)].
Proof.
  intros P I T M C S F J L W p1 p2 p3.
  assert (E1 : p1 = InterviewPage.setLastTranscript
                 (join_sp (SpeechToText.finalizedTranscripts (InterviewPage.stt p)))
                 (InterviewPage.emit
                    (InterviewPage.UserResponse
                       (join_sp (SpeechToText.finalizedTranscripts
                                   (InterviewPage.stt p))))
                    (InterviewPage.withAq AudioQueue.resetFirstAudioFlag
                       (InterviewPage.withBuf InterviewPage.clearTextBuffer
                          (InterviewPage.withStt
                             (SpeechToText.setFinalizedTranscripts []) p))))).
  { subst p1. unfold InterviewPage.transcriptSendEffect.
    rewrite S, C.
    destruct (SpeechToText.finalizedTranscripts (InterviewPage.stt p))
      as [|t ts] eqn:Fq; [contradiction|].
    cbn [negb andb length Nat.ltb Nat.leb].
    destruct (join_sp (t :: ts)) as [|u us] eqn:Jq; [contradiction|].
    cbn [truthy is_empty negb andb].
    unfold InterviewPage.same_text.
    cbn [InterviewPage.lastTranscriptRef InterviewPage.withStt].
    destruct (list_eq_dec N.eq_dec (u :: us) (InterviewPage.lastTranscriptRef p));
      [contradiction|]. reflexivity. }
  assert (B1 : TextChunkBuffer.isProcessing (InterviewPage.buf p1) = false /\
               TextChunkBuffer.inflight (InterviewPage.buf p1) = [c] /\
               TextChunkBuffer.textBuffer (InterviewPage.buf p1) = [] /\
               TextChunkBuffer.pendingFlush (InterviewPage.buf p1) = false /\
               TextChunkBuffer.enqueued (InterviewPage.buf p1) =
               TextChunkBuffer.enqueued (InterviewPage.buf p) /\
               InterviewPage.pageMounted p1 = true).
  { rewrite E1. simpl. rewrite I, M. repeat split. }
  clearbody p1. clear E1.
  destruct B1 as (P1 & I1 & T1 & F1 & Q1 & M1).
  split; [split; assumption|].
  assert (B2 : InterviewPage.buf p2 =
               TextChunkBuffer.callTts (fst (extractFirstNWords chunk 20)) None
                 (TextChunkBuffer.setBuffer (snd (extractFirstNWords chunk 20))
                    (TextChunkBuffer.setProcessing true
                       (TextChunkBuffer.appendBuffer chunk
                          (InterviewPage.buf p1))))).
  { subst p2. unfold InterviewPage.text_chunk. rewrite M1.
    cbn [negb InterviewPage.withBuf InterviewPage.buf].
    unfold TextChunkBuffer.on_text_chunk, TextChunkBuffer.processTextBuffer.
    cbn [TextChunkBuffer.isProcessing TextChunkBuffer.appendBuffer
         TextChunkBuffer.textBuffer].
    rewrite P1, T1. cbn [app].
    apply Nat.leb_le in W. rewrite W. cbn [orb negb andb fst]. reflexivity. }
  assert (I2 : TextChunkBuffer.inflight (InterviewPage.buf p2) =
               [c; {| TextChunkBuffer.convText := fst (extractFirstNWords chunk 20);
                      TextChunkBuffer.convOuter := None |}]).
  { rewrite B2.
    cbn [TextChunkBuffer.inflight TextChunkBuffer.callTts
         TextChunkBuffer.setBuffer TextChunkBuffer.setProcessing
         TextChunkBuffer.appendBuffer].
    rewrite I1. reflexivity. }
  split.
  - split; [rewrite B2; reflexivity | exact I2].
  - subst p3. cbn [InterviewPage.withBuf InterviewPage.buf].
    unfold TextChunkBuffer.on_tts_settled. rewrite I2.
    cbn [nth_error]. unfold textToAudioBuffer. rewrite T.
    rewrite resume_enqueues.
    cbn [TextChunkBuffer.enqueued TextChunkBuffer.dropInflight].
    rewrite B2.
    cbn [TextChunkBuffer.enqueued TextChunkBuffer.callTts
         TextChunkBuffer.setBuffer TextChunkBuffer.setProcessing
         TextChunkBuffer.appendBuffer].
    rewrite Q1. reflexivity.
Qed.

Lemma answer_during_conversion_breaks_the_lock_witness :
  TextChunkBuffer.enqueued
    (InterviewPage.buf
       (InterviewPage.withBuf (TextChunkBuffer.on_tts_settled 0 (Decoded 7))
          (InterviewPage.text_chunk words20
             (InterviewPage.transcriptSendEffect answering)))) =
  TextChunkBuffer.enqueued (InterviewPage.buf answering) ++
  [(7, TextChunkBuffer.convText first_batch)].
Proof.
  refine (proj2 (proj2 (answer_during_conversion_breaks_the_lock
                          answering first_batch words20 7
                          _ _ _ _ _ _ _ _ _ _)));
    try reflexivity; vm_compute; discriminate.
Defined.

(** X18. A start that fails after the microphone was opened leaves the
    stream held: [startCall] throws, the session is not marked as
    transcribing and the call not as active, nothing is emitted and the text
    buffer is untouched, but [streamRef] holds the stream; a [stopCall] that
    follows releases nothing and leaves it held. *)
Theorem failed_start_keeps_the_microphone
  (p : InterviewPage.Page) (o o' : SpeechToText.StartOutcome)
  (f f' : SpeechToText.ReleaseFaults) :
  SpeechToText.isTranscribing (InterviewPage.stt p) = false ->
  o = SpeechToText.RecorderFails \/ o = SpeechToText.SocketFails ->
  let r := InterviewPage.startCall o f p in
  let r' := InterviewPage.stopCall o' f' (snd r) in
  fst r = inl SpeechToText.StartFailed /\
  SpeechToText.streamRef (InterviewPage.stt (snd r)) = true /\
  SpeechToText.isTranscribing (InterviewPage.stt (snd r)) = false /\
  InterviewPage.callActive (snd r) = InterviewPage.callActive p /\
  InterviewPage.emitted (snd r) = InterviewPage.emitted p /\
  InterviewPage.buf (snd r) = InterviewPage.buf p /\
  fst r' = inr tt /\
  SpeechToText.released (InterviewPage.stt (snd r')) =
  SpeechToText.released (InterviewPage.stt p) /\
  SpeechToText.streamRef (InterviewPage.stt (snd r')) = true.
Proof.
  intros T O r r'.
  assert (R : r = InterviewPage.startCall o f p) by reflexivity.
  clearbody r. unfold InterviewPage.startCall in R. rewrite T in R.
  cbn [negb] in R. unfold Exc.bind at 1 in R.
  unfold InterviewPage.onStt in R.
  rewrite (toggle_when_idle o f (InterviewPage.stt p) T) in R.
  assert (R' : r' = InterviewPage.stopCall o' f' (snd r)) by reflexivity.
  clearbody r'. unfold InterviewPage.stopCall in R'.
  destruct O as [O|O]; subst o; cbn in R; subst r; cbn in R';
    rewrite T in R'; cbn in R'; subst r'; cbn; rewrite ?T; repeat split.
Qed.

Lemma failed_start_keeps_the_microphone_witness :
  SpeechToText.streamRef
    (InterviewPage.stt
       (snd (InterviewPage.stopCall SpeechToText.Started none_fails
               (snd (InterviewPage.startCall SpeechToText.RecorderFails
                       none_fails InterviewPage.connected))))) = true.
Proof.
  refine (match failed_start_keeps_the_microphone InterviewPage.connected
                  SpeechToText.RecorderFails SpeechToText.Started
                  none_fails none_fails _ _ with
          | conj _ (conj _ (conj _ (conj _ (conj _ (conj _ (conj _ (conj _ H)))))))
            => H
          end);
    [reflexivity | left; reflexivity].
Defined.

(** ** The end of a reply *)

Section EndOfReply.

Import TextChunkBuffer.

Lemma run_idle_and_carrier (evs : list Event) (st0 : Buf) :
  idle_below_threshold st0 /\ flush_has_carrier st0 ->
  idle_below_threshold (run evs st0) /\ flush_has_carrier (run evs st0).
Proof.
  revert st0. induction evs as [|e evs IH]; intros st0 H; simpl; [exact H|].
  apply IH, step_idle_and_carrier, H.
Qed.

Lemma settled_when_drained (i : nat) (r : TtsReply) (st : Buf) :
  drained st -> drained (on_tts_settled i r st).
Proof.
  intros D. unfold on_tts_settled. destruct D as (I & D).
  rewrite I. destruct i; simpl; repeat split; try apply D; exact I.
Qed.

(** The last conversion settles with no flush recorded and fewer than twenty
    words waiting: the buffer is idle with the same text. *)
Lemma last_conversion_settles (c : Conversion) (r : TtsReply) (st : Buf) :
  inflight st = [c] -> pendingFlush st = false ->
  length (words (textBuffer st)) = 0 ->
  drained (on_tts_settled 0 r st).
Proof.
  intros I F W. unfold on_tts_settled. rewrite I. cbn [nth_error].
  destruct (resume_no_flush_pending c (textToAudioBuffer (convText c) r)
              (dropInflight 0 st) F) as (F' & _ & _ & _ & L).
  cbn [textBuffer dropInflight] in L.
  destruct L as (I' & T' & P' & _); [lia|].
  cbn [inflight dropInflight] in I'. rewrite I in I'. cbn in I'.
  unfold drained. rewrite I', T', P', F'. repeat split. exact W.
Qed.

Lemma text_complete_drains_from (r1 r2 : TtsReply) (st : Buf) :
  lock_matches_inflight st -> flush_has_carrier st ->
  drained (on_tts_settled 0 r2 (on_tts_settled 0 r1 (on_text_complete st))).
Proof.
  intros L C. unfold lock_matches_inflight in L. unfold on_text_complete.
  destruct (isProcessing st) eqn:P.
  - rewrite (processTextBuffer_busy true None st P). cbn [fst].
    destruct (inflight st) as [|c [|c' l]] eqn:I; try discriminate L.
    unfold on_tts_settled at 2.
    cbn [inflight setPendingFlush]. rewrite I. cbn [nth_error].
    set (st1 := dropInflight 0 (setPendingFlush true st)).
    assert (F1 : pendingFlush st1 = true) by reflexivity.
    assert (I1 : inflight st1 = []).
    { subst st1. cbn [inflight dropInflight setPendingFlush]. rewrite I.
      reflexivity. }
    destruct (resume_flush_pending c (textToAudioBuffer (convText c) r1) st1 F1)
      as (F' & _ & _ & Pos & Zero).
    destruct (length (words (textBuffer st1))) as [|n] eqn:W.
    + destruct Zero as (I' & T' & P' & _); [reflexivity|].
      apply settled_when_drained. unfold drained.
      rewrite I', I1, P', F', T', W. repeat split.
    + destruct Pos as (I' & T' & P' & _); [lia|].
      rewrite I1 in I'. cbn [app] in I'.
      apply (last_conversion_settles _ r2 _ I' F').
      rewrite T'. reflexivity.
  - assert (F : pendingFlush st = false).
    { destruct (pendingFlush st) eqn:F; [|reflexivity].
      specialize (C F). rewrite P in C. discriminate C. }
    destruct (length (words (textBuffer st))) as [|n] eqn:W.
    + rewrite (processTextBuffer_idle_skip true None st P); [|lia|intros _; exact W].
      cbn [fst]. apply settled_when_drained, settled_when_drained.
      unfold drained. rewrite L, P, F, W. repeat split.
    + rewrite (processTextBuffer_idle_forced None st P); [|lia]. cbn [fst].
      apply settled_when_drained.
      apply (last_conversion_settles
               {| convText := textBuffer st; convOuter := None |} r1).
      * cbn [inflight callTts setBuffer setProcessing]. rewrite L. reflexivity.
      * exact F.
      * reflexivity.
Qed.

End EndOfReply.

(** X19. The end of a reply empties the buffer: whatever happened before,
    once [text_complete] has arrived and no further chunk comes, two
    settlements of the pending synthesis call are enough - whether they
    succeed or fail - for the buffer to be idle with no call pending, no
    flush recorded and no word left waiting. *)
Theorem text_complete_drains_the_buffer
  (evs : list TextChunkBuffer.Event) (r1 r2 : TtsReply) :
  let st := TextChunkBuffer.run
              (evs ++ [TextChunkBuffer.TextComplete;
                       TextChunkBuffer.TtsSettled 0 r1;
                       TextChunkBuffer.TtsSettled 0 r2])
              TextChunkBuffer.init in
  TextChunkBuffer.inflight st = [] /\
  TextChunkBuffer.isProcessing st = false /\
  TextChunkBuffer.pendingFlush st = false /\
  countWords (TextChunkBuffer.textBuffer st) = 0.
Proof.
  intro st. subst st. rewrite run_app. cbn [TextChunkBuffer.run fold_left
                                             TextChunkBuffer.step].
  rewrite countWords_words.
  apply text_complete_drains_from.
  - apply reachable_lock_inv. exists evs. reflexivity.
  - apply (run_idle_and_carrier evs TextChunkBuffer.init). split.
    + intros _. vm_compute. lia.
    + intro H. discriminate H.
Qed.

(** X20. [clearQueue] leaves nothing to hear: in every run in which no node
    reports [ended] after it was dropped, playback faults or not, once
    [clearQueue] has run the queue is empty, the queue is idle with no node
    held, and no node is sounding. *)
Theorem clearQueue_silences
  (cb : bool) (evs : list (AudioQueue.Event * list AudioQueue.Fault))
  (fl : list AudioQueue.Fault) :
  timely evs (AudioQueue.mounted cb) ->
  let st := AudioQueue.step (AudioQueue.ClearQueue, fl)
              (AudioQueue.run evs (AudioQueue.mounted cb)) in
  AudioQueue.queue st = [] /\
  AudioQueue.isPlaying st = false /\
  AudioQueue.currentSource st = None /\
  AudioQueue.currentPlayingText st = [] /\
  AudioQueue.sounding st = [].
Proof.
  intros T st.
  assert (V : one_voice (AudioQueue.run evs (AudioQueue.mounted cb))).
  { apply (run_one_voice evs (AudioQueue.mounted cb) T).
    split; simpl; [lia | intros s []]. }
  subst st. generalize dependent (AudioQueue.run evs (AudioQueue.mounted cb)).
  intros st0 [Vl Vh].
  unfold AudioQueue.step, AudioQueue.commit. cbn [fst snd AudioQueue.handle].
  assert (Q : AudioQueue.queue (AudioQueue.clearQueue st0) = []).
  { unfold AudioQueue.clearQueue.
    destruct (AudioQueue.currentSource st0); reflexivity. }
  rewrite Q. cbn [length Nat.add].
  assert (R : AudioQueue.settle 2 fl (AudioQueue.clearQueue st0) =
              AudioQueue.clearQueue st0).
  { cbn [AudioQueue.settle]. unfold AudioQueue.wantsToPlay.
    rewrite Q. cbn [length Nat.ltb Nat.leb andb].
    unfold AudioQueue.wantsToInterrupt.
    replace (AudioQueue.isPlaying (AudioQueue.clearQueue st0)) with false
      by (unfold AudioQueue.clearQueue;
          destruct (AudioQueue.currentSource st0); reflexivity).
    rewrite andb_false_r. reflexivity. }
  rewrite R. unfold AudioQueue.clearQueue.
  assert (Snd : AudioQueue.sounding (AudioQueue.clearQueue st0) = []).
  { unfold AudioQueue.clearQueue.
    destruct (AudioQueue.currentSource st0) as [s|] eqn:C; cbn.
    - destruct (AudioQueue.sounding st0) as [|a [|b l]] eqn:S;
        [reflexivity | | simpl in Vl; lia].
      assert (E : Some s = Some a) by (apply Vh; left; reflexivity).
      injection E as E. subst a. simpl.
      destruct (Nat.eq_dec s s); [reflexivity | contradiction].
    - destruct (AudioQueue.sounding st0) as [|a l] eqn:S; [reflexivity|].
      assert (E : @None nat = Some a) by (apply Vh; left; reflexivity).
      discriminate E. }
  split; [exact Q|].
  split; [|split; [|split; [|exact Snd]]];
    unfold AudioQueue.clearQueue;
    destruct (AudioQueue.currentSource st0) eqn:C; cbn; rewrite ?C;
    reflexivity.
Qed.

Lemma clearQueue_silences_witness :
  AudioQueue.sounding
    (AudioQueue.step (AudioQueue.ClearQueue, [])
       (AudioQueue.run
          [(AudioQueue.Enqueued (AudioQueue.id itemA)
              (AudioQueue.audioBuffer itemA) (AudioQueue.text itemA), []);
           (AudioQueue.Enqueued (AudioQueue.id itemB)
              (AudioQueue.audioBuffer itemB) (AudioQueue.text itemB), [])]
          (AudioQueue.mounted false))) = [].
Proof.
  refine (match clearQueue_silences false
                  [(AudioQueue.Enqueued (AudioQueue.id itemA)
                      (AudioQueue.audioBuffer itemA) (AudioQueue.text itemA), []);
                   (AudioQueue.Enqueued (AudioQueue.id itemB)
                      (AudioQueue.audioBuffer itemB) (AudioQueue.text itemB), [])]
                  [] _ with
          | conj _ (conj _ (conj _ (conj _ H))) => H
          end).
  vm_compute. repeat split.
Defined.
